(** * AES-XTS for x86_64 (AES-NI/VAES with AVX, AVX2, AVX10): functional model

    A shallow embedding of the assembly macros of the AES-XTS routine
    ([_aes_xts_crypt] and the macros it expands) together with the semantics
    of the SIMD instructions they use.  A 128-bit lane is a [Z] in
    [0, 2^128); a vector register of [VL] bytes is the list of its [VL/16]
    lanes; memory is a total map from addresses to bytes. *)

From Stdlib Require Import ZArith List Lia Bool Btauto.
Import ListNotations.
Local Open Scope Z_scope.

(** ** Machine words *)

Definition mask (w x : Z) : Z := Z.land x (Z.ones w).
Definition byte (i x : Z) : Z := mask 8 (Z.shiftr x (8 * i)).
Definition dword (i x : Z) : Z := mask 32 (Z.shiftr x (32 * i)).
Definition qword (i x : Z) : Z := mask 64 (Z.shiftr x (64 * i)).
Definition of_qwords (q0 q1 : Z) : Z := Z.lor q0 (Z.shiftl q1 64).
Definition of_dwords (d0 d1 d2 d3 : Z) : Z :=
  Z.lor (Z.lor d0 (Z.shiftl d1 32)) (Z.lor (Z.shiftl d2 64) (Z.shiftl d3 96)).

(** Little-endian byte strings. *)
Fixpoint of_bytes (l : list Z) : Z :=
  match l with
  | [] => 0
  | b :: r => Z.lor b (Z.shiftl (of_bytes r) 8)
  end.

Definition zseq (n : nat) : list Z := map Z.of_nat (seq 0 n).
Definition bytes_of (x : Z) : list Z := map (fun i => byte i x) (zseq 16).

Definition signed (w x : Z) : Z := if x <? 2 ^ (w - 1) then x else x - 2 ^ w.

(** 64-bit general-purpose registers and the flags the routine tests. *)
Definition add64 (a b : Z) : Z := (a + b) mod 2 ^ 64.
Definition sub64 (a b : Z) : Z := (a - b) mod 2 ^ 64.
(* [jl] after [sub b, a]: SF <> OF, the signed comparison a < b. *)
Definition jl_sub (a b : Z) : bool := signed 64 a <? signed 64 b.
(* [jl] after [add b, a]: SF <> OF, the sign of the exact sum. *)
Definition jl_add (a b : Z) : bool := signed 64 a + signed 64 b <? 0.
(* [jnz] after [test b, a]. *)
Definition jnz_test (a b : Z) : bool := negb (Z.land a b =? 0).

(** ** Vector registers *)

Definition vec := list Z.

Definition nlanes (VL : Z) : nat := Z.to_nat (VL / 16).
Definition vop1 (f : Z -> Z) (a : vec) : vec := map f a.
Definition vop2 (f : Z -> Z -> Z) (a b : vec) : vec :=
  map (fun p => f (fst p) (snd p)) (combine a b).
Definition vop3 (f : Z -> Z -> Z -> Z) (a b c : vec) : vec :=
  map (fun p => f (fst (fst p)) (snd (fst p)) (snd p)) (combine (combine a b) c).
(* The xmm view of a register is its lane 0; a VEX- or EVEX-coded write to
   an xmm register clears the upper lanes, so it leaves a one-lane vector. *)
Definition xmm (v : vec) : Z := hd 0 v.
Definition of_xmm (x : Z) : vec := [x].

(** ** Memory *)

Definition mem := Z -> Z.

Definition load_bytes (m : mem) (a : Z) (n : nat) : list Z :=
  map (fun i => m (a + i)) (zseq n).
Definition store_bytes (m : mem) (a : Z) (l : list Z) : mem :=
  fun x => if (a <=? x) && (x <? a + Z.of_nat (length l))
           then nth (Z.to_nat (x - a)) l 0 else m x.

(* vmovdqu between memory and an xmm register. *)
Definition load128 (m : mem) (a : Z) : Z := of_bytes (load_bytes m a 16).
Definition store128 (m : mem) (a : Z) (v : Z) : mem := store_bytes m a (bytes_of v).

(* _vmovdqu between memory and a vector register of VL bytes. *)
Definition _vmovdqu_load (VL : Z) (m : mem) (a : Z) : vec :=
  map (fun j => load128 m (a + 16 * j)) (zseq (nlanes VL)).
Fixpoint store_lanes (m : mem) (a : Z) (v : vec) : mem :=
  match v with
  | [] => m
  | x :: r => store_lanes (store128 m a x) (a + 16) r
  end.
Definition _vmovdqu_store (m : mem) (a : Z) (v : vec) : mem := store_lanes m a v.

(* vmovdqu8 with a byte mask in %k1: merge-masking load, masked store. *)
Definition vmovdqu8_load_k (m : mem) (a : Z) (k : Z) (dst : Z) : Z :=
  of_bytes (map (fun i => if Z.testbit k i then m (a + i) else byte i dst) (zseq 16)).
Definition vmovdqu8_store_k (m : mem) (a : Z) (k : Z) (v : Z) : mem :=
  fun x => if (a <=? x) && (x <? a + 16) && Z.testbit k (x - a)
           then byte (x - a) v else m x.

(* An effective address disp(base) or (base, index, 1). *)
Definition ea (base disp : Z) : Z := (base + disp) mod 2 ^ 64.

(** ** Read-only data *)

(* .Lgf_poly: .quad 0x87, 1 *)
Definition gf_poly : Z := of_qwords 0x87 1.

(* .Lcts_permute_table *)
Definition cts_permute_table : list Z :=
  [ 0x80; 0x80; 0x80; 0x80; 0x80; 0x80; 0x80; 0x80;
    0x80; 0x80; 0x80; 0x80; 0x80; 0x80; 0x80; 0x80;
    0x00; 0x01; 0x02; 0x03; 0x04; 0x05; 0x06; 0x07;
    0x08; 0x09; 0x0a; 0x0b; 0x0c; 0x0d; 0x0e; 0x0f;
    0x80; 0x80; 0x80; 0x80; 0x80; 0x80; 0x80; 0x80;
    0x80; 0x80; 0x80; 0x80; 0x80; 0x80; 0x80; 0x80 ].

(* A 16-byte load at byte offset [off] of the table. *)
Definition load_cts_table (off : Z) : Z :=
  of_bytes (map (fun i => nth (Z.to_nat (off + i)) cts_permute_table 0) (zseq 16)).

(** ** Integer SIMD instructions, on one 128-bit lane

    Operands are in the order of the assembly source (AT&T: sources first). *)

Definition vpshufd (imm src : Z) : Z :=
  of_dwords (dword (mask 2 imm) src)
            (dword (mask 2 (Z.shiftr imm 2)) src)
            (dword (mask 2 (Z.shiftr imm 4)) src)
            (dword (mask 2 (Z.shiftr imm 6)) src).
Definition vpaddq (a b : Z) : Z :=
  of_qwords ((qword 0 a + qword 0 b) mod 2 ^ 64) ((qword 1 a + qword 1 b) mod 2 ^ 64).
Definition sar32 (imm d : Z) : Z := (Z.shiftr (signed 32 d) imm) mod 2 ^ 32.
Definition vpsrad (imm src : Z) : Z :=
  of_dwords (sar32 imm (dword 0 src)) (sar32 imm (dword 1 src))
            (sar32 imm (dword 2 src)) (sar32 imm (dword 3 src)).
Definition vpand (a b : Z) : Z := Z.land a b.
Definition vpxor (a b : Z) : Z := Z.lxor a b.
Definition vpsrlq (imm src : Z) : Z :=
  of_qwords (Z.shiftr (qword 0 src) imm) (Z.shiftr (qword 1 src) imm).
Definition vpsllq (imm src : Z) : Z :=
  of_qwords (mask 64 (Z.shiftl (qword 0 src) imm)) (mask 64 (Z.shiftl (qword 1 src) imm)).
(* Byte shifts of the whole lane; a count above 15 clears it. *)
Definition vpslldq (imm src : Z) : Z := mask 128 (Z.shiftl src (8 * Z.min imm 16)).
Definition vpsrldq (imm src : Z) : Z := Z.shiftr src (8 * Z.min imm 16).

(* Carry-less multiplication of two 64-bit polynomials over GF(2). *)
Fixpoint clmul_aux (k : nat) (a b : Z) : Z :=
  match k with
  | O => 0
  | S k' =>
      Z.lxor (if Z.testbit b (Z.of_nat k') then Z.shiftl a (Z.of_nat k') else 0)
             (clmul_aux k' a b)
  end.
Definition clmul64 (a b : Z) : Z := clmul_aux 64 a b.
(* vpclmulqdq $imm, src2, src1: imm bit 0 selects the quadword of src1,
   imm bit 4 the quadword of src2. *)
Definition vpclmulqdq (imm src2 src1 : Z) : Z :=
  clmul64 (qword (if Z.testbit imm 0 then 1 else 0) src1)
          (qword (if Z.testbit imm 4 then 1 else 0) src2).

(* vpternlogd $imm, src3, src2, dst: bit j of the result is bit
   (4*dst[j] + 2*src2[j] + src3[j]) of imm. *)
Definition lit (pos : bool) (x : Z) : Z := if pos then x else Z.lxor x (Z.ones 128).
Definition minterm (k : Z) (src3 src2 dst : Z) : Z :=
  Z.land (lit (Z.testbit k 2) dst) (Z.land (lit (Z.testbit k 1) src2) (lit (Z.testbit k 0) src3)).
Definition vpternlogd (imm src3 src2 dst : Z) : Z :=
  fold_right (fun k acc => Z.lor (if Z.testbit imm k then minterm k src3 src2 dst else 0) acc)
             0 (zseq 8).

(* vpshufb ctrl, src: byte i is 0 if bit 7 of ctrl[i] is set, else
   src[ctrl[i] mod 16]. *)
Definition vpshufb (ctrl src : Z) : Z :=
  of_bytes (map (fun c => if Z.testbit c 7 then 0
                          else nth (Z.to_nat (Z.land c 15)) (bytes_of src) 0)
                (bytes_of ctrl)).
(* vpblendvb sel, src2, src1: byte i is src2[i] if bit 7 of sel[i] is set,
   else src1[i]. *)
Definition vpblendvb (sel src2 src1 : Z) : Z :=
  of_bytes (map (fun i => if Z.testbit (byte i sel) 7 then byte i src2 else byte i src1)
                (zseq 16)).

(* bzhi idx, src on 64-bit registers. *)
Definition bzhi (idx src : Z) : Z :=
  let n := mask 8 idx in
  if n <? 64 then Z.land src (Z.ones n) else src.

(** ** AES round instructions (AES-NI, VAES), on one 128-bit lane

    Byte [4*c + r] of a lane is the state byte in row [r], column [c]. *)

Definition sbox : list Z :=
  [
    0x63; 0x7c; 0x77; 0x7b; 0xf2; 0x6b; 0x6f; 0xc5; 0x30; 0x01; 0x67; 0x2b; 0xfe; 0xd7; 0xab; 0x76;
    0xca; 0x82; 0xc9; 0x7d; 0xfa; 0x59; 0x47; 0xf0; 0xad; 0xd4; 0xa2; 0xaf; 0x9c; 0xa4; 0x72; 0xc0;
    0xb7; 0xfd; 0x93; 0x26; 0x36; 0x3f; 0xf7; 0xcc; 0x34; 0xa5; 0xe5; 0xf1; 0x71; 0xd8; 0x31; 0x15;
    0x04; 0xc7; 0x23; 0xc3; 0x18; 0x96; 0x05; 0x9a; 0x07; 0x12; 0x80; 0xe2; 0xeb; 0x27; 0xb2; 0x75;
    0x09; 0x83; 0x2c; 0x1a; 0x1b; 0x6e; 0x5a; 0xa0; 0x52; 0x3b; 0xd6; 0xb3; 0x29; 0xe3; 0x2f; 0x84;
    0x53; 0xd1; 0x00; 0xed; 0x20; 0xfc; 0xb1; 0x5b; 0x6a; 0xcb; 0xbe; 0x39; 0x4a; 0x4c; 0x58; 0xcf;
    0xd0; 0xef; 0xaa; 0xfb; 0x43; 0x4d; 0x33; 0x85; 0x45; 0xf9; 0x02; 0x7f; 0x50; 0x3c; 0x9f; 0xa8;
    0x51; 0xa3; 0x40; 0x8f; 0x92; 0x9d; 0x38; 0xf5; 0xbc; 0xb6; 0xda; 0x21; 0x10; 0xff; 0xf3; 0xd2;
    0xcd; 0x0c; 0x13; 0xec; 0x5f; 0x97; 0x44; 0x17; 0xc4; 0xa7; 0x7e; 0x3d; 0x64; 0x5d; 0x19; 0x73;
    0x60; 0x81; 0x4f; 0xdc; 0x22; 0x2a; 0x90; 0x88; 0x46; 0xee; 0xb8; 0x14; 0xde; 0x5e; 0x0b; 0xdb;
    0xe0; 0x32; 0x3a; 0x0a; 0x49; 0x06; 0x24; 0x5c; 0xc2; 0xd3; 0xac; 0x62; 0x91; 0x95; 0xe4; 0x79;
    0xe7; 0xc8; 0x37; 0x6d; 0x8d; 0xd5; 0x4e; 0xa9; 0x6c; 0x56; 0xf4; 0xea; 0x65; 0x7a; 0xae; 0x08;
    0xba; 0x78; 0x25; 0x2e; 0x1c; 0xa6; 0xb4; 0xc6; 0xe8; 0xdd; 0x74; 0x1f; 0x4b; 0xbd; 0x8b; 0x8a;
    0x70; 0x3e; 0xb5; 0x66; 0x48; 0x03; 0xf6; 0x0e; 0x61; 0x35; 0x57; 0xb9; 0x86; 0xc1; 0x1d; 0x9e;
    0xe1; 0xf8; 0x98; 0x11; 0x69; 0xd9; 0x8e; 0x94; 0x9b; 0x1e; 0x87; 0xe9; 0xce; 0x55; 0x28; 0xdf;
    0x8c; 0xa1; 0x89; 0x0d; 0xbf; 0xe6; 0x42; 0x68; 0x41; 0x99; 0x2d; 0x0f; 0xb0; 0x54; 0xbb; 0x16
  ].

Definition inv_sbox : list Z :=
  [
    0x52; 0x09; 0x6a; 0xd5; 0x30; 0x36; 0xa5; 0x38; 0xbf; 0x40; 0xa3; 0x9e; 0x81; 0xf3; 0xd7; 0xfb;
    0x7c; 0xe3; 0x39; 0x82; 0x9b; 0x2f; 0xff; 0x87; 0x34; 0x8e; 0x43; 0x44; 0xc4; 0xde; 0xe9; 0xcb;
    0x54; 0x7b; 0x94; 0x32; 0xa6; 0xc2; 0x23; 0x3d; 0xee; 0x4c; 0x95; 0x0b; 0x42; 0xfa; 0xc3; 0x4e;
    0x08; 0x2e; 0xa1; 0x66; 0x28; 0xd9; 0x24; 0xb2; 0x76; 0x5b; 0xa2; 0x49; 0x6d; 0x8b; 0xd1; 0x25;
    0x72; 0xf8; 0xf6; 0x64; 0x86; 0x68; 0x98; 0x16; 0xd4; 0xa4; 0x5c; 0xcc; 0x5d; 0x65; 0xb6; 0x92;
    0x6c; 0x70; 0x48; 0x50; 0xfd; 0xed; 0xb9; 0xda; 0x5e; 0x15; 0x46; 0x57; 0xa7; 0x8d; 0x9d; 0x84;
    0x90; 0xd8; 0xab; 0x00; 0x8c; 0xbc; 0xd3; 0x0a; 0xf7; 0xe4; 0x58; 0x05; 0xb8; 0xb3; 0x45; 0x06;
    0xd0; 0x2c; 0x1e; 0x8f; 0xca; 0x3f; 0x0f; 0x02; 0xc1; 0xaf; 0xbd; 0x03; 0x01; 0x13; 0x8a; 0x6b;
    0x3a; 0x91; 0x11; 0x41; 0x4f; 0x67; 0xdc; 0xea; 0x97; 0xf2; 0xcf; 0xce; 0xf0; 0xb4; 0xe6; 0x73;
    0x96; 0xac; 0x74; 0x22; 0xe7; 0xad; 0x35; 0x85; 0xe2; 0xf9; 0x37; 0xe8; 0x1c; 0x75; 0xdf; 0x6e;
    0x47; 0xf1; 0x1a; 0x71; 0x1d; 0x29; 0xc5; 0x89; 0x6f; 0xb7; 0x62; 0x0e; 0xaa; 0x18; 0xbe; 0x1b;
    0xfc; 0x56; 0x3e; 0x4b; 0xc6; 0xd2; 0x79; 0x20; 0x9a; 0xdb; 0xc0; 0xfe; 0x78; 0xcd; 0x5a; 0xf4;
    0x1f; 0xdd; 0xa8; 0x33; 0x88; 0x07; 0xc7; 0x31; 0xb1; 0x12; 0x10; 0x59; 0x27; 0x80; 0xec; 0x5f;
    0x60; 0x51; 0x7f; 0xa9; 0x19; 0xb5; 0x4a; 0x0d; 0x2d; 0xe5; 0x7a; 0x9f; 0x93; 0xc9; 0x9c; 0xef;
    0xa0; 0xe0; 0x3b; 0x4d; 0xae; 0x2a; 0xf5; 0xb0; 0xc8; 0xeb; 0xbb; 0x3c; 0x83; 0x53; 0x99; 0x61;
    0x17; 0x2b; 0x04; 0x7e; 0xba; 0x77; 0xd6; 0x26; 0xe1; 0x69; 0x14; 0x63; 0x55; 0x21; 0x0c; 0x7d
  ].

Definition SubByte (b : Z) : Z := nth (Z.to_nat b) sbox 0.
Definition InvSubByte (b : Z) : Z := nth (Z.to_nat b) inv_sbox 0.
Definition SubBytes (s : list Z) : list Z := map SubByte s.
Definition InvSubBytes (s : list Z) : list Z := map InvSubByte s.

Definition permute (idx : list nat) (s : list Z) : list Z := map (fun i => nth i s 0) idx.
Definition ShiftRows (s : list Z) : list Z :=
  permute [0; 5; 10; 15; 4; 9; 14; 3; 8; 13; 2; 7; 12; 1; 6; 11]%nat s.
Definition InvShiftRows (s : list Z) : list Z :=
  permute [0; 13; 10; 7; 4; 1; 14; 11; 8; 5; 2; 15; 12; 9; 6; 3]%nat s.

(* Multiplication by x, x+1, ... in GF(2^8) modulo x^8 + x^4 + x^3 + x + 1. *)
Definition xtime (b : Z) : Z :=
  Z.lxor (mask 8 (Z.shiftl b 1)) (if Z.testbit b 7 then 0x1b else 0).
Definition mul2 (b : Z) : Z := xtime b.
Definition mul3 (b : Z) : Z := Z.lxor (xtime b) b.
Definition mul9 (b : Z) : Z := Z.lxor (xtime (xtime (xtime b))) b.
Definition mul11 (b : Z) : Z := Z.lxor (Z.lxor (xtime (xtime (xtime b))) (xtime b)) b.
Definition mul13 (b : Z) : Z := Z.lxor (Z.lxor (xtime (xtime (xtime b))) (xtime (xtime b))) b.
Definition mul14 (b : Z) : Z :=
  Z.lxor (Z.lxor (xtime (xtime (xtime b))) (xtime (xtime b))) (xtime b).

Definition xor4 (a b c d : Z) : Z := Z.lxor (Z.lxor a b) (Z.lxor c d).

Fixpoint MixColumns (s : list Z) : list Z :=
  match s with
  | a0 :: a1 :: a2 :: a3 :: r =>
      xor4 (mul2 a0) (mul3 a1) a2 a3 :: xor4 a0 (mul2 a1) (mul3 a2) a3 ::
      xor4 a0 a1 (mul2 a2) (mul3 a3) :: xor4 (mul3 a0) a1 a2 (mul2 a3) :: MixColumns r
  | _ => []
  end.
Fixpoint InvMixColumns (s : list Z) : list Z :=
  match s with
  | a0 :: a1 :: a2 :: a3 :: r =>
      xor4 (mul14 a0) (mul11 a1) (mul13 a2) (mul9 a3) ::
      xor4 (mul9 a0) (mul14 a1) (mul11 a2) (mul13 a3) ::
      xor4 (mul13 a0) (mul9 a1) (mul14 a2) (mul11 a3) ::
      xor4 (mul11 a0) (mul13 a1) (mul9 a2) (mul14 a3) :: InvMixColumns r
  | _ => []
  end.

Definition vaesenc (key data : Z) : Z :=
  Z.lxor (of_bytes (MixColumns (SubBytes (ShiftRows (bytes_of data))))) key.
Definition vaesenclast (key data : Z) : Z :=
  Z.lxor (of_bytes (SubBytes (ShiftRows (bytes_of data)))) key.
Definition vaesdec (key data : Z) : Z :=
  Z.lxor (of_bytes (InvMixColumns (InvSubBytes (InvShiftRows (bytes_of data))))) key.
Definition vaesdeclast (key data : Z) : Z :=
  Z.lxor (of_bytes (InvSubBytes (InvShiftRows (bytes_of data)))) key.

(** ** The key schedule

    [struct crypto_aes_ctx { u32 key_enc[60]; u32 key_dec[60]; u32 key_length; }]:
    fifteen 16-byte round-key slots for each direction, at byte offsets 0
    and 240, and the key length in bytes at offset 480.  The routine only
    reads it. *)

Record crypto_aes_ctx := {
  key_enc : list Z;
  key_dec : list Z;
  key_length : Z
}.

(* A 16-byte load at byte offset [off] of the context. *)
Definition ctx_load128 (ctx : crypto_aes_ctx) (off : Z) : Z :=
  if off <? 240 then nth (Z.to_nat (off / 16)) (key_enc ctx) 0
  else nth (Z.to_nat ((off - 240) / 16)) (key_dec ctx) 0.

(** ** Register state of the routine *)

(** The registers the tweak computation of the main loop works on. *)
Record tweak_regs := {
  TWEAK0 : vec; TWEAK1 : vec; TWEAK2 : vec; TWEAK3 : vec;
  NEXT_TWEAK0 : vec; NEXT_TWEAK1 : vec; NEXT_TWEAK2 : vec; NEXT_TWEAK3 : vec;
  V5 : vec
}.

Definition set_V5 (v : vec) (r : tweak_regs) : tweak_regs :=
  {| TWEAK0 := TWEAK0 r; TWEAK1 := TWEAK1 r; TWEAK2 := TWEAK2 r; TWEAK3 := TWEAK3 r;
     NEXT_TWEAK0 := NEXT_TWEAK0 r; NEXT_TWEAK1 := NEXT_TWEAK1 r;
     NEXT_TWEAK2 := NEXT_TWEAK2 r; NEXT_TWEAK3 := NEXT_TWEAK3 r; V5 := v |}.
Definition set_NEXT_TWEAK (k : Z) (v : vec) (r : tweak_regs) : tweak_regs :=
  {| TWEAK0 := TWEAK0 r; TWEAK1 := TWEAK1 r; TWEAK2 := TWEAK2 r; TWEAK3 := TWEAK3 r;
     NEXT_TWEAK0 := if k =? 0 then v else NEXT_TWEAK0 r;
     NEXT_TWEAK1 := if k =? 1 then v else NEXT_TWEAK1 r;
     NEXT_TWEAK2 := if k =? 2 then v else NEXT_TWEAK2 r;
     NEXT_TWEAK3 := if k =? 3 then v else NEXT_TWEAK3 r; V5 := V5 r |}.
Definition get_NEXT_TWEAK (k : Z) (r : tweak_regs) : vec :=
  if k =? 0 then NEXT_TWEAK0 r else if k =? 1 then NEXT_TWEAK1 r
  else if k =? 2 then NEXT_TWEAK2 r else NEXT_TWEAK3 r.
Definition set_TWEAKS (t0 t1 t2 t3 : vec) (r : tweak_regs) : tweak_regs :=
  {| TWEAK0 := t0; TWEAK1 := t1; TWEAK2 := t2; TWEAK3 := t3;
     NEXT_TWEAK0 := NEXT_TWEAK0 r; NEXT_TWEAK1 := NEXT_TWEAK1 r;
     NEXT_TWEAK2 := NEXT_TWEAK2 r; NEXT_TWEAK3 := NEXT_TWEAK3 r; V5 := V5 r |}.

(** ** Assembly macros *)

Section Variant.

(* The two parameters every entry point is assembled with. *)
Variable VL : Z.
Variable USE_AVX10 : bool.

(* _vbroadcast128 *)
Definition _vbroadcast128 (x : Z) : vec := repeat x (nlanes VL).

(* _vpxor *)
Definition _vpxor (src1 src2 : vec) : vec := vop2 vpxor src1 src2.

(* _xor3 src1, src2, src3_and_dst *)
Definition _xor3 (src1 src2 src3_and_dst : vec) : vec :=
  if USE_AVX10 then vop3 (vpternlogd 0x96) src1 src2 src3_and_dst
  else
    let src3_and_dst := vop2 vpxor src1 src3_and_dst in
    vop2 vpxor src2 src3_and_dst.

(* _next_tweak src, tmp, dst (on xmm registers) *)
Definition _next_tweak (src : Z) : Z :=
  let tmp := vpshufd 0x13 src in
  let dst := vpaddq src src in
  let tmp := vpsrad 31 tmp in
  let tmp := vpand gf_poly tmp in
  vpxor tmp dst.

(* _next_tweakvec src, tmp1, tmp2, dst *)
Definition _next_tweakvec (src : vec) : vec :=
  if VL =? 16 then vop1 _next_tweak src
  else
    let GF_POLY := _vbroadcast128 gf_poly in
    let tmp1 := vop1 (vpsrlq (64 - VL / 16)) src in
    let tmp2 := vop2 (vpclmulqdq 0x01) GF_POLY tmp1 in
    let tmp1 := vop1 (vpslldq 8) tmp1 in
    let dst := vop1 (vpsllq (VL / 16)) src in
    _xor3 tmp1 tmp2 dst.

(* _compute_first_set_of_tweaks: from the tweak loaded from (TWEAK). *)
Definition _compute_first_set_of_tweaks (TWEAK0_XMM : Z) : tweak_regs :=
  let GF_POLY := _vbroadcast128 gf_poly in
  if VL =? 16 then
    let TWEAK0 := of_xmm TWEAK0_XMM in
    let TWEAK1 := vop1 _next_tweak TWEAK0 in
    let TWEAK2 := vop1 _next_tweak TWEAK1 in
    let TWEAK3 := vop1 _next_tweak TWEAK2 in
    {| TWEAK0 := TWEAK0; TWEAK1 := TWEAK1; TWEAK2 := TWEAK2; TWEAK3 := TWEAK3;
       NEXT_TWEAK0 := []; NEXT_TWEAK1 := []; NEXT_TWEAK2 := []; NEXT_TWEAK3 := [];
       V5 := [] |}
  else
    let TWEAK0 :=
      if VL =? 32 then
        let xmm1 := _next_tweak TWEAK0_XMM in
        [TWEAK0_XMM; xmm1]
      else if VL =? 64 then
        let xmm1 := _next_tweak TWEAK0_XMM in
        let xmm2 := _next_tweak xmm1 in
        let xmm3 := _next_tweak xmm2 in
        [TWEAK0_XMM; xmm1; xmm2; xmm3]
      else of_xmm TWEAK0_XMM in
    let V0 := vop1 (vpsrlq (64 - 1 * VL / 16)) TWEAK0 in
    let V2 := vop1 (vpsrlq (64 - 2 * VL / 16)) TWEAK0 in
    let V4 := vop1 (vpsrlq (64 - 3 * VL / 16)) TWEAK0 in
    let V1 := vop2 (vpclmulqdq 0x01) GF_POLY V0 in
    let V3 := vop2 (vpclmulqdq 0x01) GF_POLY V2 in
    let V5 := vop2 (vpclmulqdq 0x01) GF_POLY V4 in
    let V0 := vop1 (vpslldq 8) V0 in
    let V2 := vop1 (vpslldq 8) V2 in
    let V4 := vop1 (vpslldq 8) V4 in
    let TWEAK1 := vop1 (vpsllq (1 * VL / 16)) TWEAK0 in
    let TWEAK2 := vop1 (vpsllq (2 * VL / 16)) TWEAK0 in
    let TWEAK3 := vop1 (vpsllq (3 * VL / 16)) TWEAK0 in
    let '(TWEAK1, TWEAK2, TWEAK3) :=
      if USE_AVX10 then
        (vop3 (vpternlogd 0x96) V0 V1 TWEAK1,
         vop3 (vpternlogd 0x96) V2 V3 TWEAK2,
         vop3 (vpternlogd 0x96) V4 V5 TWEAK3)
      else
        let TWEAK1 := vop2 vpxor V0 TWEAK1 in
        let TWEAK2 := vop2 vpxor V2 TWEAK2 in
        let TWEAK3 := vop2 vpxor V4 TWEAK3 in
        (vop2 vpxor V1 TWEAK1, vop2 vpxor V3 TWEAK2, vop2 vpxor V5 TWEAK3) in
    {| TWEAK0 := TWEAK0; TWEAK1 := TWEAK1; TWEAK2 := TWEAK2; TWEAK3 := TWEAK3;
       NEXT_TWEAK0 := []; NEXT_TWEAK1 := []; NEXT_TWEAK2 := []; NEXT_TWEAK3 := [];
       V5 := V5 |}.

(* _tweak_step_mulx i.  PREV_TWEAK and NEXT_TWEAK are assembler symbols set
   at i = 0, 5, 10, 15; the steps are expanded in increasing order of i, so
   at step i (below 20) they are those set at 5 * (i / 5). *)
Definition _tweak_step_mulx (i : Z) (r : tweak_regs) : tweak_regs :=
  let PREV_TWEAK :=
    if i <? 5 then TWEAK3 r else if i <? 10 then NEXT_TWEAK0 r
    else if i <? 15 then NEXT_TWEAK1 r else NEXT_TWEAK2 r in
  let NEXT_TWEAK := if i <? 5 then 0 else if i <? 10 then 1 else if i <? 15 then 2 else 3 in
  if (i <? 20) && (i mod 5 =? 0) then set_V5 (vop1 (vpshufd 0x13) PREV_TWEAK) r
  else if (i <? 20) && (i mod 5 =? 1) then
    set_NEXT_TWEAK NEXT_TWEAK (vop2 vpaddq PREV_TWEAK PREV_TWEAK) r
  else if (i <? 20) && (i mod 5 =? 2) then set_V5 (vop1 (vpsrad 31) (V5 r)) r
  else if (i <? 20) && (i mod 5 =? 3) then
    set_V5 (vop2 vpand (_vbroadcast128 gf_poly) (V5 r)) r
  else if (i <? 20) && (i mod 5 =? 4) then
    set_NEXT_TWEAK NEXT_TWEAK (vop2 vpxor (V5 r) (get_NEXT_TWEAK NEXT_TWEAK r)) r
  else if i =? 1000 then
    set_TWEAKS (NEXT_TWEAK0 r) (NEXT_TWEAK1 r) (NEXT_TWEAK2 r) (NEXT_TWEAK3 r) r
  else r.

(* _tweak_step_pclmul i *)
Definition _tweak_step_pclmul (i : Z) (r : tweak_regs) : tweak_regs :=
  let GF_POLY := _vbroadcast128 gf_poly in
  if i =? 2 then set_NEXT_TWEAK 0 (vop1 (vpsrldq ((128 - 4 * VL / 16) / 8)) (TWEAK0 r)) r
  else if i =? 4 then set_NEXT_TWEAK 1 (vop1 (vpsrldq ((128 - 4 * VL / 16) / 8)) (TWEAK1 r)) r
  else if i =? 6 then set_NEXT_TWEAK 2 (vop1 (vpsrldq ((128 - 4 * VL / 16) / 8)) (TWEAK2 r)) r
  else if i =? 8 then set_NEXT_TWEAK 3 (vop1 (vpsrldq ((128 - 4 * VL / 16) / 8)) (TWEAK3 r)) r
  else if i =? 10 then set_NEXT_TWEAK 0 (vop2 (vpclmulqdq 0x00) GF_POLY (NEXT_TWEAK0 r)) r
  else if i =? 12 then set_NEXT_TWEAK 1 (vop2 (vpclmulqdq 0x00) GF_POLY (NEXT_TWEAK1 r)) r
  else if i =? 14 then set_NEXT_TWEAK 2 (vop2 (vpclmulqdq 0x00) GF_POLY (NEXT_TWEAK2 r)) r
  else if i =? 16 then set_NEXT_TWEAK 3 (vop2 (vpclmulqdq 0x00) GF_POLY (NEXT_TWEAK3 r)) r
  else if i =? 1000 then
    let TWEAK0 := vop1 (vpslldq ((4 * VL / 16) / 8)) (TWEAK0 r) in
    let TWEAK1 := vop1 (vpslldq ((4 * VL / 16) / 8)) (TWEAK1 r) in
    let TWEAK2 := vop1 (vpslldq ((4 * VL / 16) / 8)) (TWEAK2 r) in
    let TWEAK3 := vop1 (vpslldq ((4 * VL / 16) / 8)) (TWEAK3 r) in
    set_TWEAKS (_vpxor (NEXT_TWEAK0 r) TWEAK0) (_vpxor (NEXT_TWEAK1 r) TWEAK1)
               (_vpxor (NEXT_TWEAK2 r) TWEAK2) (_vpxor (NEXT_TWEAK3 r) TWEAK3) r
  else r.

(* _tweak_step i *)
Definition _tweak_step (i : Z) (r : tweak_regs) : tweak_regs :=
  if VL =? 16 then _tweak_step_mulx i r else _tweak_step_pclmul i r.

(** *** The cipher core *)

Variable ctx : crypto_aes_ctx.
(* KEY, as a byte offset into the context: 0, or 240 once advanced to the
   decryption round keys. *)
Variable KEY : Z.

(* _load_round_keys: KEY0, and KEY1 to KEY14 if USE_AVX10. *)
Definition _load_round_keys : list vec :=
  _vbroadcast128 (ctx_load128 ctx (KEY + 0 * 16)) ::
  (if USE_AVX10 then
     map (fun i => _vbroadcast128 (ctx_load128 ctx (KEY + i * 16)))
         [1; 2; 3; 4; 5; 6; 7; 8; 9; 10; 11; 12; 13; 14]
   else []).

(* The registers KEY0 .. KEY14 after _load_round_keys. *)
Variable keys : list vec.
Definition KEYi (i : Z) : vec := nth (Z.to_nat i) keys [].

(* _vaes enc, last, key, data *)
Definition _vaes (enc last : bool) (key data : vec) : vec :=
  if enc then
    if last then vop2 vaesenclast key data else vop2 vaesenc key data
  else
    if last then vop2 vaesdeclast key data else vop2 vaesdec key data.

(* _vaes_1x enc, last, i, xmm_suffix, data *)
Definition _vaes_1x (enc last : bool) (i : Z) (xmm_suffix : bool) (data : vec) : vec :=
  if USE_AVX10 then
    _vaes enc last (if xmm_suffix then of_xmm (xmm (KEYi i)) else KEYi i) data
  else if xmm_suffix then
    _vaes enc last (of_xmm (ctx_load128 ctx (KEY + i * 16))) data
  else
    let V4 := _vbroadcast128 (ctx_load128 ctx (KEY + i * 16)) in
    _vaes enc last V4 data.

(* The four data registers of the main loop. *)
Record data_regs := { V0 : vec; V1 : vec; V2 : vec; V3 : vec }.

(* _vaes_4x enc, last, i *)
Definition _vaes_4x (enc last : bool) (i : Z) (d : data_regs) (r : tweak_regs)
  : data_regs * tweak_regs :=
  if USE_AVX10 then
    let r := _tweak_step (2 * (i - 1)) r in
    let V0 := _vaes enc last (KEYi i) (V0 d) in
    let V1 := _vaes enc last (KEYi i) (V1 d) in
    let r := _tweak_step (2 * (i - 1) + 1) r in
    let V2 := _vaes enc last (KEYi i) (V2 d) in
    let V3 := _vaes enc last (KEYi i) (V3 d) in
    ({| V0 := V0; V1 := V1; V2 := V2; V3 := V3 |}, r)
  else
    let V4 := _vbroadcast128 (ctx_load128 ctx (KEY + i * 16)) in
    let r := _tweak_step (2 * (i - 1)) r in
    let V0 := _vaes enc last V4 (V0 d) in
    let V1 := _vaes enc last V4 (V1 d) in
    let r := _tweak_step (2 * (i - 1) + 1) r in
    let V2 := _vaes enc last V4 (V2 d) in
    let V3 := _vaes enc last V4 (V3 d) in
    ({| V0 := V0; V1 := V1; V2 := V2; V3 := V3 |}, r).

(* KEYLEN: the key length loaded from 480(KEY) on entry. *)
Definition KEYLEN : Z := key_length ctx.

(* _aes_crypt enc, xmm_suffix, tweak, data *)
Definition _aes_crypt (enc xmm_suffix : bool) (tweak data : vec) : vec :=
  let KEY0 := if xmm_suffix then of_xmm (xmm (KEYi 0)) else KEYi 0 in
  let data := _xor3 KEY0 tweak data in
  let data := _vaes_1x enc false 1 xmm_suffix data in
  let data := _vaes_1x enc false 2 xmm_suffix data in
  let data := _vaes_1x enc false 3 xmm_suffix data in
  let data := _vaes_1x enc false 4 xmm_suffix data in
  let data := _vaes_1x enc false 5 xmm_suffix data in
  let data := _vaes_1x enc false 6 xmm_suffix data in
  let data := _vaes_1x enc false 7 xmm_suffix data in
  let data := _vaes_1x enc false 8 xmm_suffix data in
  let data := _vaes_1x enc false 9 xmm_suffix data in
  let data :=
    (* cmp $24, KEYLEN; jle .Laes_128_or_192 *)
    if signed 32 KEYLEN <=? 24 then
      (* je .Laes_192 *)
      if KEYLEN =? 24 then
        let data := _vaes_1x enc false 10 xmm_suffix data in
        let data := _vaes_1x enc false 11 xmm_suffix data in
        _vaes_1x enc true 12 xmm_suffix data
      else
        _vaes_1x enc true 10 xmm_suffix data
    else
      let data := _vaes_1x enc false 10 xmm_suffix data in
      let data := _vaes_1x enc false 11 xmm_suffix data in
      let data := _vaes_1x enc false 12 xmm_suffix data in
      let data := _vaes_1x enc false 13 xmm_suffix data in
      _vaes_1x enc true 14 xmm_suffix data in
  _vpxor tweak data.

(* The rounds _aes_crypt goes through for the key length: the arguments
   (last, i) of its _vaes_1x invocations, in the order they execute. *)
Definition _aes_crypt_rounds : list (bool * Z) :=
  [(false, 1); (false, 2); (false, 3); (false, 4); (false, 5); (false, 6); (false, 7);
   (false, 8); (false, 9)] ++
  (* cmp $24, KEYLEN; jle .Laes_128_or_192 *)
  (if signed 32 KEYLEN <=? 24 then
     (* je .Laes_192 *)
     if KEYLEN =? 24 then [(false, 10); (false, 11); (true, 12)]
     else [(true, 10)]
   else [(false, 10); (false, 11); (false, 12); (false, 13); (true, 14)]).

(* _aes_crypt with the sequence of its rounds as an argument: the _xor3 at
   entry, the rounds (last, i) in the order given, the _vpxor at exit. *)
Definition aes_crypt_with_rounds (rounds : list (bool * Z)) (enc xmm_suffix : bool)
    (tweak data : vec) : vec :=
  let KEY0 := if xmm_suffix then of_xmm (xmm (KEYi 0)) else KEYi 0 in
  let data := _xor3 KEY0 tweak data in
  let data := fold_left (fun d p => _vaes_1x enc (fst p) (snd p) xmm_suffix d) rounds data in
  _vpxor tweak data.

(** *** The routine *)

Record state := {
  MEM : mem;     (* the caller's memory *)
  SRC : Z;       (* pointer to next source data *)
  DST : Z;       (* pointer to next destination data *)
  LEN : Z;       (* remaining length in bytes *)
  TW : tweak_regs
}.

Definition set_LEN (l : Z) (st : state) : state :=
  {| MEM := MEM st; SRC := SRC st; DST := DST st; LEN := l; TW := TW st |}.

Variable enc : bool.

(* One pass through .Lmain_loop, up to the final [sub $4*VL, LEN]. *)
Definition main_loop_body (st : state) : state :=
  let m := MEM st in
  let r := TW st in
  let KEY0 := KEYi 0 in
  let d :=
    if USE_AVX10 then
      let V0 := _vmovdqu_load VL m (ea (SRC st) (0 * VL)) in
      let V1 := _vmovdqu_load VL m (ea (SRC st) (1 * VL)) in
      let V2 := _vmovdqu_load VL m (ea (SRC st) (2 * VL)) in
      let V3 := _vmovdqu_load VL m (ea (SRC st) (3 * VL)) in
      {| V0 := vop3 (vpternlogd 0x96) (TWEAK0 r) KEY0 V0;
         V1 := vop3 (vpternlogd 0x96) (TWEAK1 r) KEY0 V1;
         V2 := vop3 (vpternlogd 0x96) (TWEAK2 r) KEY0 V2;
         V3 := vop3 (vpternlogd 0x96) (TWEAK3 r) KEY0 V3 |}
    else
      let V0 := vop2 vpxor (_vmovdqu_load VL m (ea (SRC st) (0 * VL))) KEY0 in
      let V1 := vop2 vpxor (_vmovdqu_load VL m (ea (SRC st) (1 * VL))) KEY0 in
      let V2 := vop2 vpxor (_vmovdqu_load VL m (ea (SRC st) (2 * VL))) KEY0 in
      let V3 := vop2 vpxor (_vmovdqu_load VL m (ea (SRC st) (3 * VL))) KEY0 in
      {| V0 := vop2 vpxor (TWEAK0 r) V0; V1 := vop2 vpxor (TWEAK1 r) V1;
         V2 := vop2 vpxor (TWEAK2 r) V2; V3 := vop2 vpxor (TWEAK3 r) V3 |} in
  let '(d, r) := _vaes_4x enc false 1 d r in
  let '(d, r) := _vaes_4x enc false 2 d r in
  let '(d, r) := _vaes_4x enc false 3 d r in
  let '(d, r) := _vaes_4x enc false 4 d r in
  let '(d, r) := _vaes_4x enc false 5 d r in
  let '(d, r) := _vaes_4x enc false 6 d r in
  let '(d, r) := _vaes_4x enc false 7 d r in
  let '(d, r) := _vaes_4x enc false 8 d r in
  let '(d, r) := _vaes_4x enc false 9 d r in
  let '(d, r) :=
    (* cmp $24, KEYLEN; jle .Lencrypt_4x_aes_128_or_192 *)
    if signed 32 KEYLEN <=? 24 then
      (* jz .Lencrypt_4x_aes_192 *)
      if KEYLEN =? 24 then
        let '(d, r) := _vaes_4x enc false 10 d r in
        let '(d, r) := _vaes_4x enc false 11 d r in
        _vaes_4x enc true 12 d r
      else
        _vaes_4x enc true 10 d r
    else
      let '(d, r) := _vaes_4x enc false 10 d r in
      let '(d, r) := _vaes_4x enc false 11 d r in
      let '(d, r) := _vaes_4x enc false 12 d r in
      let '(d, r) := _vaes_4x enc false 13 d r in
      _vaes_4x enc true 14 d r in
  (* .Lencrypt_4x_done: XOR in the tweaks again. *)
  let V0 := _vpxor (TWEAK0 r) (V0 d) in
  let V1 := _vpxor (TWEAK1 r) (V1 d) in
  let V2 := _vpxor (TWEAK2 r) (V2 d) in
  let V3 := _vpxor (TWEAK3 r) (V3 d) in
  (* Store the destination blocks. *)
  let m := _vmovdqu_store m (ea (DST st) (0 * VL)) V0 in
  let m := _vmovdqu_store m (ea (DST st) (1 * VL)) V1 in
  let m := _vmovdqu_store m (ea (DST st) (2 * VL)) V2 in
  let m := _vmovdqu_store m (ea (DST st) (3 * VL)) V3 in
  (* Finish computing the next set of tweaks. *)
  let r := _tweak_step 1000 r in
  {| MEM := m; SRC := add64 (SRC st) (4 * VL); DST := add64 (DST st) (4 * VL);
     LEN := LEN st; TW := r |}.

(* One pass through .Lmain_loop with the sequence of its _vaes_4x rounds as
   an argument: the XOR at entry, the rounds (last, i) in the order given,
   the XOR at exit, the stores and the last tweak step. *)
Definition main_loop_body_with_rounds (rounds : list (bool * Z)) (st : state) : state :=
  let m := MEM st in
  let r := TW st in
  let KEY0 := KEYi 0 in
  let d :=
    if USE_AVX10 then
      let V0 := _vmovdqu_load VL m (ea (SRC st) (0 * VL)) in
      let V1 := _vmovdqu_load VL m (ea (SRC st) (1 * VL)) in
      let V2 := _vmovdqu_load VL m (ea (SRC st) (2 * VL)) in
      let V3 := _vmovdqu_load VL m (ea (SRC st) (3 * VL)) in
      {| V0 := vop3 (vpternlogd 0x96) (TWEAK0 r) KEY0 V0;
         V1 := vop3 (vpternlogd 0x96) (TWEAK1 r) KEY0 V1;
         V2 := vop3 (vpternlogd 0x96) (TWEAK2 r) KEY0 V2;
         V3 := vop3 (vpternlogd 0x96) (TWEAK3 r) KEY0 V3 |}
    else
      let V0 := vop2 vpxor (_vmovdqu_load VL m (ea (SRC st) (0 * VL))) KEY0 in
      let V1 := vop2 vpxor (_vmovdqu_load VL m (ea (SRC st) (1 * VL))) KEY0 in
      let V2 := vop2 vpxor (_vmovdqu_load VL m (ea (SRC st) (2 * VL))) KEY0 in
      let V3 := vop2 vpxor (_vmovdqu_load VL m (ea (SRC st) (3 * VL))) KEY0 in
      {| V0 := vop2 vpxor (TWEAK0 r) V0; V1 := vop2 vpxor (TWEAK1 r) V1;
         V2 := vop2 vpxor (TWEAK2 r) V2; V3 := vop2 vpxor (TWEAK3 r) V3 |} in
  let '(d, r) :=
    fold_left (fun dr p => _vaes_4x enc (fst p) (snd p) (fst dr) (snd dr)) rounds (d, r) in
  (* .Lencrypt_4x_done: XOR in the tweaks again. *)
  let V0 := _vpxor (TWEAK0 r) (V0 d) in
  let V1 := _vpxor (TWEAK1 r) (V1 d) in
  let V2 := _vpxor (TWEAK2 r) (V2 d) in
  let V3 := _vpxor (TWEAK3 r) (V3 d) in
  (* Store the destination blocks. *)
  let m := _vmovdqu_store m (ea (DST st) (0 * VL)) V0 in
  let m := _vmovdqu_store m (ea (DST st) (1 * VL)) V1 in
  let m := _vmovdqu_store m (ea (DST st) (2 * VL)) V2 in
  let m := _vmovdqu_store m (ea (DST st) (3 * VL)) V3 in
  (* Finish computing the next set of tweaks. *)
  let r := _tweak_step 1000 r in
  {| MEM := m; SRC := add64 (SRC st) (4 * VL); DST := add64 (DST st) (4 * VL);
     LEN := LEN st; TW := r |}.

(* .Lmain_loop: [sub $4*VL, LEN; jge .Lmain_loop] closes each pass. *)
Fixpoint main_loop (fuel : nat) (st : state) : option state :=
  match fuel with
  | O => None
  | S fuel' =>
      let st := main_loop_body st in
      let st' := set_LEN (sub64 (LEN st) (4 * VL)) st in
      if jl_sub (LEN st) (4 * VL) then Some st' else main_loop fuel' st'
  end.

(* One pass through .Lvec_at_a_time, up to the final [sub $VL, LEN]. *)
Definition vec_at_a_time_body (st : state) : state :=
  let r := TW st in
  let V0 := _vmovdqu_load VL (MEM st) (SRC st) in
  let V0 := _aes_crypt enc false (TWEAK0 r) V0 in
  let m := _vmovdqu_store (MEM st) (DST st) V0 in
  let TWEAK0 := _next_tweakvec (TWEAK0 r) in
  {| MEM := m; SRC := add64 (SRC st) VL; DST := add64 (DST st) VL; LEN := LEN st;
     TW := set_TWEAKS TWEAK0 (TWEAK1 r) (TWEAK2 r) (TWEAK3 r) r |}.

Fixpoint vec_at_a_time (fuel : nat) (st : state) : option state :=
  match fuel with
  | O => None
  | S fuel' =>
      let st := vec_at_a_time_body st in
      let st' := set_LEN (sub64 (LEN st) VL) st in
      if jl_sub (LEN st) VL then Some st' else vec_at_a_time fuel' st'
  end.

(* One pass through .Lblock_at_a_time, up to the final [sub $16, LEN]. *)
Definition block_at_a_time_body (st : state) : state :=
  let r := TW st in
  let TWEAK0_XMM := xmm (TWEAK0 r) in
  let xmm0 := load128 (MEM st) (SRC st) in
  let xmm0 := xmm (_aes_crypt enc true (of_xmm TWEAK0_XMM) (of_xmm xmm0)) in
  let m := store128 (MEM st) (DST st) xmm0 in
  let TWEAK0_XMM := _next_tweak TWEAK0_XMM in
  {| MEM := m; SRC := add64 (SRC st) 16; DST := add64 (DST st) 16; LEN := LEN st;
     TW := set_TWEAKS (of_xmm TWEAK0_XMM) (TWEAK1 r) (TWEAK2 r) (TWEAK3 r) r |}.

Fixpoint block_at_a_time (fuel : nat) (st : state) : option state :=
  match fuel with
  | O => None
  | S fuel' =>
      let st := block_at_a_time_body st in
      let st' := set_LEN (sub64 (LEN st) 16) st in
      if jl_sub (LEN st) 16 then Some st' else block_at_a_time fuel' st'
  end.

(* .Lcts: ciphertext stealing on the last full block and the partial block,
   up to the final [jmp .Ldone]. *)
Definition cts (st : state) : state :=
  let m := MEM st in
  let r := TW st in
  let TWEAK0_XMM := xmm (TWEAK0 r) in
  let TWEAK1_XMM := _next_tweak TWEAK0_XMM in
  let CTS_TWEAK0 := if enc then TWEAK0_XMM else TWEAK1_XMM in
  let CTS_TWEAK1 := if enc then TWEAK1_XMM else TWEAK0_XMM in
  (* En/decrypt the last full block. *)
  let xmm0 := load128 m (SRC st) in
  let xmm0 := xmm (_aes_crypt enc true (of_xmm CTS_TWEAK0) (of_xmm xmm0)) in
  let '(xmm0, m) :=
    if USE_AVX10 then
      let rax := mask 64 (-1) in
      let rax := bzhi (LEN st) rax in
      let k1 := rax in
      let xmm1 := xmm0 in
      let xmm0 := vmovdqu8_load_k m (ea (SRC st) 16) k1 xmm0 in
      let m := vmovdqu8_store_k m (ea (DST st) 16) k1 xmm1 in
      (xmm0, m)
    else
      (* %rax: byte offset into .Lcts_permute_table *)
      let rax := 0 in
      let xmm1 := load128 m (ea (SRC st) (LEN st)) in
      let xmm2 := vpshufb (load_cts_table (rax + LEN st)) xmm0 in
      let m := store128 m (ea (DST st) (LEN st)) xmm2 in
      let rax := rax - LEN st in
      let xmm3 := load_cts_table (rax + 32) in
      let xmm1 := vpshufb xmm3 xmm1 in
      let xmm0 := vpblendvb xmm3 xmm0 xmm1 in
      (xmm0, m) in
  (* En/decrypt again and store the last full block. *)
  let xmm0 := xmm (_aes_crypt enc true (of_xmm CTS_TWEAK1) (of_xmm xmm0)) in
  let m := store128 m (DST st) xmm0 in
  {| MEM := m; SRC := SRC st; DST := DST st; LEN := LEN st;
     TW := set_TWEAKS (TWEAK0 r) (of_xmm TWEAK1_XMM) (TWEAK2 r) (TWEAK3 r) r |}.

(* .Ldone: store the next tweak back to *TWEAK. *)
Definition Ldone (TWEAK : Z) (st : state) : mem :=
  store128 (MEM st) TWEAK (xmm (TWEAK0 (TW st))).

(* .Lhandle_remainder, through .Lfull_blocks_done, to .Ldone. *)
Definition handle_remainder (fuel : nat) (TWEAK : Z) (st : state) : option mem :=
  let st := set_LEN (add64 (LEN st) (4 * VL)) st in
  let r :=
    if 16 <? VL then
      (* sub $VL, LEN; jl .Lvec_at_a_time_done *)
      let st' := set_LEN (sub64 (LEN st) VL) st in
      match (if jl_sub (LEN st) VL then Some st' else vec_at_a_time fuel st') with
      | None => None
      | Some st =>
          (* .Lvec_at_a_time_done: add $VL-16, LEN *)
          Some (jl_add (LEN st) (VL - 16), set_LEN (add64 (LEN st) (VL - 16)) st)
      end
    else
      (* sub $16, LEN *)
      Some (jl_sub (LEN st) 16, set_LEN (sub64 (LEN st) 16) st) in
  match r with
  | None => None
  | Some (lt, st) =>
      (* jl .Lblock_at_a_time_done *)
      match (if lt then Some st else block_at_a_time fuel st) with
      | None => None
      | Some st =>
          (* .Lblock_at_a_time_done: add $16, LEN *)
          let st := set_LEN (add64 (LEN st) 16) st in
          (* .Lfull_blocks_done: test LEN, LEN; jnz .Lcts; jmp .Ldone *)
          if jnz_test (LEN st) (LEN st) then Some (Ldone TWEAK (cts st))
          else Some (Ldone TWEAK st)
      end
  end.

End Variant.

(* _aes_xts_crypt enc, as called with (key, src, dst, len, tweak) in
   (%rdi, %rsi, %rdx, %rcx, %r8) and the caller's memory.  Every loop
   consumes at least 16 bytes of [len] per pass, which bounds the number of
   passes. *)
Definition _aes_xts_crypt (VL : Z) (USE_AVX10 : bool) (enc : bool)
    (ctx : crypto_aes_ctx) (src dst len tweak : Z) (m : mem) : option mem :=
  let fuel := S (Z.to_nat (len / 16)) in
  (* If decrypting, advance KEY to the decryption round keys. *)
  let KEY := if enc then 0 else 240 in
  (* test $15, LEN; jnz .Lneed_cts *)
  let LEN0 := if jnz_test len 15 then sub64 len 16 else len in
  (* .Lxts_init *)
  let keys := _load_round_keys VL USE_AVX10 ctx KEY in
  let r := _compute_first_set_of_tweaks VL USE_AVX10 (load128 m tweak) in
  (* sub $4*VL, LEN; jl .Lhandle_remainder *)
  let st := {| MEM := m; SRC := src; DST := dst; LEN := sub64 LEN0 (4 * VL); TW := r |} in
  if jl_sub LEN0 (4 * VL) then
    handle_remainder VL USE_AVX10 ctx KEY keys enc fuel tweak st
  else
    match main_loop VL USE_AVX10 ctx KEY keys enc fuel st with
    | None => None
    | Some st =>
        (* test $4*VL-1, LEN; jnz .Lhandle_remainder *)
        if jnz_test (LEN st) (4 * VL - 1) then
          handle_remainder VL USE_AVX10 ctx KEY keys enc fuel tweak st
        else Some (Ldone tweak st)
    end.

(* aes_xts_encrypt_iv(tweak_key, iv): the tweak key in %rdi, iv in %rsi. *)
Definition aes_xts_encrypt_iv (tweak_key : crypto_aes_ctx) (iv : Z) (m : mem) : mem :=
  let xmm0 := load128 m iv in
  let xmm0 := vpxor (ctx_load128 tweak_key (0 * 16)) xmm0 in
  let xmm0 := vaesenc (ctx_load128 tweak_key (1 * 16)) xmm0 in
  let xmm0 := vaesenc (ctx_load128 tweak_key (2 * 16)) xmm0 in
  let xmm0 := vaesenc (ctx_load128 tweak_key (3 * 16)) xmm0 in
  let xmm0 := vaesenc (ctx_load128 tweak_key (4 * 16)) xmm0 in
  let xmm0 := vaesenc (ctx_load128 tweak_key (5 * 16)) xmm0 in
  let xmm0 := vaesenc (ctx_load128 tweak_key (6 * 16)) xmm0 in
  let xmm0 := vaesenc (ctx_load128 tweak_key (7 * 16)) xmm0 in
  let xmm0 := vaesenc (ctx_load128 tweak_key (8 * 16)) xmm0 in
  let xmm0 := vaesenc (ctx_load128 tweak_key (9 * 16)) xmm0 in
  let xmm0 :=
    (* cmpl $24, 480(%rdi); jle .Lencrypt_iv_aes_128_or_192 *)
    if signed 32 (key_length tweak_key) <=? 24 then
      (* jz .Lencrypt_iv_aes_192 *)
      if key_length tweak_key =? 24 then
        let xmm0 := vaesenc (ctx_load128 tweak_key (10 * 16)) xmm0 in
        let xmm0 := vaesenc (ctx_load128 tweak_key (11 * 16)) xmm0 in
        vaesenclast (ctx_load128 tweak_key (12 * 16)) xmm0
      else
        vaesenclast (ctx_load128 tweak_key (10 * 16)) xmm0
    else
      let xmm0 := vaesenc (ctx_load128 tweak_key (10 * 16)) xmm0 in
      let xmm0 := vaesenc (ctx_load128 tweak_key (11 * 16)) xmm0 in
      let xmm0 := vaesenc (ctx_load128 tweak_key (12 * 16)) xmm0 in
      let xmm0 := vaesenc (ctx_load128 tweak_key (13 * 16)) xmm0 in
      vaesenclast (ctx_load128 tweak_key (14 * 16)) xmm0 in
  store128 m iv xmm0.

(** The entry points. *)
Definition aes_xts_encrypt_aesni_avx := _aes_xts_crypt 16 false true.
Definition aes_xts_decrypt_aesni_avx := _aes_xts_crypt 16 false false.
Definition aes_xts_encrypt_vaes_avx2 := _aes_xts_crypt 32 false true.
Definition aes_xts_decrypt_vaes_avx2 := _aes_xts_crypt 32 false false.
Definition aes_xts_encrypt_vaes_avx10_256 := _aes_xts_crypt 32 true true.
Definition aes_xts_decrypt_vaes_avx10_256 := _aes_xts_crypt 32 true false.
Definition aes_xts_encrypt_vaes_avx10_512 := _aes_xts_crypt 64 true true.
Definition aes_xts_decrypt_vaes_avx10_512 := _aes_xts_crypt 64 true false.

(** ** Reference definitions *)

(* Multiplication by x in GF(2^128), in the words of the specification:
   shift left by one bit across the 128-bit value; if a 1 was carried out
   of the top, XOR 0x87 into the low byte. *)
Definition gf_mulx (t : Z) : Z :=
  Z.lxor (mask 128 (Z.shiftl t 1)) (if Z.testbit t 127 then 0x87 else 0).

(* n sequential single-tweak steps. *)
Definition next_tweak_iter (n : nat) (t : Z) : Z := Nat.iter n _next_tweak t.

(* The product of a polynomial h by x^7 + x^2 + x + 1, and the closed form
   of t * x^n in GF(2^128) for n <= 121. *)
Definition clmul87 (h : Z) : Z :=
  Z.lxor (Z.lxor h (Z.shiftl h 1)) (Z.lxor (Z.shiftl h 2) (Z.shiftl h 7)).
Definition gf_mulxn (n t : Z) : Z :=
  Z.lxor (mask 128 (Z.shiftl t n)) (clmul87 (Z.shiftr t (128 - n))).

(* A lane is a 128-bit value; a byte memory holds bytes. *)
Definition lane_ok (x : Z) : Prop := 0 <= x < 2 ^ 128.
Definition lanes_ok (v : vec) : Prop := Forall lane_ok v.

(* The tweaks t*x^k, t*x^(k+1), ... of the lanes of one vector register. *)
Definition tweak_vec (nl k : nat) (t : Z) : vec :=
  map (fun l => Nat.iter (k + l) gf_mulx t) (seq 0 nl).

(* TWEAK0 to TWEAK3 hold the tweaks of 4*VL/16 consecutive blocks, from
   block k on. *)
Definition tweaks_at (VL : Z) (k : nat) (t : Z) (r : tweak_regs) : Prop :=
  TWEAK0 r = tweak_vec (nlanes VL) k t /\
  TWEAK1 r = tweak_vec (nlanes VL) (k + nlanes VL) t /\
  TWEAK2 r = tweak_vec (nlanes VL) (k + 2 * nlanes VL) t /\
  TWEAK3 r = tweak_vec (nlanes VL) (k + 3 * nlanes VL) t.

Definition VL_ok (VL : Z) : Prop := VL = 16 \/ VL = 32 \/ VL = 64.

(* The tweak steps of one pass of the main loop, in order. *)
Definition run_tweak_steps (VL : Z) (steps : list Z) (r : tweak_regs) : tweak_regs :=
  fold_left (fun r i => _tweak_step VL i r) steps r.

Definition steps20 : list Z :=
  [0; 1; 2; 3; 4; 5; 6; 7; 8; 9; 10; 11; 12; 13; 14; 15; 16; 17; 18; 19].

(* The five instructions of one group of _tweak_step_mulx, and the three of
   one register of _tweak_step_pclmul, on a vector. *)
Definition mulx_tmp (v : vec) : vec :=
  vop2 vpand (_vbroadcast128 16 gf_poly) (vop1 (vpsrad 31) (vop1 (vpshufd 0x13) v)).
Definition mulx_vec (v : vec) : vec := vop2 vpxor (mulx_tmp v) (vop2 vpaddq v v).
Definition pclmul_vec (VL : Z) (v : vec) : vec :=
  _vpxor (vop2 (vpclmulqdq 0x00) (_vbroadcast128 VL gf_poly)
                (vop1 (vpsrldq ((128 - 4 * VL / 16) / 8)) v))
         (vop1 (vpslldq ((4 * VL / 16) / 8)) v).

(** ** The block cipher and the XTS block function, as the specification
    states them *)

(* The number of rounds for a key length in bytes: 10, 12 or 14. *)
Definition Nr (keylen : Z) : nat :=
  if keylen =? 16 then 10%nat else if keylen =? 24 then 12%nat else 14%nat.

(* Round key i of the schedule of one direction. *)
Definition round_key (ctx : crypto_aes_ctx) (enc : bool) (i : Z) : Z :=
  ctx_load128 ctx ((if enc then 0 else 240) + i * 16).

Definition aes_round (enc last : bool) (key data : Z) : Z :=
  if enc then (if last then vaesenclast key data else vaesenc key data)
  else (if last then vaesdeclast key data else vaesdec key data).

(* Nr - 1 full rounds, then the last round. *)
Definition Rounds (enc : bool) (ctx : crypto_aes_ctx) (s : Z) : Z :=
  let nr := Nr (key_length ctx) in
  let s := fold_left (fun s i => aes_round enc false (round_key ctx enc i) s)
                     (map Z.of_nat (seq 1 (nr - 1))) s in
  aes_round enc true (round_key ctx enc (Z.of_nat nr)) s.

(* The plain cipher: add round key 0, then the rounds. *)
Definition Cipher (enc : bool) (ctx : crypto_aes_ctx) (b : Z) : Z :=
  Rounds enc ctx (Z.lxor b (round_key ctx enc 0)).

(* The tweaked cipher of XTS: Cipher(B xor T) xor T. *)
Definition xts_block (enc : bool) (ctx : crypto_aes_ctx) (t b : Z) : Z :=
  Z.lxor (Cipher enc ctx (Z.lxor b t)) t.

Definition keylen_ok (ctx : crypto_aes_ctx) : Prop :=
  key_length ctx = 16 \/ key_length ctx = 24 \/ key_length ctx = 32.

(* Every round-key slot of the context holds 16 bytes. *)
Definition ctx_ok (ctx : crypto_aes_ctx) : Prop :=
  lanes_ok (key_enc ctx) /\ lanes_ok (key_dec ctx).

Definition KEY_of (enc : bool) : Z := if enc then 0 else 240.

(** ** Memory contents *)

Definition byte_ok (b : Z) : Prop := 0 <= b < 256.
Definition mem_ok (m : mem) : Prop := forall a, byte_ok (m a).
Definition mem_eq (m m' : mem) : Prop := forall a, m a = m' a.

(* The two buffers are the same or do not overlap. *)
Definition buffers_ok (src dst len : Z) : Prop :=
  dst = src \/ dst + len <= src \/ src + len <= dst.

(* The XTS image of block j of the source. *)
Definition xts_blk (enc : bool) (ctx : crypto_aes_ctx) (t : Z) (m : mem) (src : Z) (j : nat) : Z :=
  xts_block enc ctx (Nat.iter j gf_mulx t) (load128 m (src + 16 * Z.of_nat j)).

(* The memory once the first k blocks of the source are en/decrypted to
   the destination. *)
Definition blocks_mem (enc : bool) (ctx : crypto_aes_ctx) (t : Z) (m : mem)
    (src dst : Z) (k : nat) : mem :=
  fun a => if (dst <=? a) && (a <? dst + 16 * Z.of_nat k)
           then byte ((a - dst) mod 16) (xts_blk enc ctx t m src (Z.to_nat ((a - dst) / 16)))
           else m a.

(* An AES state: 16 bytes. *)
Definition state_ok (s : list Z) : Prop := length s = 16%nat /\ Forall byte_ok s.

(* The state of the routine once the first k blocks are processed. *)
Definition processed (enc : bool) (ctx : crypto_aes_ctx) (t : Z) (m0 : mem) (src dst : Z)
    (k : nat) (st : state) : Prop :=
  SRC st = src + 16 * Z.of_nat k /\
  DST st = dst + 16 * Z.of_nat k /\
  mem_eq (MEM st) (blocks_mem enc ctx t m0 src dst k).

(* The tweaked cipher on the lanes of a vector of tweaks and of data. *)
Definition crypt_lanes (enc : bool) (ctx : crypto_aes_ctx) (tw v : vec) : vec :=
  map (fun p => xts_block enc ctx (fst p) (snd p)) (combine tw v).

(* The shape the three loops of the routine share: a pass, then
   [sub $step, LEN; jge]. *)
Fixpoint do_while (step : Z) (body : state -> state) (fuel : nat) (st : state) : option state :=
  match fuel with
  | O => None
  | S fuel' =>
      let st := body st in
      let st' := set_LEN (sub64 (LEN st) step) st in
      if jl_sub (LEN st) step then Some st' else do_while step body fuel' st'
  end.

(** ** Ciphertext stealing, as the specification states it

    q full blocks precede the last full block; r bytes follow it. *)

(* The image of the last full block under the first of the two tweaks:
   t*x^q to encrypt, t*x^(q+1) to decrypt. *)
Definition cts_first (enc : bool) (ctx : crypto_aes_ctx) (t : Z) (m : mem) (src : Z)
    (q : nat) : Z :=
  xts_block enc ctx (Nat.iter (if enc then q else S q) gf_mulx t)
            (load128 m (src + 16 * Z.of_nat q)).

(* The r bytes of the partial block, followed by the bytes r..15 of the
   image of the last full block. *)
Definition cts_merged (enc : bool) (ctx : crypto_aes_ctx) (t : Z) (m : mem) (src : Z)
    (q : nat) (r : Z) : Z :=
  of_bytes (map (fun i => if i <? r then m (src + 16 * Z.of_nat q + 16 + i)
                          else byte i (cts_first enc ctx t m src q))
                (zseq 16)).

(* The image of the merged block under the second tweak. *)
Definition cts_last (enc : bool) (ctx : crypto_aes_ctx) (t : Z) (m : mem) (src : Z)
    (q : nat) (r : Z) : Z :=
  xts_block enc ctx (Nat.iter (if enc then S q else q) gf_mulx t)
            (cts_merged enc ctx t m src q r).

(* The memory after the q blocks and the ciphertext stealing. *)
Definition cts_mem (enc : bool) (ctx : crypto_aes_ctx) (t : Z) (m : mem) (src dst : Z)
    (q : nat) (r : Z) : mem :=
  fun a =>
    let d := dst + 16 * Z.of_nat q in
    if (d <=? a) && (a <? d + 16) then byte (a - d) (cts_last enc ctx t m src q r)
    else if (d + 16 <=? a) && (a <? d + 16 + r)
         then byte (a - (d + 16)) (cts_first enc ctx t m src q)
    else blocks_mem enc ctx t m src dst q a.

(** ** XTS on a buffer, as the specification states it *)

(* The memory after a call on len bytes under the tweak t. *)
Definition xts_mem (enc : bool) (ctx : crypto_aes_ctx) (t : Z) (m : mem)
    (src dst len : Z) : mem :=
  if len mod 16 =? 0 then blocks_mem enc ctx t m src dst (Z.to_nat (len / 16))
  else cts_mem enc ctx t m src dst (Z.to_nat (len / 16 - 1)) (len mod 16).

(* The value the routine leaves in TWEAK0_XMM. *)
Definition xts_tweak_out (t len : Z) : Z :=
  Nat.iter (Z.to_nat (if len mod 16 =? 0 then len / 16 else len / 16 - 1)) gf_mulx t.

(* The memory a call returns: the data, then the tweak stored at .Ldone. *)
Definition xts_result (enc : bool) (ctx : crypto_aes_ctx) (src dst len tweak : Z)
    (m : mem) : mem :=
  let t := load128 m tweak in
  store128 (xts_mem enc ctx t m src dst len) tweak (xts_tweak_out t len).

(** ** Valid key schedules

    The routine is handed an expanded key.  Its decryption schedule is the
    one of the AES equivalent inverse cipher: the encryption round keys in
    reverse order, with InvMixColumns applied to all but the first and the
    last. *)

Definition InvMixColumns_key (k : Z) : Z := of_bytes (InvMixColumns (bytes_of k)).

Definition lane_okb (x : Z) : bool := (0 <=? x) && (x <? 2 ^ 128).

Definition dec_schedule_okb (ctx : crypto_aes_ctx) : bool :=
  let nr := Nr (key_length ctx) in
  (nth 0 (key_dec ctx) 0 =? nth nr (key_enc ctx) 0) &&
  (nth nr (key_dec ctx) 0 =? nth 0 (key_enc ctx) 0) &&
  forallb (fun i => nth i (key_dec ctx) 0 =? InvMixColumns_key (nth (nr - i) (key_enc ctx) 0))
          (seq 1 (nr - 1)).

Definition keylen_okb (ctx : crypto_aes_ctx) : bool :=
  (key_length ctx =? 16) || (key_length ctx =? 24) || (key_length ctx =? 32).

Definition valid_key_scheduleb (ctx : crypto_aes_ctx) : bool :=
  keylen_okb ctx && forallb lane_okb (key_enc ctx) && forallb lane_okb (key_dec ctx) &&
  dec_schedule_okb ctx.

Definition valid_key_schedule (ctx : crypto_aes_ctx) : Prop :=
  valid_key_scheduleb ctx = true.

(* XOR of two states, byte by byte. *)
Definition xor_state (a b : list Z) : list Z :=
  map (fun p => Z.lxor (fst p) (snd p)) (combine a b).

(* SubBytes and ShiftRows of a lane. *)
Definition sub_shift (s : Z) : Z := of_bytes (SubBytes (ShiftRows (bytes_of s))).

(* InvShiftRows and InvSubBytes of a lane. *)
Definition inv_sub_shift (s : Z) : Z := of_bytes (InvSubBytes (InvShiftRows (bytes_of s))).

(* Byte i of the output of a call on len bytes, counted from the start of
   the destination. *)
Definition xts_out_byte (enc : bool) (ctx : crypto_aes_ctx) (t : Z) (m : mem)
    (src len i : Z) : Z :=
  let q := len / 16 - 1 in
  if (len mod 16 =? 0) || (i <? 16 * q)
  then byte (i mod 16) (xts_blk enc ctx t m src (Z.to_nat (i / 16)))
  else if i <? 16 * q + 16
       then byte (i - 16 * q) (cts_last enc ctx t m src (Z.to_nat q) (len mod 16))
       else byte (i - 16 * q - 16) (cts_first enc ctx t m src (Z.to_nat q)).

(* The non-final rounds after round 9 among the rounds of _aes_crypt. *)
Definition extra_rounds (rounds : list (bool * Z)) : list (bool * Z) :=
  filter (fun p => negb (fst p) && (9 <? snd p)) rounds.

(** ** Sample inputs

    The expanded keys of the example vectors of FIPS 197, appendix C, and a
    memory whose byte at address a is a mod 256. *)

Definition fips197_ctx128 : crypto_aes_ctx :=
  {| key_enc :=
    [0x0f0e0d0c0b0a09080706050403020100;
     0xfe76abd6f178a6dafa72afd2fd74aad6;
     0xfeb3306800c59bbef1bd3d640bcf92b6;
     0x41bf6904bf0c596cbfc9c2d24e74ffb6;
     0xfd8d05fdbc326cf9033e3595bcf7f747;
     0xaa22f6ad57aff350eb9d9fa9e8a3aa3c;
     0x6b1fa30ac13d55a79692a6f77d0f395e;
     0x26c0a94e4ddf0a448ce25fe31a70f914;
     0xd27abfaef4ba16e0b9651ca435874347;
     0x4e972cbe9ced9310685785f0d1329954;
     0xc5302b4d8ba707f3174a94e37f1d1113;
     0x00000000000000000000000000000000;
     0x00000000000000000000000000000000;
     0x00000000000000000000000000000000;
     0x00000000000000000000000000000000];
     key_dec :=
    [0xc5302b4d8ba707f3174a94e37f1d1113;
     0x03bff70080f570f7f6af8f9cbe29aa13;
     0x834a87f7765aff6b4886258f63a46213;
     0xf510789c3edcdae42b22479c74fc828d;
     0xcbcca27815fe9d785fdec5118d09e372;
     0xde323f004a205869d2d726632710c42e;
     0x9412676998f77e0af5c7e24d04f5a2a8;
     0x0ce519636d309c47f13240e591e3c6c7;
     0x61d585249c02dca260d186229902dba0;
     0xfdd75986fcd35a80f9d35d82f0df568c;
     0x0f0e0d0c0b0a09080706050403020100;
     0x00000000000000000000000000000000;
     0x00000000000000000000000000000000;
     0x00000000000000000000000000000000;
     0x00000000000000000000000000000000];
     key_length := 16 |}.

Definition fips197_ctx192 : crypto_aes_ctx :=
  {| key_enc :=
    [0x0f0e0d0c0b0a09080706050403020100;
     0xfef4435cf9f246581716151413121110;
     0xfef4435ce9e25648faf04758f5fe4a54;
     0x42b3b710b843f0484dbdba1cb349f940;
     0x0c08456241b5ff7e55a5a204ab51e158;
     0x080c41665da9e362f6f8023ab44bb52a;
     0x3c3ef387cac6f1bd7e8d4497728501f5;
     0xe0f151a39e7c1534699b5183619710e5;
     0x1e0512ff779e437c160953992a37a01e;
     0x54c1dcf942c88f6068ff2f7e880e7edd;
     0x3ad6efbe5229c0c03d5a8d7a235f9f85;
     0x32daaed80f8023a22cdfbc27781e60de;
     0x5d1da4e371c218c409dc781a330a97a4;
     0x00000000000000000000000000000000;
     0x00000000000000000000000000000000];
     key_dec :=
    [0x5d1da4e371c218c409dc781a330a97a4;
     0xb91b023e8073b04d49ea09c20dbdbed6;
     0x728cc6859dd8f9c73968b273c999b98f;
     0x4457b7147f317853ef543f42c16e7df7;
     0xf0f10bfc8dce0e9b3b66cf4790654711;
     0x2e3a42b54a195ccc7d3f0567b6a8c1dc;
     0xab038856be5f05a464231e79abb0dec6;
     0xcb97c4bb1dab498a155c8df2da7c1bdd;
     0xcf93c0bf01b75596d63c8d3108f7c478;
     0xcf20962f15efdb62ce24952910efdc60;
     0xdecb4949c7d75257dacf4d4ddbcb4e4b;
     0xdecb4949d7c74247191c1b1e1d181f1a;
     0x0f0e0d0c0b0a09080706050403020100;
     0x00000000000000000000000000000000;
     0x00000000000000000000000000000000];
     key_length := 24 |}.

Definition fips197_ctx256 : crypto_aes_ctx :=
  {| key_enc :=
    [0x0f0e0d0c0b0a09080706050403020100;
     0x1f1e1d1c1b1a19181716151413121110;
     0x9cc072a593ce7fa998c476a19fc273a5;
     0xdeba4006c1a45d1adabe4402cda85116;
     0x6715fc03fbd58ea6681bf10ff0df87ae;
     0x8d51b87353ebf875924fa56f48f1e16d;
     0x8b59d56cec4c296f1799a7c97f8256c6;
     0x39cf0754b49ebf27e7754752753ae23d;
     0x2f1c87c1a44552ad48097bc25f90dc0b;
     0x0a820a64334d0d3087d3b21760a6f545;
     0xdfa761d2f0bbe61354feb4be1cf7cf7c;
     0x40e6afb34a64a5d77929a8e7fefa1af0;
     0x0a1c725ad5bb13882500f59b71fe4125;
     0xeacdf8cdaa2b577ee04ff2a999665a4e;
     0x36de686d3cc21a37e97909bfcc79fc24];
     key_dec :=
    [0x36de686d3cc21a37e97909bfcc79fc24;
     0x6e0158255fe2e9fc2faacebfffd1f134;
     0x84e680dc46b771750a354c38eb48165e;
     0x31e3b1d970482743d07b3f8b8005a3c8;
     0xc251f1a94c823d4de17d5a66138e70b5;
     0x41ab969aa03318c8507e9c43a37bda74;
     0x8ed3cce4adff672bf2f32ad31597a63c;
     0xe1988e52f04d848bf3054637f3c45ff8;
     0x232cabcf5f0c4df8e7648cef9a4069de;
     0x11d50ad90348c2bc00c119cf1658d5ae;
     0x7c20e637b868c1177d24e531bd68c615;
     0x129dc8650389db731699cc610f85d77f;
     0xc4482720c54c2426c04c2324c940282a;
     0x1114131615101712191c1b1e1d181f1a;
     0x0f0e0d0c0b0a09080706050403020100];
     key_length := 32 |}.


Definition counting_mem : mem := fun a => a mod 256.

(* A context with the given key length and no round keys. *)
Definition empty_ctx (keylen : Z) : crypto_aes_ctx :=
  {| key_enc := []; key_dec := []; key_length := keylen |}.

(* Four registers of four lanes, every lane the all-ones tweak. *)
Definition all_ones_regs : tweak_regs :=
  {| TWEAK0 := repeat (2 ^ 128 - 1) 4; TWEAK1 := repeat (2 ^ 128 - 1) 4;
     TWEAK2 := repeat (2 ^ 128 - 1) 4; TWEAK3 := repeat (2 ^ 128 - 1) 4;
     NEXT_TWEAK0 := []; NEXT_TWEAK1 := []; NEXT_TWEAK2 := []; NEXT_TWEAK3 := [];
     V5 := [] |}.

(** ** What a call assumes of its arguments *)

(* The memory holds bytes, the length is at least one block, the buffers
   are the same or disjoint, and neither wraps around the address space. *)
Definition call_ok (m : mem) (src dst len : Z) : Prop :=
  mem_ok m /\ 16 <= len < 2 ^ 63 /\ buffers_ok src dst len /\
  (0 <= src /\ src + len < 2 ^ 64) /\ (0 <= dst /\ dst + len < 2 ^ 64).

(* The n bytes at a and the k bytes at b do not overlap. *)
Definition apart (a n b k : Z) : Prop := a + n <= b \/ b + k <= a.

(* A valid schedule of a 16-byte key whose slots 11 to 14 are set to all
   ones. *)
Definition fips197_ctx128_filled : crypto_aes_ctx :=
  {| key_enc := firstn 11 (key_enc fips197_ctx128) ++ repeat (2 ^ 128 - 1) 4;
     key_dec := firstn 11 (key_dec fips197_ctx128) ++ repeat (2 ^ 128 - 1) 4;
     key_length := 16 |}.

(* Two contexts with the same key length and the same round keys 0 to Nr;
   the slots after Nr are free to differ. *)
Definition keys_agree (ctx ctx' : crypto_aes_ctx) : Prop :=
  key_length ctx' = key_length ctx /\
  forall i, (i <= Nr (key_length ctx))%nat ->
    nth i (key_enc ctx') 0 = nth i (key_enc ctx) 0 /\
    nth i (key_dec ctx') 0 = nth i (key_dec ctx) 0.

(* The state at the entry of the loops for the sample memory: source at 0,
   destination at 1024, tweak at 4096. *)
Definition sample_state (VL : Z) (USE_AVX10 : bool) : state :=
  {| MEM := counting_mem; SRC := 0; DST := 1024; LEN := 0;
     TW := _compute_first_set_of_tweaks VL USE_AVX10 (load128 counting_mem 4096) |}.

(** ** The rounds in the words of the specification *)

(* The rounds as the specification counts them: rounds 1 to 9, then 0, 1 or
   3 further non-final rounds for a key of 16, 24 or 32 bytes, then the last
   round. *)
Definition spec_rounds (keylen : Z) : list (bool * Z) :=
  let e := if keylen =? 16 then 0%nat else if keylen =? 24 then 1%nat else 3%nat in
  map (fun i => (false, Z.of_nat i)) (seq 1 (9 + e)) ++ [(true, Z.of_nat (10 + e))].

(** ** The key-length field *)

(* The context with another value in its key-length field. *)
Definition set_key_length (keylen : Z) (ctx : crypto_aes_ctx) : crypto_aes_ctx :=
  {| key_enc := key_enc ctx; key_dec := key_dec ctx; key_length := keylen |}.

(* The key length the two comparisons of the field amount to. *)
Definition effective_key_length (keylen : Z) : Z :=
  if signed 32 keylen <=? 24 then (if keylen =? 24 then 24 else 16) else 32.

(** * Proofs

    ** Bits of machine words *)

Lemma testbit_neg_idx a i : i < 0 -> Z.testbit a i = false.
Proof. intros; now apply Z.testbit_neg_r. Qed.

Lemma testbit_mask w x i : 0 <= w -> Z.testbit (mask w x) i = Z.testbit x i && (i <? w).
Proof.
  intros Hw. unfold mask. rewrite Z.land_spec.
  destruct (Z.ltb_spec i 0) as [Hi|Hi].
  - rewrite !testbit_neg_idx by lia. reflexivity.
  - now rewrite Z.testbit_ones_nonneg by lia.
Qed.

Lemma testbit_shiftr a n i :
  Z.testbit (Z.shiftr a n) i = (0 <=? i) && Z.testbit a (i + n).
Proof.
  destruct (Z.leb_spec 0 i); [now apply Z.shiftr_spec|now apply Z.testbit_neg_r].
Qed.

Lemma testbit_shiftl a n i :
  Z.testbit (Z.shiftl a n) i = (0 <=? i) && Z.testbit a (i - n).
Proof.
  destruct (Z.leb_spec 0 i); [now apply Z.shiftl_spec|now apply Z.testbit_neg_r].
Qed.

Lemma testbit_high w x i : 0 <= w -> 0 <= x < 2 ^ w -> w <= i -> Z.testbit x i = false.
Proof.
  intros Hw Hx Hi. destruct (Z.eq_dec x 0) as [->|Hn]; [apply Z.bits_0|].
  apply Z.bits_above_log2; [lia|]. apply Z.log2_lt_pow2; [lia|].
  assert (2 ^ w <= 2 ^ i) by (apply Z.pow_le_mono_r; lia). lia.
Qed.

Lemma testbit_if (b : bool) x y i :
  Z.testbit (if b then x else y) i = if b then Z.testbit x i else Z.testbit y i.
Proof. now destruct b. Qed.

Lemma testbit_ones n i : 0 <= n -> Z.testbit (Z.ones n) i = (0 <=? i) && (i <? n).
Proof.
  intros Hn. destruct (Z.leb_spec 0 i).
  - now rewrite Z.testbit_ones_nonneg by lia.
  - now rewrite testbit_neg_idx by lia.
Qed.

Lemma testbit_1 i : Z.testbit 1 i = (i =? 0).
Proof.
  destruct (Z.eqb_spec i 0) as [->|Hn]; [reflexivity|].
  destruct (Z.ltb_spec i 0); [now apply testbit_neg_idx|].
  apply (testbit_high 1); lia.
Qed.

Ltac bit_rw :=
  repeat first
    [ rewrite Z.lxor_spec | rewrite Z.lor_spec | rewrite Z.land_spec
    | rewrite testbit_mask by lia
    | rewrite testbit_ones by lia
    | rewrite testbit_1
    | rewrite testbit_shiftr
    | rewrite testbit_shiftl
    | rewrite testbit_if
    | rewrite Z.bits_0 ].

Ltac bit_cmp :=
  repeat match goal with
  | |- context [?a <? ?b] => destruct (Z.ltb_spec a b); try lia
  | |- context [?a <=? ?b] => destruct (Z.leb_spec a b); try lia
  | |- context [?a =? ?b] => destruct (Z.eqb_spec a b); try lia
  end.

Ltac bit_neg :=
  repeat match goal with
  | |- context [Z.testbit ?a ?i] => rewrite (testbit_neg_idx a i) by lia
  end.

Ltac bit_idx :=
  repeat match goal with
  | |- context [Z.testbit ?a ?i] =>
      match goal with
      | |- context [Z.testbit a ?j] =>
          lazymatch i with j => fail | _ => replace (Z.testbit a j) with (Z.testbit a i) by (f_equal; lia) end
      end
  end.

Ltac bit_bool :=
  cbn [andb orb xorb negb];
  repeat rewrite ?andb_true_r, ?andb_false_r, ?orb_false_r, ?orb_true_r,
    ?xorb_false_r, ?xorb_false_l, ?xorb_true_r, ?xorb_true_l,
    ?andb_true_l, ?andb_false_l, ?orb_false_l, ?orb_true_l;
  cbn [andb orb xorb negb].

Ltac bit_atoms :=
  repeat match goal with
  | |- context [Z.testbit ?a ?i] => destruct (Z.testbit a i)
  end.

Ltac bitblast := bit_rw; bit_cmp; bit_neg; bit_idx; bit_bool.

Lemma mask_range w x : 0 <= w -> 0 <= mask w x < 2 ^ w.
Proof. intros; unfold mask; rewrite Z.land_ones by lia; now apply Z.mod_pos_bound, Z.pow_pos_nonneg. Qed.

Lemma mask_mod w x : 0 <= w -> mask w x = x mod 2 ^ w.
Proof. intros; unfold mask; now rewrite Z.land_ones. Qed.

Lemma sar32_31 d : 0 <= d < 2 ^ 32 ->
  sar32 31 d = if Z.testbit d 31 then Z.ones 32 else 0.
Proof.
  intros Hd. unfold sar32, signed. rewrite Z.shiftr_div_pow2 by lia.
  change (2 ^ (32 - 1)) with 2147483648. change (2 ^ 32) with 4294967296 in *.
  change (2 ^ 31) with 2147483648.
  destruct (Z.ltb_spec d 2147483648).
  - rewrite (testbit_high 31) by (change (2^31) with 2147483648; lia).
    rewrite Z.div_small by lia. reflexivity.
  - replace (Z.testbit d 31) with true.
    + replace ((d - 4294967296) / 2147483648) with (-1) by (Z.div_mod_to_equations; lia).
      reflexivity.
    + symmetry. rewrite Z.testbit_true by lia.
      change (2 ^ 31) with 2147483648.
      replace (d / 2147483648) with 1 by (Z.div_mod_to_equations; lia). reflexivity.
Qed.

Lemma dbl_mod64 q : (q + q) mod 2 ^ 64 = mask 64 (Z.shiftl q 1).
Proof. rewrite mask_mod by lia. rewrite Z.shiftl_mul_pow2 by lia. f_equal. lia. Qed.

Lemma testbit_87 i : Z.testbit 0x87 i = (i =? 0) || (i =? 1) || (i =? 2) || (i =? 7).
Proof.
  destruct (Z.ltb_spec i 0); [rewrite testbit_neg_idx by lia; bit_cmp; reflexivity|].
  destruct (Z.ltb_spec i 8).
  - assert (i = 0 \/ i = 1 \/ i = 2 \/ i = 3 \/ i = 4 \/ i = 5 \/ i = 6 \/ i = 7) as Hc by lia.
    destruct Hc as [->|[->|[->|[->|[->|[->|[->| ->]]]]]]]; reflexivity.
  - rewrite (testbit_high 8 0x87) by (try change (2 ^ 8) with 256; lia).
    bit_cmp; try lia; reflexivity.
Qed.

Lemma mask_id w x : 0 <= w -> 0 <= x < 2 ^ w -> mask w x = x.
Proof. intros; rewrite mask_mod by lia; now apply Z.mod_small. Qed.

Lemma dword_of_dwords d0 d1 d2 d3 :
  0 <= d0 < 2 ^ 32 -> 0 <= d1 < 2 ^ 32 -> 0 <= d2 < 2 ^ 32 -> 0 <= d3 < 2 ^ 32 ->
  dword 0 (of_dwords d0 d1 d2 d3) = d0 /\ dword 1 (of_dwords d0 d1 d2 d3) = d1 /\
  dword 2 (of_dwords d0 d1 d2 d3) = d2 /\ dword 3 (of_dwords d0 d1 d2 d3) = d3.
Proof.
  intros H0 H1 H2 H3.
  rewrite <- (mask_id 32 d0), <- (mask_id 32 d1), <- (mask_id 32 d2), <- (mask_id 32 d3) by lia.
  unfold dword, of_dwords.
  repeat split; apply Z.bits_inj'; intros i Hi; bitblast; auto.
Qed.

Lemma next_tweak_gf_mulx t : 0 <= t < 2 ^ 128 -> _next_tweak t = gf_mulx t.
Proof.
  intros Ht. unfold _next_tweak, vpxor, vpand, vpsrad, vpshufd, vpaddq.
  change (mask 2 19) with 3. change (mask 2 (Z.shiftr 19 2)) with 0.
  change (mask 2 (Z.shiftr 19 4)) with 1. change (mask 2 (Z.shiftr 19 6)) with 0.
  assert (Hd : forall i, 0 <= dword i t < 2 ^ 32) by (intros; apply mask_range; lia).
  destruct (dword_of_dwords (dword 3 t) (dword 0 t) (dword 1 t) (dword 0 t))
    as (D0 & D1 & D2 & D3); auto.
  rewrite D0, D1, D2, D3. rewrite !sar32_31 by auto.
  rewrite !dbl_mod64.
  apply Z.bits_inj'; intros i Hi.
  unfold gf_mulx, of_dwords, of_qwords, gf_poly, of_qwords, qword, dword.
  bit_rw. rewrite !testbit_87. bitblast; bit_atoms; reflexivity.
Qed.

(** ** Carry-less multiplication and the batched tweak advance *)

Ltac bit_high :=
  repeat match goal with
  | H : 0 <= ?t < 2 ^ ?w |- context [Z.testbit ?t ?i] =>
      rewrite (testbit_high w t i) by lia
  end.

Ltac xor_ac :=
  apply Z.bits_inj'; intros ?i ?Hi; rewrite !Z.lxor_spec; bit_atoms; reflexivity.

Lemma clmul64_87 h : clmul64 h 0x87 = clmul87 h.
Proof.
  unfold clmul64, clmul87.
  cbv -[Z.shiftl Z.lxor].
  rewrite !Z.lxor_0_l, ?Z.lxor_0_r.
  change (Z.shiftl h 0) with h. xor_ac.
Qed.

Lemma gf_mulx_range t : 0 <= gf_mulx t < 2 ^ 128.
Proof.
  unfold gf_mulx.
  assert (H : 0 <= (if Z.testbit t 127 then 135 else 0) < 2 ^ 128) by (destruct (Z.testbit t 127); lia).
  pose proof (mask_range 128 (Z.shiftl t 1) ltac:(lia)) as Hm.
  split.
  - apply Z.lxor_nonneg. lia.
  - destruct (Z.eq_dec (Z.lxor (mask 128 (Z.shiftl t 1)) (if Z.testbit t 127 then 135 else 0)) 0) as [->|Hn]; [lia|].
    apply Z.log2_lt_pow2.
    + assert (0 <= Z.lxor (mask 128 (Z.shiftl t 1)) (if Z.testbit t 127 then 135 else 0)) by (apply Z.lxor_nonneg; lia). lia.
    + eapply Z.le_lt_trans; [apply Z.log2_lxor; lia|].
      apply Z.max_lub_lt.
      * destruct (Z.eq_dec (mask 128 (Z.shiftl t 1)) 0) as [->|]; [reflexivity|]. apply Z.log2_lt_pow2; lia.
      * destruct (Z.testbit t 127); reflexivity.
Qed.

Lemma gf_mulxn_0 t : 0 <= t < 2 ^ 128 -> gf_mulxn 0 t = t.
Proof.
  intros Ht. unfold gf_mulxn, clmul87. apply Z.bits_inj'; intros i Hi.
  bitblast; bit_high; bit_bool; auto.
Qed.

Lemma gf_mulxn_S n t : 0 <= t < 2 ^ 128 -> 0 <= n <= 120 ->
  gf_mulx (gf_mulxn n t) = gf_mulxn (n + 1) t.
Proof.
  intros Ht Hn. unfold gf_mulx, gf_mulxn, clmul87. apply Z.bits_inj'; intros i Hi.
  bit_rw. rewrite !testbit_87.
  bit_cmp; bit_neg; bit_high; bit_idx; bit_bool; bit_atoms; reflexivity.
Qed.

Lemma iter_gf_mulx n t : 0 <= t < 2 ^ 128 -> (n <= 121)%nat ->
  Nat.iter n gf_mulx t = gf_mulxn (Z.of_nat n) t.
Proof.
  intros Ht. induction n as [|n IH]; intros Hn.
  - simpl. now rewrite gf_mulxn_0.
  - rewrite Nat.iter_succ, IH by lia. rewrite gf_mulxn_S by lia. f_equal. lia.
Qed.

Lemma iter_gf_mulx_range n t : 0 <= t < 2 ^ 128 -> 0 <= Nat.iter n gf_mulx t < 2 ^ 128.
Proof. intros Ht. destruct n; [exact Ht|apply gf_mulx_range]. Qed.

Lemma next_tweak_iter_gf n t : 0 <= t < 2 ^ 128 ->
  next_tweak_iter n t = Nat.iter n gf_mulx t.
Proof.
  intros Ht. unfold next_tweak_iter. induction n as [|n IH]; [reflexivity|].
  rewrite !Nat.iter_succ, IH. apply next_tweak_gf_mulx. now apply iter_gf_mulx_range.
Qed.

Lemma qword_of_qwords q0 q1 :
  0 <= q0 < 2 ^ 64 -> 0 <= q1 < 2 ^ 64 ->
  qword 0 (of_qwords q0 q1) = q0 /\ qword 1 (of_qwords q0 q1) = q1.
Proof.
  intros H0 H1.
  rewrite <- (mask_id 64 q0), <- (mask_id 64 q1) by lia.
  unfold qword, of_qwords.
  split; apply Z.bits_inj'; intros i Hi; bitblast; auto.
Qed.

Lemma shiftr_range w x n : 0 <= w -> 0 <= n -> 0 <= x < 2 ^ w -> 0 <= Z.shiftr x n < 2 ^ w.
Proof.
  intros Hw Hn Hx. rewrite Z.shiftr_div_pow2 by lia.
  assert (0 < 2 ^ n) by (apply Z.pow_pos_nonneg; lia).
  split; [apply Z.div_pos; lia|].
  apply Z.div_lt_upper_bound; [lia|]. nia.
Qed.

(* The vpclmulqdq sequence of _next_tweakvec and of
   _compute_first_set_of_tweaks, with shift count n. *)
Lemma pclmul_advance_lane n t : 0 <= t < 2 ^ 128 -> 1 <= n <= 57 ->
  Z.lxor (vpslldq 8 (vpsrlq (64 - n) t))
         (Z.lxor (vpclmulqdq 0x01 gf_poly (vpsrlq (64 - n) t)) (vpsllq n t))
  = gf_mulxn n t.
Proof.
  intros Ht Hn. unfold vpclmulqdq.
  change (Z.testbit 1 0) with true. change (Z.testbit 1 4) with false. cbv iota.
  change (qword 0 gf_poly) with 0x87. rewrite clmul64_87.
  unfold vpsrlq at 2.
  pose proof (mask_range 64 (Z.shiftr t (64 * 0)) ltac:(lia)) as H0.
  pose proof (mask_range 64 (Z.shiftr t (64 * 1)) ltac:(lia)) as H1.
  fold (qword 0 t) in H0. fold (qword 1 t) in H1.
  destruct (qword_of_qwords (Z.shiftr (qword 0 t) (64 - n)) (Z.shiftr (qword 1 t) (64 - n)))
    as [_ Q1]; try (apply shiftr_range; lia).
  rewrite Q1.
  unfold gf_mulxn, clmul87, vpslldq, vpsrlq, vpsllq, of_qwords, qword.
  change (Z.min 8 16) with 8.
  apply Z.bits_inj'; intros i Hi.
  bit_rw. bit_cmp; bit_neg; bit_high; bit_idx; bit_bool; bit_atoms; reflexivity.
Qed.

(* The completed _tweak_step_pclmul sequence on one lane, advancing by
   n = 8 * k bits. *)
Lemma pclmul_step_lane k t : 0 <= t < 2 ^ 128 -> 1 <= k <= 7 ->
  Z.lxor (vpclmulqdq 0x00 gf_poly (vpsrldq (16 - k) t)) (vpslldq k t) = gf_mulxn (8 * k) t.
Proof.
  intros Ht Hk. unfold vpclmulqdq.
  change (Z.testbit 0 0) with false. change (Z.testbit 0 4) with false. cbv iota.
  change (qword 0 gf_poly) with 0x87. rewrite clmul64_87.
  unfold gf_mulxn, clmul87, vpslldq, vpsrldq, qword.
  rewrite !Z.min_l by lia.
  apply Z.bits_inj'; intros i Hi.
  bit_rw. bit_cmp; bit_neg; bit_high; bit_idx; bit_bool; bit_atoms; reflexivity.
Qed.

Lemma lxor_range w a b : 0 <= w -> 0 <= a < 2 ^ w -> 0 <= b < 2 ^ w -> 0 <= Z.lxor a b < 2 ^ w.
Proof.
  intros Hw Ha Hb. split; [apply Z.lxor_nonneg; lia|].
  assert (Hnn : 0 <= Z.lxor a b) by (apply Z.lxor_nonneg; lia).
  destruct (Z.eq_dec (Z.lxor a b) 0) as [->|Hn]; [apply Z.pow_pos_nonneg; lia|].
  assert (0 < w).
  { destruct (Z.eq_dec w 0) as [->|]; [|lia]. change (2 ^ 0) with 1 in *.
    assert (a = 0) as -> by lia. assert (b = 0) as -> by lia. now elim Hn. }
  apply Z.log2_lt_pow2; [lia|].
  eapply Z.le_lt_trans; [apply Z.log2_lxor; lia|].
  apply Z.max_lub_lt.
  - destruct (Z.eq_dec a 0) as [->|]; [simpl; lia|]. apply Z.log2_lt_pow2; lia.
  - destruct (Z.eq_dec b 0) as [->|]; [simpl; lia|]. apply Z.log2_lt_pow2; lia.
Qed.

(* vpternlogd with immediate 0x96 is a three-argument XOR. *)
Lemma vpternlogd_0x96 a b c :
  lane_ok a -> lane_ok b -> lane_ok c ->
  vpternlogd 0x96 a b c = Z.lxor a (Z.lxor b c).
Proof.
  unfold lane_ok. intros Ha Hb Hc. unfold vpternlogd. cbn [zseq seq map fold_right].
  cbv [Z.of_nat Pos.of_succ_nat Pos.succ].
  change (Z.testbit 150 0) with false. change (Z.testbit 150 1) with true.
  change (Z.testbit 150 2) with true. change (Z.testbit 150 3) with false.
  change (Z.testbit 150 4) with true. change (Z.testbit 150 5) with false.
  change (Z.testbit 150 6) with false. change (Z.testbit 150 7) with true.
  cbv iota. unfold minterm.
  repeat match goal with |- context [Z.testbit ?k ?j] =>
    let v := eval vm_compute in (Z.testbit k j) in change (Z.testbit k j) with v end.
  unfold lit.
  apply Z.bits_inj'; intros i Hi.
  bit_rw. bit_cmp; bit_neg; bit_high; bit_idx; bit_bool; bit_atoms; reflexivity.
Qed.

(** ** Lane-wise vector operations *)

Lemma vop2_map {A} (f : Z -> Z -> Z) (g h : A -> Z) (v : list A) :
  vop2 f (map g v) (map h v) = map (fun x => f (g x) (h x)) v.
Proof. unfold vop2. induction v as [|x v IH]; simpl; [reflexivity|]. now f_equal. Qed.

Lemma vop3_map {A} (f : Z -> Z -> Z -> Z) (g h k : A -> Z) (v : list A) :
  vop3 f (map g v) (map h v) (map k v) = map (fun x => f (g x) (h x) (k x)) v.
Proof. unfold vop3. induction v as [|x v IH]; simpl; [reflexivity|]. now f_equal. Qed.

Lemma vop1_map {A} (f : Z -> Z) (g : A -> Z) (v : list A) :
  vop1 f (map g v) = map (fun x => f (g x)) v.
Proof. unfold vop1. apply map_map. Qed.

Lemma repeat_as_map {A} (c : Z) (v : list A) : repeat c (length v) = map (fun _ => c) v.
Proof. induction v; simpl; [reflexivity|]. now f_equal. Qed.

Lemma vop2_bcast {A} (f : Z -> Z -> Z) (c : Z) (g : A -> Z) (v : list A) :
  vop2 f (repeat c (length v)) (map g v) = map (fun x => f c (g x)) v.
Proof. rewrite repeat_as_map. apply vop2_map. Qed.

Lemma map_ext_lanes (f g : Z -> Z) (v : vec) :
  lanes_ok v -> (forall x, lane_ok x -> f x = g x) -> map f v = map g v.
Proof.
  intros Hv Hfg. apply map_ext_in. intros x Hx. apply Hfg.
  unfold lanes_ok in Hv. rewrite Forall_forall in Hv. auto.
Qed.

(** ** Ranges of the lane instructions *)

Lemma lor_range w a b : 0 <= w -> 0 <= a < 2 ^ w -> 0 <= b < 2 ^ w -> 0 <= Z.lor a b < 2 ^ w.
Proof.
  intros Hw Ha Hb.
  assert (E : Z.lor a b = mask w (Z.lor a b)).
  { apply Z.bits_inj'; intros i Hi. bit_rw. bit_cmp; bit_high; bit_bool; reflexivity. }
  rewrite E. apply mask_range; lia.
Qed.

Lemma shiftl_range w n a : 0 <= w -> 0 <= n -> 0 <= a < 2 ^ w -> 0 <= Z.shiftl a n < 2 ^ (w + n).
Proof.
  intros Hw Hn Ha. rewrite Z.shiftl_mul_pow2, Z.pow_add_r by lia.
  assert (0 < 2 ^ n) by (apply Z.pow_pos_nonneg; lia). nia.
Qed.

Lemma of_qwords_range q0 q1 :
  0 <= q0 < 2 ^ 64 -> 0 <= q1 < 2 ^ 64 -> lane_ok (of_qwords q0 q1).
Proof.
  intros H0 H1. unfold lane_ok, of_qwords. apply lor_range; [lia| |].
  - change (2 ^ 128) with (2 ^ 64 * 2 ^ 64). nia.
  - apply (shiftl_range 64 64); lia.
Qed.

Lemma qword_range i x : 0 <= qword i x < 2 ^ 64.
Proof. apply mask_range; lia. Qed.

Lemma vpsrlq_range n x : 0 <= n -> lane_ok (vpsrlq n x).
Proof.
  intros Hn. apply of_qwords_range; apply shiftr_range; try lia; apply qword_range.
Qed.

Lemma vpsllq_range n x : lane_ok (vpsllq n x).
Proof. apply of_qwords_range; apply mask_range; lia. Qed.

Lemma vpslldq_range n x : lane_ok (vpslldq n x).
Proof. apply mask_range; lia. Qed.

Lemma vpsrldq_range n x : 0 <= n -> lane_ok x -> lane_ok (vpsrldq n x).
Proof. intros Hn Hx. apply shiftr_range; try lia. exact Hx. Qed.

Lemma clmul_aux_range k a b :
  0 <= a < 2 ^ 64 -> 0 <= clmul_aux k a b < 2 ^ (64 + Z.of_nat k).
Proof.
  intros Ha. induction k as [|k IH].
  - simpl. lia.
  - cbn [clmul_aux]. apply lxor_range; [lia| |].
    + destruct (Z.testbit b (Z.of_nat k)).
      * pose proof (shiftl_range 64 (Z.of_nat k) a ltac:(lia) ltac:(lia) Ha) as Hs.
        assert (2 ^ (64 + Z.of_nat k) <= 2 ^ (64 + Z.of_nat (S k))) by (apply Z.pow_le_mono_r; lia).
        lia.
      * split; [lia|]. apply Z.pow_pos_nonneg; lia.
    + assert (2 ^ (64 + Z.of_nat k) <= 2 ^ (64 + Z.of_nat (S k))) by (apply Z.pow_le_mono_r; lia).
      lia.
Qed.

Lemma vpclmulqdq_range imm a b : lane_ok (vpclmulqdq imm a b).
Proof.
  unfold vpclmulqdq, clmul64, lane_ok.
  change (2 ^ 128) with (2 ^ (64 + Z.of_nat 64)). apply clmul_aux_range, qword_range.
Qed.

Lemma gf_mulx_lane t : lane_ok (gf_mulx t).
Proof. apply gf_mulx_range. Qed.

Lemma iter_gf_mulx_lane n t : lane_ok t -> lane_ok (Nat.iter n gf_mulx t).
Proof. apply iter_gf_mulx_range. Qed.

Lemma lxor_lane a b : lane_ok a -> lane_ok b -> lane_ok (Z.lxor a b).
Proof. apply lxor_range; lia. Qed.

Lemma next_tweak_mulx t : lane_ok t -> _next_tweak t = gf_mulx t.
Proof. apply next_tweak_gf_mulx. Qed.

(* Ranges of lanes, by the shape of the goal. *)
Ltac lanes :=
  repeat match goal with
  | |- _ /\ _ => split
  | H : lane_ok ?x |- lane_ok ?x => exact H
  | |- lane_ok (Z.lxor _ _) => apply lxor_lane
  | |- lane_ok (vpxor _ _) => apply lxor_lane
  | |- lane_ok (gf_mulx _) => apply gf_mulx_lane
  | |- lane_ok (Nat.iter _ gf_mulx _) => apply iter_gf_mulx_lane
  | |- lane_ok (vpslldq _ _) => apply vpslldq_range
  | |- lane_ok (vpsllq _ _) => apply vpsllq_range
  | |- lane_ok (vpclmulqdq _ _ _) => apply vpclmulqdq_range
  | |- lane_ok (vpsrlq _ _) => apply vpsrlq_range; lia
  | |- lane_ok (vpsrldq _ _) => apply vpsrldq_range; [lia|]
  end.

(** ** _xor3 and _next_tweakvec *)

Lemma xor3_map {A} avx (f g h : A -> Z) (v : list A) :
  (forall x, In x v -> lane_ok (f x) /\ lane_ok (g x) /\ lane_ok (h x)) ->
  _xor3 avx (map f v) (map g v) (map h v)
  = map (fun x => Z.lxor (f x) (Z.lxor (g x) (h x))) v.
Proof.
  intros Hr. unfold _xor3. destruct avx.
  - rewrite vop3_map. apply map_ext_in. intros x Hx.
    destruct (Hr x Hx) as (Hf & Hg & Hh). now apply vpternlogd_0x96.
  - rewrite !vop2_map. apply map_ext. intros x. unfold vpxor. xor_ac.
Qed.

Lemma next_tweakvec_spec VL avx (v : vec) :
  VL_ok VL -> length v = nlanes VL -> lanes_ok v ->
  _next_tweakvec VL avx v = map (Nat.iter (nlanes VL) gf_mulx) v.
Proof.
  intros HVL Hlen Hv. unfold _next_tweakvec.
  destruct (Z.eqb_spec VL 16) as [->|Hne].
  - unfold vop1. apply map_ext_lanes; [exact Hv|]. intros x Hx.
    change (nlanes 16) with 1%nat. cbn [Nat.iter]. apply next_tweak_gf_mulx, Hx.
  - unfold _vbroadcast128, vop1. rewrite <- Hlen, vop2_bcast, map_map.
    rewrite xor3_map.
    + apply map_ext_lanes; [exact Hv|]. intros x Hx.
      assert (Hn : VL / 16 = Z.of_nat (nlanes VL) /\ 1 <= VL / 16 <= 57).
      { destruct HVL as [->|[->| ->]]; [congruence| |]; vm_compute; intuition congruence. }
      destruct Hn as [En Hn].
      rewrite pclmul_advance_lane by (auto; apply Hx).
      rewrite En. symmetry. rewrite Hlen. apply iter_gf_mulx; [apply Hx|].
      destruct HVL as [->|[->| ->]]; vm_compute; lia.
    + intros x _. lanes.
Qed.

(** ** The tweak registers *)

Lemma iter_plus {A} (f : A -> A) n m x : Nat.iter n f (Nat.iter m f x) = Nat.iter (n + m) f x.
Proof. induction n as [|n IH]; [reflexivity|]. cbn [Nat.add]. now rewrite !Nat.iter_succ, IH. Qed.

Lemma tweak_vec_length nl k t : length (tweak_vec nl k t) = nl.
Proof. unfold tweak_vec. now rewrite length_map, length_seq. Qed.

Lemma tweak_vec_ok nl k t : lane_ok t -> lanes_ok (tweak_vec nl k t).
Proof.
  intros Ht. unfold lanes_ok, tweak_vec. apply Forall_forall. intros x Hx.
  apply in_map_iff in Hx. destruct Hx as (l & <- & _). now apply iter_gf_mulx_lane.
Qed.

Lemma tweak_vec_advance nl n k t :
  map (Nat.iter n gf_mulx) (tweak_vec nl k t) = tweak_vec nl (k + n) t.
Proof.
  unfold tweak_vec. rewrite map_map. apply map_ext. intros l.
  rewrite iter_plus. f_equal. lia.
Qed.

Lemma tweak_vec_1 k t : tweak_vec 1 k t = [Nat.iter k gf_mulx t].
Proof. unfold tweak_vec. cbn [seq map]. now rewrite Nat.add_0_r. Qed.

Lemma tweak_vec_S nl k t :
  tweak_vec (S nl) k t = Nat.iter k gf_mulx t :: tweak_vec nl (S k) t.
Proof.
  unfold tweak_vec. cbn [seq map]. rewrite Nat.add_0_r. f_equal.
  rewrite <- seq_shift, map_map. apply map_ext. intros l. f_equal. lia.
Qed.

(* The vpclmulqdq sequence of _compute_first_set_of_tweaks on a vector. *)
Lemma pclmul_advance_vec VL (avx : bool) n (v : vec) :
  length v = nlanes VL -> lanes_ok v -> 1 <= n <= 57 ->
  (let v0 := vop1 (vpsrlq (64 - n)) v in
   let v1 := vop2 (vpclmulqdq 0x01) (_vbroadcast128 VL gf_poly) v0 in
   let v0 := vop1 (vpslldq 8) v0 in
   let tw := vop1 (vpsllq n) v in
   if avx then vop3 (vpternlogd 0x96) v0 v1 tw
   else vop2 vpxor v1 (vop2 vpxor v0 tw))
  = map (Nat.iter (Z.to_nat n) gf_mulx) v.
Proof.
  intros Hlen Hv Hn. cbv zeta. unfold _vbroadcast128, vop1.
  rewrite <- Hlen, vop2_bcast, map_map.
  transitivity (map (fun x => gf_mulxn n x) v).
  - destruct avx.
    + rewrite vop3_map. apply map_ext_lanes; [exact Hv|]. intros x Hx.
      rewrite vpternlogd_0x96 by lanes.
      now apply pclmul_advance_lane.
    + rewrite !vop2_map. apply map_ext_lanes; [exact Hv|]. intros x Hx.
      rewrite <- pclmul_advance_lane by auto. unfold vpxor. xor_ac.
  - apply map_ext_lanes; [exact Hv|]. intros x Hx.
    rewrite iter_gf_mulx by (try apply Hx; lia). f_equal. lia.
Qed.

Lemma first_set_of_tweaks VL avx t :
  VL_ok VL -> lane_ok t -> tweaks_at VL 0 t (_compute_first_set_of_tweaks VL avx t).
Proof.
  intros HVL Ht. unfold _compute_first_set_of_tweaks, tweaks_at.
  destruct HVL as [->|[->| ->]].
  - change (16 =? 16) with true. cbv iota zeta. cbn [TWEAK0 TWEAK1 TWEAK2 TWEAK3].
    change (nlanes 16) with 1%nat. rewrite !tweak_vec_1. unfold of_xmm, vop1.
    cbn [map Nat.add Nat.mul Nat.iter nat_rect].
    rewrite !next_tweak_mulx by lanes. repeat split.
  - change (32 =? 16) with false. change (32 =? 32) with true. cbv iota zeta.
    change (nlanes 32) with 2%nat.
    assert (E0 : [t; _next_tweak t] = tweak_vec 2 0 t).
    { rewrite !tweak_vec_S. unfold tweak_vec. cbn [seq map Nat.iter nat_rect].
      now rewrite next_tweak_mulx by lanes. }
    rewrite E0.
    pose proof (pclmul_advance_vec 32 avx (1 * 32 / 16) (tweak_vec 2 0 t)
      (tweak_vec_length _ _ _) (tweak_vec_ok _ _ _ Ht) ltac:(vm_compute; intuition congruence)) as H1.
    pose proof (pclmul_advance_vec 32 avx (2 * 32 / 16) (tweak_vec 2 0 t)
      (tweak_vec_length _ _ _) (tweak_vec_ok _ _ _ Ht) ltac:(vm_compute; intuition congruence)) as H2.
    pose proof (pclmul_advance_vec 32 avx (3 * 32 / 16) (tweak_vec 2 0 t)
      (tweak_vec_length _ _ _) (tweak_vec_ok _ _ _ Ht) ltac:(vm_compute; intuition congruence)) as H3.
    cbv zeta in H1, H2, H3. rewrite tweak_vec_advance in H1, H2, H3.
    destruct avx; cbv iota beta; cbn [TWEAK0 TWEAK1 TWEAK2 TWEAK3];
      rewrite H1, H2, H3; repeat split.
  - change (64 =? 16) with false. change (64 =? 32) with false.
    change (64 =? 64) with true. cbv iota zeta.
    change (nlanes 64) with 4%nat.
    assert (E0 : [t; _next_tweak t; _next_tweak (_next_tweak t);
                  _next_tweak (_next_tweak (_next_tweak t))] = tweak_vec 4 0 t).
    { rewrite !tweak_vec_S. unfold tweak_vec. cbn [seq map Nat.iter nat_rect].
      rewrite !next_tweak_mulx by lanes. reflexivity. }
    rewrite E0.
    pose proof (pclmul_advance_vec 64 avx (1 * 64 / 16) (tweak_vec 4 0 t)
      (tweak_vec_length _ _ _) (tweak_vec_ok _ _ _ Ht) ltac:(vm_compute; intuition congruence)) as H1.
    pose proof (pclmul_advance_vec 64 avx (2 * 64 / 16) (tweak_vec 4 0 t)
      (tweak_vec_length _ _ _) (tweak_vec_ok _ _ _ Ht) ltac:(vm_compute; intuition congruence)) as H2.
    pose proof (pclmul_advance_vec 64 avx (3 * 64 / 16) (tweak_vec 4 0 t)
      (tweak_vec_length _ _ _) (tweak_vec_ok _ _ _ Ht) ltac:(vm_compute; intuition congruence)) as H3.
    cbv zeta in H1, H2, H3. rewrite tweak_vec_advance in H1, H2, H3.
    destruct avx; cbv iota beta; cbn [TWEAK0 TWEAK1 TWEAK2 TWEAK3];
      rewrite H1, H2, H3; repeat split.
Qed.

(** ** The interleaved tweak steps of the main loop *)

Lemma tweak_step_noop VL i r : 20 <= i < 1000 -> _tweak_step VL i r = r.
Proof.
  intros Hi. unfold _tweak_step, _tweak_step_mulx, _tweak_step_pclmul.
  destruct (VL =? 16).
  - destruct (Z.ltb_spec i 20); [lia|]. cbn [andb].
    destruct (Z.eqb_spec i 1000); [lia|reflexivity].
  - repeat match goal with
    | |- context [i =? ?c] => destruct (Z.eqb_spec i c); [lia|]
    end. reflexivity.
Qed.

Lemma tweak_step_keeps VL i r : i <> 1000 ->
  TWEAK0 (_tweak_step VL i r) = TWEAK0 r /\ TWEAK1 (_tweak_step VL i r) = TWEAK1 r /\
  TWEAK2 (_tweak_step VL i r) = TWEAK2 r /\ TWEAK3 (_tweak_step VL i r) = TWEAK3 r.
Proof.
  intros Hi. unfold _tweak_step, _tweak_step_mulx, _tweak_step_pclmul.
  destruct (VL =? 16).
  - repeat match goal with
    | |- context [if ?c then _ else _] =>
        lazymatch c with
        | context [if _ then _ else _] => fail
        | _ => destruct c eqn:?
        end
    end; cbn [set_V5 set_NEXT_TWEAK set_TWEAKS TWEAK0 TWEAK1 TWEAK2 TWEAK3];
      auto; lia.
  - repeat match goal with
    | |- context [i =? ?c] => destruct (Z.eqb_spec i c); [try lia|]
    end; cbn [set_V5 set_NEXT_TWEAK set_TWEAKS TWEAK0 TWEAK1 TWEAK2 TWEAK3]; auto.
Qed.

Lemma mulx_group0 rest r :
  run_tweak_steps 16 (0 :: 1 :: 2 :: 3 :: 4 :: rest) r
  = run_tweak_steps 16 rest (set_NEXT_TWEAK 0 (mulx_vec (TWEAK3 r)) (set_V5 (mulx_tmp (TWEAK3 r)) r)).
Proof. destruct r. reflexivity. Qed.

Lemma mulx_group1 rest r :
  run_tweak_steps 16 (5 :: 6 :: 7 :: 8 :: 9 :: rest) r
  = run_tweak_steps 16 rest (set_NEXT_TWEAK 1 (mulx_vec (NEXT_TWEAK0 r)) (set_V5 (mulx_tmp (NEXT_TWEAK0 r)) r)).
Proof. destruct r. reflexivity. Qed.

Lemma mulx_group2 rest r :
  run_tweak_steps 16 (10 :: 11 :: 12 :: 13 :: 14 :: rest) r
  = run_tweak_steps 16 rest (set_NEXT_TWEAK 2 (mulx_vec (NEXT_TWEAK1 r)) (set_V5 (mulx_tmp (NEXT_TWEAK1 r)) r)).
Proof. destruct r. reflexivity. Qed.

Lemma mulx_group3 rest r :
  run_tweak_steps 16 (15 :: 16 :: 17 :: 18 :: 19 :: rest) r
  = run_tweak_steps 16 rest (set_NEXT_TWEAK 3 (mulx_vec (NEXT_TWEAK2 r)) (set_V5 (mulx_tmp (NEXT_TWEAK2 r)) r)).
Proof. destruct r. reflexivity. Qed.

Lemma mulx_vec_1 x : mulx_vec [x] = [_next_tweak x].
Proof. reflexivity. Qed.

Lemma tweak_steps_mulx k t r :
  lane_ok t -> tweaks_at 16 k t r ->
  tweaks_at 16 (k + 4) t (_tweak_step 16 1000 (run_tweak_steps 16 steps20 r)).
Proof.
  intros Ht (E0 & E1 & E2 & E3). change (nlanes 16) with 1%nat in *.
  rewrite tweak_vec_1 in *.
  unfold steps20. rewrite mulx_group0, mulx_group1, mulx_group2, mulx_group3.
  cbn [run_tweak_steps fold_left].
  destruct r as [t0 t1 t2 t3 n0 n1 n2 n3 v5]. cbn [TWEAK0 TWEAK1 TWEAK2 TWEAK3] in *. subst.
  unfold tweaks_at. change (nlanes 16) with 1%nat. rewrite !tweak_vec_1.
  change (_tweak_step 16 1000) with (_tweak_step_mulx 16 1000). unfold _tweak_step_mulx.
  change (1000 <? 20) with false. change (1000 =? 1000) with true. cbn [andb]. cbv iota.
  cbn [set_NEXT_TWEAK set_V5 set_TWEAKS TWEAK0 TWEAK1 TWEAK2 TWEAK3 NEXT_TWEAK0 NEXT_TWEAK1
       NEXT_TWEAK2 NEXT_TWEAK3 V5].
  change (0 =? 0) with true. change (1 =? 1) with true. change (1 =? 0) with false.
  change (2 =? 0) with false. change (2 =? 1) with false. change (2 =? 2) with true.
  change (3 =? 0) with false. change (3 =? 1) with false. change (3 =? 2) with false.
  change (3 =? 3) with true. cbv iota.
  rewrite !mulx_vec_1. rewrite !next_tweak_mulx by lanes.
  rewrite <- !Nat.iter_succ.
  repeat split; do 2 f_equal; lia.
Qed.

Lemma pclmul_steps_32 r :
  let r' := _tweak_step 32 1000 (run_tweak_steps 32 steps20 r) in
  TWEAK0 r' = pclmul_vec 32 (TWEAK0 r) /\ TWEAK1 r' = pclmul_vec 32 (TWEAK1 r) /\
  TWEAK2 r' = pclmul_vec 32 (TWEAK2 r) /\ TWEAK3 r' = pclmul_vec 32 (TWEAK3 r).
Proof. destruct r. repeat split; reflexivity. Qed.

Lemma pclmul_steps_64 r :
  let r' := _tweak_step 64 1000 (run_tweak_steps 64 steps20 r) in
  TWEAK0 r' = pclmul_vec 64 (TWEAK0 r) /\ TWEAK1 r' = pclmul_vec 64 (TWEAK1 r) /\
  TWEAK2 r' = pclmul_vec 64 (TWEAK2 r) /\ TWEAK3 r' = pclmul_vec 64 (TWEAK3 r).
Proof. destruct r. repeat split; reflexivity. Qed.

Lemma pclmul_vec_spec VL (v : vec) :
  VL = 32 \/ VL = 64 -> length v = nlanes VL -> lanes_ok v ->
  pclmul_vec VL v = map (Nat.iter (4 * nlanes VL) gf_mulx) v.
Proof.
  intros HVL Hlen Hv. unfold pclmul_vec, _vpxor, _vbroadcast128, vop1.
  rewrite <- Hlen, vop2_bcast, vop2_map.
  apply map_ext_lanes; [exact Hv|]. intros x Hx. unfold vpxor.
  destruct HVL as [-> | ->].
  - change ((128 - 4 * 32 / 16) / 8) with (16 - 1). change (4 * 32 / 16 / 8) with 1.
    rewrite pclmul_step_lane by (try apply Hx; lia).
    rewrite Hlen. change (4 * nlanes 32)%nat with 8%nat.
    now rewrite iter_gf_mulx by (try apply Hx; lia).
  - change ((128 - 4 * 64 / 16) / 8) with (16 - 2). change (4 * 64 / 16 / 8) with 2.
    rewrite pclmul_step_lane by (try apply Hx; lia).
    rewrite Hlen. change (4 * nlanes 64)%nat with 16%nat.
    now rewrite iter_gf_mulx by (try apply Hx; lia).
Qed.

Lemma tweak_steps_advance VL k t r :
  VL_ok VL -> lane_ok t -> tweaks_at VL k t r ->
  tweaks_at VL (k + 4 * nlanes VL) t (_tweak_step VL 1000 (run_tweak_steps VL steps20 r)).
Proof.
  intros HVL Ht Hr. destruct HVL as [->|HVL].
  - now apply tweak_steps_mulx.
  - assert (Hp : let r' := _tweak_step VL 1000 (run_tweak_steps VL steps20 r) in
      TWEAK0 r' = pclmul_vec VL (TWEAK0 r) /\ TWEAK1 r' = pclmul_vec VL (TWEAK1 r) /\
      TWEAK2 r' = pclmul_vec VL (TWEAK2 r) /\ TWEAK3 r' = pclmul_vec VL (TWEAK3 r)).
    { destruct HVL as [-> | ->]; [apply pclmul_steps_32|apply pclmul_steps_64]. }
    cbv zeta in Hp. destruct Hp as (P0 & P1 & P2 & P3).
    destruct Hr as (E0 & E1 & E2 & E3). unfold tweaks_at.
    rewrite P0, P1, P2, P3, E0, E1, E2, E3.
    rewrite !pclmul_vec_spec by (auto using tweak_vec_length, tweak_vec_ok).
    rewrite !tweak_vec_advance.
    repeat split; f_equal; lia.
Qed.

(** ** The cipher core *)

Lemma vop2_bcast_r (f : Z -> Z -> Z) (c : Z) (v : vec) :
  vop2 f (repeat c (length v)) v = map (f c) v.
Proof. unfold vop2. induction v as [|x v IH]; simpl; [reflexivity|]. now f_equal. Qed.

Lemma vop2_combine_l {A} (f : Z -> Z -> Z) (g : Z * A -> Z) (a : vec) (b : list A) :
  length a = length b ->
  vop2 f a (map g (combine a b)) = map (fun p => f (fst p) (g p)) (combine a b).
Proof.
  unfold vop2. revert b. induction a as [|x a IH]; intros [|y b] Hl; simpl in *;
    try reflexivity; try discriminate.
  f_equal. apply IH. lia.
Qed.

Lemma ctx_load128_lane ctx off : ctx_ok ctx -> lane_ok (ctx_load128 ctx off).
Proof.
  intros [He Hd]. unfold ctx_load128.
  assert (H0 : lane_ok 0) by (unfold lane_ok; lia).
  unfold lanes_ok in *. rewrite Forall_forall in He, Hd.
  destruct (off <? 240).
  - destruct (nth_in_or_default (Z.to_nat (off / 16)) (key_enc ctx) 0) as [H|H]; [auto|now rewrite H].
  - destruct (nth_in_or_default (Z.to_nat ((off - 240) / 16)) (key_dec ctx) 0) as [H|H]; [auto|now rewrite H].
Qed.

Lemma KEYi_loaded VL avx ctx KEY i :
  (i = 0 \/ (avx = true /\ 1 <= i <= 14)) ->
  KEYi (_load_round_keys VL avx ctx KEY) i = _vbroadcast128 VL (ctx_load128 ctx (KEY + i * 16)).
Proof.
  intros [->|[-> Hi]]; [reflexivity|].
  unfold KEYi, _load_round_keys.
  assert (Hc : i = 1 \/ i = 2 \/ i = 3 \/ i = 4 \/ i = 5 \/ i = 6 \/ i = 7 \/ i = 8 \/ i = 9
               \/ i = 10 \/ i = 11 \/ i = 12 \/ i = 13 \/ i = 14) by lia.
  repeat (destruct Hc as [->|Hc]; [reflexivity|]). subst i. reflexivity.
Qed.

Lemma xmm_bcast VL x : VL_ok VL -> of_xmm (xmm (_vbroadcast128 VL x)) = [x].
Proof. intros [->|[->| ->]]; reflexivity. Qed.

Lemma vaes_lanes enc last k (data : vec) :
  _vaes enc last (repeat k (length data)) data = map (aes_round enc last k) data.
Proof.
  unfold _vaes, aes_round. destruct enc, last; apply vop2_bcast_r.
Qed.

Lemma vaes_1x_spec VL avx ctx KEY enc last i (sfx : bool) (data : vec) :
  VL_ok VL -> 1 <= i <= 14 ->
  length data = (if sfx then 1%nat else nlanes VL) ->
  _vaes_1x VL avx ctx KEY (_load_round_keys VL avx ctx KEY) enc last i sfx data
  = map (aes_round enc last (ctx_load128 ctx (KEY + i * 16))) data.
Proof.
  intros HVL Hi Hlen. unfold _vaes_1x. destruct avx.
  - rewrite KEYi_loaded by auto. destruct sfx.
    + rewrite xmm_bcast by auto. change [ctx_load128 ctx (KEY + i * 16)]
        with (repeat (ctx_load128 ctx (KEY + i * 16)) 1). rewrite <- Hlen. apply vaes_lanes.
    + unfold _vbroadcast128. rewrite <- Hlen. apply vaes_lanes.
  - destruct sfx.
    + unfold of_xmm. change [ctx_load128 ctx (KEY + i * 16)]
        with (repeat (ctx_load128 ctx (KEY + i * 16)) 1). rewrite <- Hlen. apply vaes_lanes.
    + unfold _vbroadcast128. rewrite <- Hlen. apply vaes_lanes.
Qed.

Lemma xor3_key_entry VL avx k (sfx : bool) (tweak data : vec) :
  VL_ok VL -> lane_ok k -> lanes_ok tweak -> lanes_ok data ->
  length tweak = length data ->
  length data = (if sfx then 1%nat else nlanes VL) ->
  _xor3 avx (if sfx then of_xmm (xmm (_vbroadcast128 VL k)) else _vbroadcast128 VL k) tweak data
  = map (fun p => Z.lxor (Z.lxor (snd p) (fst p)) k) (combine tweak data).
Proof.
  intros HVL Hk Ht Hd Hl Hlen.
  assert (E : (if sfx then of_xmm (xmm (_vbroadcast128 VL k)) else _vbroadcast128 VL k)
              = map (fun _ => k) (combine tweak data)).
  { rewrite <- repeat_as_map, length_combine, Hl, Nat.min_id, Hlen.
    destruct sfx; [now apply xmm_bcast|reflexivity]. }
  rewrite E.
  assert (Et : tweak = map fst (combine tweak data)).
  { clear -Hl. revert data Hl. induction tweak as [|x t IH]; intros [|y d] Hl; simpl in *;
      try reflexivity; try discriminate. f_equal. apply IH. lia. }
  assert (Ed : data = map snd (combine tweak data)).
  { clear -Hl. revert data Hl. induction tweak as [|x t IH]; intros [|y d] Hl; simpl in *;
      try reflexivity; try discriminate. f_equal. apply IH. lia. }
  assert (Hin : forall p, In p (combine tweak data) -> lane_ok (fst p) /\ lane_ok (snd p)).
  { intros [x y] Hin. cbn [fst snd]. unfold lanes_ok in *. rewrite Forall_forall in Ht, Hd.
    split; [apply Ht; eapply in_combine_l; eauto|apply Hd; eapply in_combine_r; eauto]. }
  remember (combine tweak data) as c eqn:Hc. clear Hc. rewrite Et, Ed.
  rewrite xor3_map.
  - apply map_ext. intros p. xor_ac.
  - intros p Hp. destruct (Hin p Hp). auto.
Qed.

Lemma vaes_1x_rounds VL avx ctx enc (sfx : bool) (data : vec) :
  VL_ok VL -> keylen_ok ctx ->
  length data = (if sfx then 1%nat else nlanes VL) ->
  let KEY := KEY_of enc in
  let keys := _load_round_keys VL avx ctx KEY in
  let d := _vaes_1x VL avx ctx KEY keys enc false 1 sfx data in
  let d := _vaes_1x VL avx ctx KEY keys enc false 2 sfx d in
  let d := _vaes_1x VL avx ctx KEY keys enc false 3 sfx d in
  let d := _vaes_1x VL avx ctx KEY keys enc false 4 sfx d in
  let d := _vaes_1x VL avx ctx KEY keys enc false 5 sfx d in
  let d := _vaes_1x VL avx ctx KEY keys enc false 6 sfx d in
  let d := _vaes_1x VL avx ctx KEY keys enc false 7 sfx d in
  let d := _vaes_1x VL avx ctx KEY keys enc false 8 sfx d in
  let d := _vaes_1x VL avx ctx KEY keys enc false 9 sfx d in
  (if signed 32 (KEYLEN ctx) <=? 24 then
     if KEYLEN ctx =? 24 then
       let d := _vaes_1x VL avx ctx KEY keys enc false 10 sfx d in
       let d := _vaes_1x VL avx ctx KEY keys enc false 11 sfx d in
       _vaes_1x VL avx ctx KEY keys enc true 12 sfx d
     else
       _vaes_1x VL avx ctx KEY keys enc true 10 sfx d
   else
     let d := _vaes_1x VL avx ctx KEY keys enc false 10 sfx d in
     let d := _vaes_1x VL avx ctx KEY keys enc false 11 sfx d in
     let d := _vaes_1x VL avx ctx KEY keys enc false 12 sfx d in
     let d := _vaes_1x VL avx ctx KEY keys enc false 13 sfx d in
     _vaes_1x VL avx ctx KEY keys enc true 14 sfx d)
  = map (Rounds enc ctx) data.
Proof.
  intros HVL Hkl Hlen. cbv zeta. unfold KEYLEN.
  rewrite (vaes_1x_spec VL avx ctx (KEY_of enc) enc false 1 sfx data) by (auto; lia).
  destruct Hkl as [Hk|[Hk|Hk]]; rewrite Hk;
    [ change (signed 32 16 <=? 24) with true; change (16 =? 24) with false
    | change (signed 32 24 <=? 24) with true; change (24 =? 24) with true
    | change (signed 32 32 <=? 24) with false ];
    cbv iota;
    repeat (rewrite (vaes_1x_spec VL avx ctx (KEY_of enc) enc _ _ sfx (map _ _))
              by (auto; try lia; now rewrite ?length_map));
    rewrite !map_map; apply map_ext; intros s;
    unfold Rounds; rewrite Hk;
    [change (Nr 16) with 10%nat|change (Nr 24) with 12%nat|change (Nr 32) with 14%nat];
    cbn [Nat.sub seq map fold_left Z.of_nat Pos.of_succ_nat Pos.succ];
    unfold round_key, KEY_of; reflexivity.

Qed.

Lemma aes_crypt_spec VL avx ctx enc (sfx : bool) (tweak data : vec) :
  VL_ok VL -> keylen_ok ctx -> ctx_ok ctx ->
  lanes_ok tweak -> lanes_ok data -> length tweak = length data ->
  length data = (if sfx then 1%nat else nlanes VL) ->
  _aes_crypt VL avx ctx (KEY_of enc) (_load_round_keys VL avx ctx (KEY_of enc)) enc sfx tweak data
  = map (fun p => xts_block enc ctx (fst p) (snd p)) (combine tweak data).
Proof.
  intros HVL Hkl Hctx Ht Hd Hl Hlen. unfold _aes_crypt. cbv zeta.
  rewrite KEYi_loaded by auto.
  rewrite xor3_key_entry by (auto using ctx_load128_lane).
  assert (Hc : length (combine tweak data) = (if sfx then 1%nat else nlanes VL))
    by (now rewrite length_combine, Hl, Nat.min_id).
  pose proof (vaes_1x_rounds VL avx ctx enc sfx
    (map (fun p => Z.lxor (Z.lxor (snd p) (fst p)) (ctx_load128 ctx (KEY_of enc + 0 * 16)))
         (combine tweak data)) HVL Hkl ltac:(now rewrite length_map)) as HR.
  cbv zeta in HR. rewrite HR. rewrite map_map. unfold _vpxor.
  rewrite vop2_combine_l by exact Hl.
  apply map_ext. intros [t d]. cbn [fst snd]. unfold xts_block, Cipher, vpxor.
  apply Z.lxor_comm.
Qed.

(** ** Bytes, lanes and memory *)

Lemma byte_range i x : byte_ok (byte i x).
Proof. unfold byte_ok, byte. change 256 with (2 ^ 8). apply mask_range. lia. Qed.

Lemma zseq_length n : length (zseq n) = n.
Proof. unfold zseq. now rewrite length_map, length_seq. Qed.

Lemma zseq_S n : zseq (S n) = zseq n ++ [Z.of_nat n].
Proof. unfold zseq. rewrite seq_S, map_app. reflexivity. Qed.

Lemma in_zseq n i : In i (zseq n) <-> 0 <= i < Z.of_nat n.
Proof.
  unfold zseq. rewrite in_map_iff. split.
  - intros (k & <- & Hk). apply in_seq in Hk. lia.
  - intros Hi. exists (Z.to_nat i). split; [lia|]. apply in_seq. lia.
Qed.

Lemma nth_zseq n i d : (i < n)%nat -> nth i (zseq n) d = Z.of_nat i.
Proof.
  intros Hi. unfold zseq. rewrite (nth_indep _ d (Z.of_nat 0)) by (now rewrite length_map, length_seq).
  rewrite map_nth, seq_nth by lia. reflexivity.
Qed.

Lemma of_bytes_range l : Forall byte_ok l -> 0 <= of_bytes l < 2 ^ (8 * Z.of_nat (length l)).
Proof.
  induction 1 as [|b l Hb Hl IH]; [vm_compute; split; congruence|].
  cbn [of_bytes length]. unfold byte_ok in Hb.
  replace (8 * Z.of_nat (S (length l))) with (8 * Z.of_nat (length l) + 8) by lia.
  pose proof (shiftl_range (8 * Z.of_nat (length l)) 8 _ ltac:(lia) ltac:(lia) IH) as Hs.
  assert (2 ^ 8 <= 2 ^ (8 * Z.of_nat (length l) + 8)) by (apply Z.pow_le_mono_r; lia).
  apply lor_range; [lia| |lia]. change (2 ^ 8) with 256 in *. lia.
Qed.

Lemma byte_of_bytes l i :
  Forall byte_ok l -> (i < length l)%nat -> byte (Z.of_nat i) (of_bytes l) = nth i l 0.
Proof.
  intros Hl. revert i. induction Hl as [|b l Hb Hl IH]; intros i Hi; [simpl in Hi; lia|].
  cbn [of_bytes]. unfold byte_ok in Hb. destruct i as [|i].
  - cbn [nth]. unfold byte. apply Z.bits_inj'; intros j Hj.
    change (2 ^ 8) with 256 in *.
    assert (Hb8 : 0 <= b < 2 ^ 8) by (change (2 ^ 8) with 256; lia).
    bit_rw. bit_cmp; bit_neg; bit_high; bit_idx; bit_bool; auto.
  - cbn [nth]. rewrite <- IH by (simpl in Hi; lia). unfold byte.
    assert (Hb8 : 0 <= b < 2 ^ 8) by (change (2 ^ 8) with 256; lia).
    apply Z.bits_inj'; intros j Hj.
    bit_rw. bit_cmp; bit_neg; bit_high; bit_idx; bit_bool; auto.
Qed.

Lemma bytes_of_length x : length (bytes_of x) = 16%nat.
Proof. unfold bytes_of. now rewrite length_map, zseq_length. Qed.

Lemma nth_bytes_of x i : (i < 16)%nat -> nth i (bytes_of x) 0 = byte (Z.of_nat i) x.
Proof.
  intros Hi. unfold bytes_of.
  rewrite (nth_indep _ 0 (byte 0 x)) by (now rewrite length_map, zseq_length).
  rewrite (map_nth (fun i => byte i x) (zseq 16) 0). now rewrite nth_zseq.
Qed.

Lemma bytes_of_ok x : Forall byte_ok (bytes_of x).
Proof.
  unfold bytes_of. apply Forall_forall. intros b Hb. apply in_map_iff in Hb.
  destruct Hb as (i & <- & _). apply byte_range.
Qed.

Lemma bytes_of_of_bytes l : Forall byte_ok l -> length l = 16%nat -> bytes_of (of_bytes l) = l.
Proof.
  intros Hl Hlen. apply (nth_ext _ _ 0 0); [now rewrite bytes_of_length|].
  intros i Hi. rewrite bytes_of_length in Hi.
  rewrite nth_bytes_of by lia. apply byte_of_bytes; [auto|lia].
Qed.

Lemma of_bytes_lane l : Forall byte_ok l -> length l = 16%nat -> lane_ok (of_bytes l).
Proof.
  intros Hl Hlen. pose proof (of_bytes_range l Hl) as H. rewrite Hlen in H. exact H.
Qed.

Lemma testbit_byte i x j : 0 <= i -> 0 <= j ->
  Z.testbit (byte i x) j = Z.testbit x (j + 8 * i) && (j <? 8).
Proof. intros Hi Hj. unfold byte. bit_rw. bit_cmp; bit_bool; auto. Qed.

Lemma testbit_of_bytes l j : Forall byte_ok l -> 0 <= j ->
  Z.testbit (of_bytes l) j = Z.testbit (nth (Z.to_nat (j / 8)) l 0) (j mod 8).
Proof.
  intros Hl. revert j. induction Hl as [|b l Hb Hl IH]; intros j Hj.
  - cbn [of_bytes]. destruct (Z.to_nat (j / 8)); now rewrite !Z.bits_0.
  - cbn [of_bytes]. unfold byte_ok in Hb.
    assert (Hb8 : 0 <= b < 2 ^ 8) by (change (2 ^ 8) with 256; lia).
    rewrite Z.lor_spec, testbit_shiftl.
    destruct (Z.ltb_spec j 8) as [Hlt|Hge].
    + rewrite Z.div_small, Z.mod_small by lia. cbn [Z.to_nat nth].
      rewrite (testbit_neg_idx _ (j - 8)) by lia. now rewrite andb_false_r, orb_false_r.
    + rewrite (testbit_high 8 b j) by lia.
      destruct (Z.leb_spec 0 j); [|lia]. cbn [orb andb].
      rewrite IH by lia.
      replace (j / 8) with ((j - 8) / 8 + 1) by (Z.div_mod_to_equations; lia).
      replace (j mod 8) with ((j - 8) mod 8) by (Z.div_mod_to_equations; lia).
      assert (0 <= (j - 8) / 8) by (apply Z.div_pos; lia).
      replace (Z.to_nat ((j - 8) / 8 + 1)) with (S (Z.to_nat ((j - 8) / 8))) by lia.
      reflexivity.
Qed.

Lemma of_bytes_bytes_of x : lane_ok x -> of_bytes (bytes_of x) = x.
Proof.
  intros Hx. unfold lane_ok in Hx. apply Z.bits_inj'; intros j Hj.
  rewrite testbit_of_bytes by (auto using bytes_of_ok).
  destruct (Z.ltb_spec j 128) as [Hlt|Hge].
  - assert (0 <= j / 8 < 16) by (Z.div_mod_to_equations; lia).
    rewrite nth_bytes_of by lia. rewrite testbit_byte by (try lia; apply Z.mod_pos_bound; lia).
    replace (Z.testbit x (j mod 8 + 8 * Z.of_nat (Z.to_nat (j / 8)))) with (Z.testbit x j)
      by (f_equal; Z.div_mod_to_equations; lia).
    destruct (Z.ltb_spec (j mod 8) 8); [now rewrite andb_true_r|].
    pose proof (Z.mod_pos_bound j 8). lia.
  - rewrite (testbit_high 128 x j) by lia.
    rewrite nth_overflow; [apply Z.bits_0|].
    rewrite bytes_of_length. assert (16 <= j / 8) by (Z.div_mod_to_equations; lia). lia.
Qed.

Lemma store128_spec m a v x :
  store128 m a v x = if (a <=? x) && (x <? a + 16) then byte (x - a) v else m x.
Proof.
  unfold store128, store_bytes. rewrite bytes_of_length.
  change (Z.of_nat 16) with 16.
  destruct (Z.leb_spec a x); [|reflexivity]. destruct (Z.ltb_spec x (a + 16)); [|reflexivity].
  cbn [andb]. rewrite nth_bytes_of by lia. f_equal. lia.
Qed.

Lemma load128_ext m m' a a' :
  (forall i, 0 <= i < 16 -> m (a + i) = m' (a' + i)) -> load128 m a = load128 m' a'.
Proof.
  intros H. unfold load128, load_bytes. f_equal. apply map_ext_in.
  intros i Hi. apply in_zseq in Hi. apply H. lia.
Qed.

Lemma load_bytes_ok m a n : mem_ok m -> Forall byte_ok (load_bytes m a n).
Proof.
  intros Hm. unfold load_bytes. apply Forall_forall. intros b Hb.
  apply in_map_iff in Hb. destruct Hb as (i & <- & _). apply Hm.
Qed.

Lemma load_bytes_length m a n : length (load_bytes m a n) = n.
Proof. unfold load_bytes. now rewrite length_map, zseq_length. Qed.

Lemma load128_lane m a : mem_ok m -> lane_ok (load128 m a).
Proof.
  intros Hm. apply of_bytes_lane; [now apply load_bytes_ok|apply load_bytes_length].
Qed.

Lemma byte_load128 m a i : mem_ok m -> 0 <= i < 16 -> byte i (load128 m a) = m (a + i).
Proof.
  intros Hm Hi. unfold load128. replace i with (Z.of_nat (Z.to_nat i)) at 1 by lia.
  rewrite byte_of_bytes by (auto using load_bytes_ok; rewrite load_bytes_length; lia).
  unfold load_bytes. rewrite (nth_indep _ 0 (m (a + 0))) by (rewrite length_map, zseq_length; lia).
  rewrite (map_nth (fun i => m (a + i)) (zseq 16) 0). rewrite nth_zseq by lia. f_equal. lia.
Qed.

Lemma load128_store128 m a v : lane_ok v -> load128 (store128 m a v) a = v.
Proof.
  intros Hv. rewrite <- (of_bytes_bytes_of v Hv) at 2. unfold load128. f_equal.
  unfold load_bytes, bytes_of. apply map_ext_in. intros i Hi. apply in_zseq in Hi.
  rewrite store128_spec.
  destruct (Z.leb_spec a (a + i)); [|lia]. destruct (Z.ltb_spec (a + i) (a + 16)); [|lia].
  cbn [andb]. f_equal. lia.
Qed.

Lemma store128_ok m a v : mem_ok m -> mem_ok (store128 m a v).
Proof.
  intros Hm x. rewrite store128_spec.
  destruct ((a <=? x) && (x <? a + 16)); [apply byte_range|apply Hm].
Qed.

Lemma store_lanes_ok m a v : mem_ok m -> mem_ok (store_lanes m a v).
Proof.
  revert m a. induction v as [|x v IH]; intros m a Hm; [exact Hm|].
  cbn [store_lanes]. apply IH. now apply store128_ok.
Qed.

(* Two memories whose bytes are in range hold the same 16 bytes where
   their 16-byte loads agree. *)
Lemma load128_inj m m' a a' i :
  mem_ok m -> mem_ok m' -> load128 m a = load128 m' a' -> 0 <= i < 16 ->
  m (a + i) = m' (a' + i).
Proof.
  intros Hm Hm' E Hi. rewrite <- (byte_load128 m a i), <- (byte_load128 m' a' i) by auto.
  now rewrite E.
Qed.

(** ** Blocks processed so far *)

Section Blocks.

Variable enc : bool.
Variable ctx : crypto_aes_ctx.
Variable t : Z.
Variable m0 : mem.
Variables src dst : Z.

Lemma blocks_mem_0 : mem_eq (blocks_mem enc ctx t m0 src dst 0) m0.
Proof.
  intros a. unfold blocks_mem. change (Z.of_nat 0) with 0.
  destruct (Z.leb_spec dst a); destruct (Z.ltb_spec a (dst + 16 * 0)); try reflexivity; lia.
Qed.

(* Storing the image of block k extends the processed prefix. *)
Lemma blocks_mem_store (m : mem) (k : nat) :
  mem_eq m (blocks_mem enc ctx t m0 src dst k) ->
  mem_eq (store128 m (dst + 16 * Z.of_nat k) (xts_blk enc ctx t m0 src k))
         (blocks_mem enc ctx t m0 src dst (S k)).
Proof.
  intros Hm a. rewrite store128_spec, Hm. unfold blocks_mem.
  destruct (Z.leb_spec (dst + 16 * Z.of_nat k) a) as [H1|H1];
    destruct (Z.ltb_spec a (dst + 16 * Z.of_nat k + 16)) as [H2|H2]; cbn [andb].
  - destruct (Z.leb_spec dst a); [|lia].
    destruct (Z.ltb_spec a (dst + 16 * Z.of_nat (S k))); [|lia]. cbn [andb].
    replace ((a - dst) / 16) with (Z.of_nat k) by (Z.div_mod_to_equations; lia).
    replace ((a - dst) mod 16) with (a - (dst + 16 * Z.of_nat k)) by (Z.div_mod_to_equations; lia).
    now rewrite Nat2Z.id.
  - destruct (Z.leb_spec dst a); destruct (Z.ltb_spec a (dst + 16 * Z.of_nat k));
      destruct (Z.ltb_spec a (dst + 16 * Z.of_nat (S k))); cbn [andb]; try reflexivity; lia.
  - destruct (Z.leb_spec dst a); destruct (Z.ltb_spec a (dst + 16 * Z.of_nat k));
      destruct (Z.ltb_spec a (dst + 16 * Z.of_nat (S k))); cbn [andb]; try reflexivity; lia.
  - lia.
Qed.

(* Source blocks not yet processed are still those of the initial memory,
   also when the buffers coincide. *)
Lemma blocks_mem_fresh (m : mem) (k : nat) (len a : Z) :
  mem_eq m (blocks_mem enc ctx t m0 src dst k) ->
  buffers_ok src dst len -> 16 * Z.of_nat k <= a - src -> a < src + len ->
  16 * Z.of_nat k <= len ->
  m a = m0 a.
Proof.
  intros Hm Hb Hk Ha Hlen. rewrite Hm. unfold blocks_mem.
  destruct (Z.leb_spec dst a); destruct (Z.ltb_spec a (dst + 16 * Z.of_nat k));
    cbn [andb]; try reflexivity.
  unfold buffers_ok in Hb. lia.
Qed.

Lemma blocks_mem_load (m : mem) (k j : nat) (len : Z) :
  mem_eq m (blocks_mem enc ctx t m0 src dst k) ->
  buffers_ok src dst len -> (k <= j)%nat -> 16 * Z.of_nat j + 16 <= len ->
  load128 m (src + 16 * Z.of_nat j) = load128 m0 (src + 16 * Z.of_nat j).
Proof.
  intros Hm Hb Hkj Hj. apply load128_ext. intros i Hi.
  apply (blocks_mem_fresh m k len); auto; lia.
Qed.

(* A processed block reads back as its image. *)
Lemma blocks_mem_read (k j : nat) :
  (j < k)%nat -> lane_ok (xts_blk enc ctx t m0 src j) ->
  load128 (blocks_mem enc ctx t m0 src dst k) (dst + 16 * Z.of_nat j) = xts_blk enc ctx t m0 src j.
Proof.
  intros Hj Hl. rewrite <- (of_bytes_bytes_of _ Hl). unfold load128. f_equal.
  unfold load_bytes, bytes_of. apply map_ext_in. intros i Hi. apply in_zseq in Hi.
  unfold blocks_mem.
  destruct (Z.leb_spec dst (dst + 16 * Z.of_nat j + i)); [|lia].
  destruct (Z.ltb_spec (dst + 16 * Z.of_nat j + i) (dst + 16 * Z.of_nat k)); [|lia].
  cbn [andb].
  replace ((dst + 16 * Z.of_nat j + i - dst) / 16) with (Z.of_nat j) by (Z.div_mod_to_equations; lia).
  replace ((dst + 16 * Z.of_nat j + i - dst) mod 16) with i by (Z.div_mod_to_equations; lia).
  now rewrite Nat2Z.id.
Qed.

End Blocks.

(** ** The AES round instructions: ranges *)

Lemma byte_ok_dec_all (f : Z -> Z) :
  forallb (fun b => (0 <=? f b) && (f b <? 256)) (zseq 256) = true ->
  forall b, byte_ok b -> byte_ok (f b).
Proof.
  intros H b Hb. rewrite forallb_forall in H.
  specialize (H b). unfold byte_ok in *. rewrite in_zseq in H.
  specialize (H ltac:(lia)). lia.
Qed.

Lemma nth_table_ok (tbl : list Z) i : Forall byte_ok tbl -> byte_ok (nth i tbl 0).
Proof.
  intros H. destruct (nth_in_or_default i tbl 0) as [Hi|Hi].
  - rewrite Forall_forall in H. auto.
  - rewrite Hi. unfold byte_ok. lia.
Qed.

Lemma forallb_byte_ok l :
  forallb (fun b => (0 <=? b) && (b <? 256)) l = true -> Forall byte_ok l.
Proof.
  intros H. rewrite forallb_forall in H. apply Forall_forall. intros b Hb.
  specialize (H b Hb). unfold byte_ok. lia.
Qed.

Lemma sbox_ok : Forall byte_ok sbox.
Proof. apply forallb_byte_ok. vm_compute. reflexivity. Qed.

Lemma inv_sbox_ok : Forall byte_ok inv_sbox.
Proof. apply forallb_byte_ok. vm_compute. reflexivity. Qed.

Lemma SubByte_ok b : byte_ok (SubByte b).
Proof. apply nth_table_ok, sbox_ok. Qed.

Lemma InvSubByte_ok b : byte_ok (InvSubByte b).
Proof. apply nth_table_ok, inv_sbox_ok. Qed.

Lemma lxor_byte a b : byte_ok a -> byte_ok b -> byte_ok (Z.lxor a b).
Proof. unfold byte_ok. change 256 with (2 ^ 8). apply lxor_range. lia. Qed.

Lemma xtime_ok b : byte_ok (xtime b).
Proof.
  unfold xtime. apply lxor_byte.
  - unfold byte_ok. change 256 with (2 ^ 8). apply mask_range. lia.
  - unfold byte_ok. destruct (Z.testbit b 7); lia.
Qed.

Ltac bytes :=
  repeat match goal with
  | H : byte_ok ?x |- byte_ok ?x => exact H
  | |- byte_ok (Z.lxor _ _) => apply lxor_byte
  | |- byte_ok (xor4 _ _ _ _) => unfold xor4
  | |- byte_ok (xtime _) => apply xtime_ok
  | |- byte_ok (mul2 _) => unfold mul2
  | |- byte_ok (mul3 _) => unfold mul3
  | |- byte_ok (mul9 _) => unfold mul9
  | |- byte_ok (mul11 _) => unfold mul11
  | |- byte_ok (mul13 _) => unfold mul13
  | |- byte_ok (mul14 _) => unfold mul14
  | |- byte_ok (SubByte _) => apply SubByte_ok
  | |- byte_ok (InvSubByte _) => apply InvSubByte_ok
  | |- byte_ok (byte _ _) => apply byte_range
  end.

Lemma state_ok_inv s : state_ok s ->
  exists b0 b1 b2 b3 b4 b5 b6 b7 b8 b9 b10 b11 b12 b13 b14 b15,
    s = [b0; b1; b2; b3; b4; b5; b6; b7; b8; b9; b10; b11; b12; b13; b14; b15] /\
    byte_ok b0 /\ byte_ok b1 /\ byte_ok b2 /\ byte_ok b3 /\ byte_ok b4 /\ byte_ok b5 /\
    byte_ok b6 /\ byte_ok b7 /\ byte_ok b8 /\ byte_ok b9 /\ byte_ok b10 /\ byte_ok b11 /\
    byte_ok b12 /\ byte_ok b13 /\ byte_ok b14 /\ byte_ok b15.
Proof.
  intros [Hl Hf].
  do 16 (destruct s as [|? s]; [discriminate Hl|]). destruct s; [|discriminate Hl].
  rewrite !Forall_cons_iff in Hf.
  do 16 eexists. split; [reflexivity|]. intuition.
Qed.

Ltac state_inv s H :=
  destruct (state_ok_inv s H) as
    (?b & ?b & ?b & ?b & ?b & ?b & ?b & ?b & ?b & ?b & ?b & ?b & ?b & ?b & ?b & ?b & -> &
     ? & ? & ? & ? & ? & ? & ? & ? & ? & ? & ? & ? & ? & ? & ? & ?).

Ltac state_tac :=
  cbv [ShiftRows InvShiftRows permute SubBytes InvSubBytes MixColumns InvMixColumns map nth];
  split; [reflexivity|repeat (apply Forall_cons; [bytes|]); apply Forall_nil].

Lemma bytes_of_state x : state_ok (bytes_of x).
Proof. split; [apply bytes_of_length|apply bytes_of_ok]. Qed.

Lemma ShiftRows_ok s : state_ok s -> state_ok (ShiftRows s).
Proof. intros H. state_inv s H. state_tac. Qed.

Lemma InvShiftRows_ok s : state_ok s -> state_ok (InvShiftRows s).
Proof. intros H. state_inv s H. state_tac. Qed.

Lemma SubBytes_ok s : state_ok s -> state_ok (SubBytes s).
Proof. intros H. state_inv s H. state_tac. Qed.

Lemma InvSubBytes_ok s : state_ok s -> state_ok (InvSubBytes s).
Proof. intros H. state_inv s H. state_tac. Qed.

Lemma MixColumns_ok s : state_ok s -> state_ok (MixColumns s).
Proof. intros H. state_inv s H. state_tac. Qed.

Lemma InvMixColumns_ok s : state_ok s -> state_ok (InvMixColumns s).
Proof. intros H. state_inv s H. state_tac. Qed.

Lemma of_state_lane s : state_ok s -> lane_ok (of_bytes s).
Proof. intros [Hl Hf]. now apply of_bytes_lane. Qed.

Lemma aes_round_lane enc last k d : lane_ok k -> lane_ok (aes_round enc last k d).
Proof.
  intros Hk. unfold aes_round, vaesenc, vaesenclast, vaesdec, vaesdeclast.
  destruct enc, last; apply lxor_lane; auto; apply of_state_lane;
    auto using bytes_of_state, ShiftRows_ok, InvShiftRows_ok, SubBytes_ok, InvSubBytes_ok,
      MixColumns_ok, InvMixColumns_ok.
Qed.

Lemma Cipher_lane enc ctx b : ctx_ok ctx -> lane_ok (Cipher enc ctx b).
Proof.
  intros Hctx. unfold Cipher. apply aes_round_lane. now apply ctx_load128_lane.
Qed.

(** ** The AES rounds are invertible *)

(* Equalities of XORs of the same terms, bit by bit. *)
Ltac xor_bits :=
  apply Z.bits_inj'; intros ?i ?Hi; rewrite ?Z.lxor_spec, ?Z.bits_0;
  repeat match goal with
  | |- context [Z.testbit ?a ?i] => generalize (Z.testbit a i); intro
  end; btauto.

Lemma xtime_lxor a b : xtime (Z.lxor a b) = Z.lxor (xtime a) (xtime b).
Proof.
  unfold xtime. rewrite Z.lxor_spec.
  assert (E : mask 8 (Z.shiftl (Z.lxor a b) 1)
              = Z.lxor (mask 8 (Z.shiftl a 1)) (mask 8 (Z.shiftl b 1))).
  { apply Z.bits_inj'; intros i Hi. bit_rw. bit_cmp; bit_bool; auto. }
  rewrite E. destruct (Z.testbit a 7), (Z.testbit b 7); cbn [xorb]; xor_bits.
Qed.

Lemma xtime_0 : xtime 0 = 0.
Proof. reflexivity. Qed.

Lemma mul2_lxor a b : mul2 (Z.lxor a b) = Z.lxor (mul2 a) (mul2 b).
Proof. apply xtime_lxor. Qed.
Lemma mul3_lxor a b : mul3 (Z.lxor a b) = Z.lxor (mul3 a) (mul3 b).
Proof. unfold mul3. rewrite xtime_lxor. xor_bits. Qed.
Lemma mul9_lxor a b : mul9 (Z.lxor a b) = Z.lxor (mul9 a) (mul9 b).
Proof. unfold mul9. rewrite !xtime_lxor. xor_bits. Qed.
Lemma mul11_lxor a b : mul11 (Z.lxor a b) = Z.lxor (mul11 a) (mul11 b).
Proof. unfold mul11. rewrite !xtime_lxor. xor_bits. Qed.
Lemma mul13_lxor a b : mul13 (Z.lxor a b) = Z.lxor (mul13 a) (mul13 b).
Proof. unfold mul13. rewrite !xtime_lxor. xor_bits. Qed.
Lemma mul14_lxor a b : mul14 (Z.lxor a b) = Z.lxor (mul14 a) (mul14 b).
Proof. unfold mul14. rewrite !xtime_lxor. xor_bits. Qed.

Lemma xor4_transpose a b c d e f g h i j k l m n o p :
  xor4 (xor4 a b c d) (xor4 e f g h) (xor4 i j k l) (xor4 m n o p)
  = xor4 (xor4 a e i m) (xor4 b f j n) (xor4 c g k o) (xor4 d h l p).
Proof. unfold xor4. xor_bits. Qed.

Lemma byte_fun_eq (f g : Z -> Z) :
  forallb (fun b => f b =? g b) (zseq 256) = true ->
  forall b, byte_ok b -> f b = g b.
Proof.
  intros H b Hb. rewrite forallb_forall in H. apply Z.eqb_eq, H.
  apply in_zseq. unfold byte_ok in Hb. lia.
Qed.

Lemma InvSubByte_SubByte b : byte_ok b -> InvSubByte (SubByte b) = b.
Proof. revert b. apply (byte_fun_eq (fun b => InvSubByte (SubByte b)) (fun b => b)).
  vm_compute. reflexivity. Qed.

Lemma SubByte_InvSubByte b : byte_ok b -> SubByte (InvSubByte b) = b.
Proof. revert b. apply (byte_fun_eq (fun b => SubByte (InvSubByte b)) (fun b => b)).
  vm_compute. reflexivity. Qed.

Lemma InvShiftRows_ShiftRows s : state_ok s -> InvShiftRows (ShiftRows s) = s.
Proof. intros H. state_inv s H. reflexivity. Qed.

Lemma ShiftRows_InvShiftRows s : state_ok s -> ShiftRows (InvShiftRows s) = s.
Proof. intros H. state_inv s H. reflexivity. Qed.

Lemma InvSub_InvShift_Sub_Shift s :
  state_ok s -> InvSubBytes (InvShiftRows (SubBytes (ShiftRows s))) = s.
Proof.
  intros H. state_inv s H.
  cbv [ShiftRows InvShiftRows permute SubBytes InvSubBytes map nth].
  rewrite !InvSubByte_SubByte by assumption. reflexivity.
Qed.

Lemma Sub_Shift_InvSub_InvShift s :
  state_ok s -> SubBytes (ShiftRows (InvSubBytes (InvShiftRows s))) = s.
Proof.
  intros H. state_inv s H.
  cbv [ShiftRows InvShiftRows permute SubBytes InvSubBytes map nth].
  rewrite !SubByte_InvSubByte by assumption. reflexivity.
Qed.

(* The products of the coefficient rows of the two column matrices. *)
Lemma mix_coeff_1 a : byte_ok a ->
  xor4 (mul14 (mul2 a)) (mul11 a) (mul13 a) (mul9 (mul3 a)) = a.
Proof. revert a.
  apply (byte_fun_eq (fun a => xor4 (mul14 (mul2 a)) (mul11 a) (mul13 a) (mul9 (mul3 a)))
                     (fun a => a)). vm_compute. reflexivity. Qed.
Lemma mix_coeff_2 a : byte_ok a ->
  xor4 (mul14 (mul3 a)) (mul11 (mul2 a)) (mul13 a) (mul9 a) = 0.
Proof. revert a.
  apply (byte_fun_eq (fun a => xor4 (mul14 (mul3 a)) (mul11 (mul2 a)) (mul13 a) (mul9 a))
                     (fun _ => 0)). vm_compute. reflexivity. Qed.
Lemma mix_coeff_3 a : byte_ok a ->
  xor4 (mul14 a) (mul11 (mul3 a)) (mul13 (mul2 a)) (mul9 a) = 0.
Proof. revert a.
  apply (byte_fun_eq (fun a => xor4 (mul14 a) (mul11 (mul3 a)) (mul13 (mul2 a)) (mul9 a))
                     (fun _ => 0)). vm_compute. reflexivity. Qed.
Lemma mix_coeff_4 a : byte_ok a ->
  xor4 (mul14 a) (mul11 a) (mul13 (mul3 a)) (mul9 (mul2 a)) = 0.
Proof. revert a.
  apply (byte_fun_eq (fun a => xor4 (mul14 a) (mul11 a) (mul13 (mul3 a)) (mul9 (mul2 a)))
                     (fun _ => 0)). vm_compute. reflexivity. Qed.
Lemma mix_coeff_5 a : byte_ok a ->
  xor4 (mul9 (mul2 a)) (mul14 a) (mul11 a) (mul13 (mul3 a)) = 0.
Proof. intros H. rewrite <- (mix_coeff_4 a H). unfold xor4. xor_bits. Qed.
Lemma mix_coeff_6 a : byte_ok a ->
  xor4 (mul9 (mul3 a)) (mul14 (mul2 a)) (mul11 a) (mul13 a) = a.
Proof. intros H. rewrite <- (mix_coeff_1 a H) at 5. unfold xor4. xor_bits. Qed.
Lemma mix_coeff_7 a : byte_ok a ->
  xor4 (mul9 a) (mul14 (mul3 a)) (mul11 (mul2 a)) (mul13 a) = 0.
Proof. intros H. rewrite <- (mix_coeff_2 a H). unfold xor4. xor_bits. Qed.
Lemma mix_coeff_8 a : byte_ok a ->
  xor4 (mul9 a) (mul14 a) (mul11 (mul3 a)) (mul13 (mul2 a)) = 0.
Proof. intros H. rewrite <- (mix_coeff_3 a H). unfold xor4. xor_bits. Qed.
Lemma mix_coeff_9 a : byte_ok a ->
  xor4 (mul13 (mul2 a)) (mul9 a) (mul14 a) (mul11 (mul3 a)) = 0.
Proof. intros H. rewrite <- (mix_coeff_3 a H). unfold xor4. xor_bits. Qed.
Lemma mix_coeff_10 a : byte_ok a ->
  xor4 (mul13 (mul3 a)) (mul9 (mul2 a)) (mul14 a) (mul11 a) = 0.
Proof. intros H. rewrite <- (mix_coeff_4 a H). unfold xor4. xor_bits. Qed.
Lemma mix_coeff_11 a : byte_ok a ->
  xor4 (mul13 a) (mul9 (mul3 a)) (mul14 (mul2 a)) (mul11 a) = a.
Proof. intros H. rewrite <- (mix_coeff_1 a H) at 5. unfold xor4. xor_bits. Qed.
Lemma mix_coeff_12 a : byte_ok a ->
  xor4 (mul13 a) (mul9 a) (mul14 (mul3 a)) (mul11 (mul2 a)) = 0.
Proof. intros H. rewrite <- (mix_coeff_2 a H). unfold xor4. xor_bits. Qed.
Lemma mix_coeff_13 a : byte_ok a ->
  xor4 (mul11 (mul2 a)) (mul13 a) (mul9 a) (mul14 (mul3 a)) = 0.
Proof. intros H. rewrite <- (mix_coeff_2 a H). unfold xor4. xor_bits. Qed.
Lemma mix_coeff_14 a : byte_ok a ->
  xor4 (mul11 (mul3 a)) (mul13 (mul2 a)) (mul9 a) (mul14 a) = 0.
Proof. intros H. rewrite <- (mix_coeff_3 a H). unfold xor4. xor_bits. Qed.
Lemma mix_coeff_15 a : byte_ok a ->
  xor4 (mul11 a) (mul13 (mul3 a)) (mul9 (mul2 a)) (mul14 a) = 0.
Proof. intros H. rewrite <- (mix_coeff_4 a H). unfold xor4. xor_bits. Qed.
Lemma mix_coeff_16 a : byte_ok a ->
  xor4 (mul11 a) (mul13 a) (mul9 (mul3 a)) (mul14 (mul2 a)) = a.
Proof. intros H. rewrite <- (mix_coeff_1 a H) at 5. unfold xor4. xor_bits. Qed.

Lemma mul9_xor4 a b c d : mul9 (xor4 a b c d) = xor4 (mul9 a) (mul9 b) (mul9 c) (mul9 d).
Proof. unfold xor4. now rewrite !mul9_lxor. Qed.
Lemma mul11_xor4 a b c d : mul11 (xor4 a b c d) = xor4 (mul11 a) (mul11 b) (mul11 c) (mul11 d).
Proof. unfold xor4. now rewrite !mul11_lxor. Qed.
Lemma mul13_xor4 a b c d : mul13 (xor4 a b c d) = xor4 (mul13 a) (mul13 b) (mul13 c) (mul13 d).
Proof. unfold xor4. now rewrite !mul13_lxor. Qed.
Lemma mul14_xor4 a b c d : mul14 (xor4 a b c d) = xor4 (mul14 a) (mul14 b) (mul14 c) (mul14 d).
Proof. unfold xor4. now rewrite !mul14_lxor. Qed.

Lemma xor4_a000 a : xor4 a 0 0 0 = a.
Proof. unfold xor4. xor_bits. Qed.
Lemma xor4_0a00 a : xor4 0 a 0 0 = a.
Proof. unfold xor4. xor_bits. Qed.
Lemma xor4_00a0 a : xor4 0 0 a 0 = a.
Proof. unfold xor4. xor_bits. Qed.
Lemma xor4_000a a : xor4 0 0 0 a = a.
Proof. unfold xor4. xor_bits. Qed.

Lemma InvMixColumn_MixColumn a0 a1 a2 a3 :
  byte_ok a0 -> byte_ok a1 -> byte_ok a2 -> byte_ok a3 ->
  InvMixColumns (MixColumns [a0; a1; a2; a3]) = [a0; a1; a2; a3].
Proof.
  intros H0 H1 H2 H3. cbn [MixColumns InvMixColumns].
  rewrite !mul9_xor4, !mul11_xor4, !mul13_xor4, !mul14_xor4.
  f_equal; [|f_equal; [|f_equal; [|f_equal]]]; rewrite xor4_transpose.
  - rewrite mix_coeff_1, mix_coeff_2, mix_coeff_3, mix_coeff_4 by assumption.
    apply xor4_a000.
  - rewrite mix_coeff_5, mix_coeff_6, mix_coeff_7, mix_coeff_8 by assumption.
    apply xor4_0a00.
  - rewrite mix_coeff_9, mix_coeff_10, mix_coeff_11, mix_coeff_12 by assumption.
    apply xor4_00a0.
  - rewrite mix_coeff_13, mix_coeff_14, mix_coeff_15, mix_coeff_16 by assumption.
    apply xor4_000a.
Qed.

Lemma InvMixColumns_MixColumns s : state_ok s -> InvMixColumns (MixColumns s) = s.
Proof.
  intros H. state_inv s H.
  match goal with
  | |- _ = [?a0; ?a1; ?a2; ?a3; ?a4; ?a5; ?a6; ?a7; ?a8; ?a9; ?a10; ?a11; ?a12; ?a13; ?a14; ?a15] =>
      change (InvMixColumns (MixColumns [a0; a1; a2; a3]) ++
              InvMixColumns (MixColumns [a4; a5; a6; a7]) ++
              InvMixColumns (MixColumns [a8; a9; a10; a11]) ++
              InvMixColumns (MixColumns [a12; a13; a14; a15])
              = [a0; a1; a2; a3] ++ [a4; a5; a6; a7] ++ [a8; a9; a10; a11] ++ [a12; a13; a14; a15])
  end.
  rewrite !InvMixColumn_MixColumn by assumption. reflexivity.
Qed.

Lemma InvMixColumns_xor a b :
  state_ok a -> state_ok b ->
  InvMixColumns (xor_state a b) = xor_state (InvMixColumns a) (InvMixColumns b).
Proof.
  intros Ha Hb. state_inv a Ha. state_inv b Hb.
  cbv [xor_state combine map fst snd InvMixColumns].
  rewrite !mul9_lxor, !mul11_lxor, !mul13_lxor, !mul14_lxor.
  unfold xor4. repeat (f_equal; try xor_bits).
Qed.

Lemma byte_lxor i x y : 0 <= i -> byte i (Z.lxor x y) = Z.lxor (byte i x) (byte i y).
Proof.
  intros Hi. apply Z.bits_inj'; intros j Hj.
  rewrite Z.lxor_spec, !testbit_byte, Z.lxor_spec by lia.
  destruct (j <? 8); btauto.
Qed.

Lemma bytes_of_lxor x y : bytes_of (Z.lxor x y) = xor_state (bytes_of x) (bytes_of y).
Proof.
  unfold bytes_of, xor_state, zseq. cbn [seq map combine fst snd Z.of_nat Pos.of_succ_nat Pos.succ].
  now rewrite !byte_lxor by lia.
Qed.

Lemma xor_state_ok a b : state_ok a -> state_ok b -> state_ok (xor_state a b).
Proof.
  intros Ha Hb. state_inv a Ha. state_inv b Hb.
  cbv [xor_state combine map fst snd].
  split; [reflexivity|repeat (apply Forall_cons; [bytes|]); apply Forall_nil].
Qed.

Lemma of_bytes_xor a b :
  state_ok a -> state_ok b -> of_bytes (xor_state a b) = Z.lxor (of_bytes a) (of_bytes b).
Proof.
  intros Ha Hb.
  rewrite <- (bytes_of_of_bytes a) at 1 by apply Ha.
  rewrite <- (bytes_of_of_bytes b) at 1 by apply Hb.
  rewrite <- bytes_of_lxor. apply of_bytes_bytes_of.
  apply lxor_lane; apply of_state_lane; assumption.
Qed.

Lemma lxor_cancel_r a k : Z.lxor (Z.lxor a k) k = a.
Proof. now rewrite Z.lxor_assoc, Z.lxor_nilpotent, Z.lxor_0_r. Qed.

Lemma sub_shift_state s : state_ok (SubBytes (ShiftRows (bytes_of s))).
Proof. auto using SubBytes_ok, ShiftRows_ok, bytes_of_state. Qed.

Lemma bytes_of_sub_shift s : bytes_of (sub_shift s) = SubBytes (ShiftRows (bytes_of s)).
Proof. unfold sub_shift. apply bytes_of_of_bytes; apply sub_shift_state. Qed.

Lemma vaesenclast_sub_shift k s : vaesenclast k s = Z.lxor (sub_shift s) k.
Proof. reflexivity. Qed.

(* One decryption round undoes one encryption round, one SubBytes/ShiftRows
   layer later. *)
Lemma vaesdec_vaesenc k s :
  lane_ok k -> vaesdec (InvMixColumns_key k) (sub_shift (vaesenc k s)) = sub_shift s.
Proof.
  intros Hk. unfold vaesdec. rewrite bytes_of_sub_shift.
  rewrite InvSub_InvShift_Sub_Shift by apply bytes_of_state.
  unfold vaesenc. rewrite bytes_of_lxor.
  rewrite bytes_of_of_bytes by (apply MixColumns_ok, sub_shift_state).
  rewrite InvMixColumns_xor by (auto using MixColumns_ok, sub_shift_state, bytes_of_state).
  rewrite InvMixColumns_MixColumns by apply sub_shift_state.
  rewrite of_bytes_xor by (auto using sub_shift_state, InvMixColumns_ok, bytes_of_state).
  apply lxor_cancel_r.
Qed.

Lemma vaesdeclast_sub_shift k s : lane_ok s -> vaesdeclast k (sub_shift s) = Z.lxor s k.
Proof.
  intros Hs. unfold vaesdeclast. rewrite bytes_of_sub_shift.
  rewrite InvSub_InvShift_Sub_Shift by apply bytes_of_state.
  now rewrite of_bytes_bytes_of.
Qed.

(** ** Decryption with a valid key schedule undoes encryption *)

Lemma forallb_lane_okb l : forallb lane_okb l = true -> lanes_ok l.
Proof.
  intros H. apply Forall_forall. intros x Hx.
  rewrite forallb_forall in H. specialize (H x Hx). unfold lane_okb in H. unfold lane_ok. lia.
Qed.

Lemma valid_key_schedule_inv ctx :
  valid_key_schedule ctx ->
  keylen_ok ctx /\ ctx_ok ctx /\
  nth 0 (key_dec ctx) 0 = nth (Nr (key_length ctx)) (key_enc ctx) 0 /\
  nth (Nr (key_length ctx)) (key_dec ctx) 0 = nth 0 (key_enc ctx) 0 /\
  forall i, (1 <= i < Nr (key_length ctx))%nat ->
    nth i (key_dec ctx) 0 = InvMixColumns_key (nth (Nr (key_length ctx) - i) (key_enc ctx) 0).
Proof.
  unfold valid_key_schedule, valid_key_scheduleb, dec_schedule_okb, keylen_okb.
  rewrite !andb_true_iff, !orb_true_iff, !Z.eqb_eq.
  intros (((Hk & He) & Hd) & (H0 & Hn) & Hf).
  repeat split; auto using forallb_lane_okb.
  - unfold keylen_ok. tauto.
  - intros i Hi. rewrite forallb_forall in Hf. apply Z.eqb_eq, Hf, in_seq. lia.
Qed.

Lemma nth_lane l i : lanes_ok l -> lane_ok (nth i l 0).
Proof.
  intros H. destruct (Nat.lt_ge_cases i (length l)) as [Hi|Hi].
  - unfold lanes_ok in H. rewrite Forall_forall in H. apply H, nth_In, Hi.
  - rewrite nth_overflow by exact Hi. unfold lane_ok. lia.
Qed.

Lemma round_key_enc ctx i : (i < 15)%nat -> round_key ctx true (Z.of_nat i) = nth i (key_enc ctx) 0.
Proof.
  intros Hi. unfold round_key, ctx_load128.
  destruct (Z.ltb_spec (0 + Z.of_nat i * 16) 240) as [_|H]; [|lia].
  f_equal. rewrite Z.add_0_l, Z.div_mul by lia. apply Nat2Z.id.
Qed.

Lemma round_key_dec ctx i : round_key ctx false (Z.of_nat i) = nth i (key_dec ctx) 0.
Proof.
  unfold round_key, ctx_load128.
  destruct (Z.ltb_spec (240 + Z.of_nat i * 16) 240) as [H|_]; [lia|].
  f_equal. replace (240 + Z.of_nat i * 16 - 240) with (Z.of_nat i * 16) by lia.
  rewrite Z.div_mul by lia. apply Nat2Z.id.
Qed.

Theorem Cipher_dec_enc ctx b :
  valid_key_schedule ctx -> lane_ok b -> Cipher false ctx (Cipher true ctx b) = b.
Proof.
  intros Hv Hb. destruct (valid_key_schedule_inv ctx Hv) as (Hk & [He Hd] & H0 & Hn & Hi).
  assert (Hl : forall i, lane_ok (nth i (key_enc ctx) 0)) by (intros; now apply nth_lane).
  unfold Cipher, Rounds.
  change 0 with (Z.of_nat 0) at 1 2.
  revert H0 Hn Hi.
  destruct Hk as [Hk|[Hk|Hk]]; rewrite Hk;
    cbn [Nr Z.eqb Pos.eqb Nat.sub seq map fold_left aes_round]; intros H0 Hn Hi;
    rewrite !round_key_enc, !round_key_dec by lia; rewrite H0, Hn;
    rewrite !Hi by lia; cbn [Nat.sub];
    rewrite vaesenclast_sub_shift, lxor_cancel_r;
    rewrite !vaesdec_vaesenc by apply Hl;
    (rewrite vaesdeclast_sub_shift by (apply lxor_lane; auto));
    apply lxor_cancel_r.
Qed.

(** ** Encryption with a valid key schedule undoes decryption *)

Lemma unmix_coeff_1 a : byte_ok a ->
  xor4 (mul2 (mul14 a)) (mul3 (mul9 a)) (mul13 a) (mul11 a) = a.
Proof. revert a.
  apply (byte_fun_eq (fun a => xor4 (mul2 (mul14 a)) (mul3 (mul9 a)) (mul13 a) (mul11 a))
                     (fun a => a)). vm_compute. reflexivity. Qed.
Lemma unmix_coeff_2 a : byte_ok a ->
  xor4 (mul2 (mul11 a)) (mul3 (mul14 a)) (mul9 a) (mul13 a) = 0.
Proof. revert a.
  apply (byte_fun_eq (fun a => xor4 (mul2 (mul11 a)) (mul3 (mul14 a)) (mul9 a) (mul13 a))
                     (fun _ => 0)). vm_compute. reflexivity. Qed.
Lemma unmix_coeff_3 a : byte_ok a ->
  xor4 (mul2 (mul13 a)) (mul3 (mul11 a)) (mul14 a) (mul9 a) = 0.
Proof. revert a.
  apply (byte_fun_eq (fun a => xor4 (mul2 (mul13 a)) (mul3 (mul11 a)) (mul14 a) (mul9 a))
                     (fun _ => 0)). vm_compute. reflexivity. Qed.
Lemma unmix_coeff_4 a : byte_ok a ->
  xor4 (mul2 (mul9 a)) (mul3 (mul13 a)) (mul11 a) (mul14 a) = 0.
Proof. revert a.
  apply (byte_fun_eq (fun a => xor4 (mul2 (mul9 a)) (mul3 (mul13 a)) (mul11 a) (mul14 a))
                     (fun _ => 0)). vm_compute. reflexivity. Qed.
Lemma unmix_coeff_5 a : byte_ok a ->
  xor4 (mul14 a) (mul2 (mul9 a)) (mul3 (mul13 a)) (mul11 a) = 0.
Proof. intros H. rewrite <- (unmix_coeff_4 a H). unfold xor4. xor_bits. Qed.
Lemma unmix_coeff_6 a : byte_ok a ->
  xor4 (mul11 a) (mul2 (mul14 a)) (mul3 (mul9 a)) (mul13 a) = a.
Proof. intros H. rewrite <- (unmix_coeff_1 a H) at 5. unfold xor4. xor_bits. Qed.
Lemma unmix_coeff_7 a : byte_ok a ->
  xor4 (mul13 a) (mul2 (mul11 a)) (mul3 (mul14 a)) (mul9 a) = 0.
Proof. intros H. rewrite <- (unmix_coeff_2 a H). unfold xor4. xor_bits. Qed.
Lemma unmix_coeff_8 a : byte_ok a ->
  xor4 (mul9 a) (mul2 (mul13 a)) (mul3 (mul11 a)) (mul14 a) = 0.
Proof. intros H. rewrite <- (unmix_coeff_3 a H). unfold xor4. xor_bits. Qed.
Lemma unmix_coeff_9 a : byte_ok a ->
  xor4 (mul14 a) (mul9 a) (mul2 (mul13 a)) (mul3 (mul11 a)) = 0.
Proof. intros H. rewrite <- (unmix_coeff_3 a H). unfold xor4. xor_bits. Qed.
Lemma unmix_coeff_10 a : byte_ok a ->
  xor4 (mul11 a) (mul14 a) (mul2 (mul9 a)) (mul3 (mul13 a)) = 0.
Proof. intros H. rewrite <- (unmix_coeff_4 a H). unfold xor4. xor_bits. Qed.
Lemma unmix_coeff_11 a : byte_ok a ->
  xor4 (mul13 a) (mul11 a) (mul2 (mul14 a)) (mul3 (mul9 a)) = a.
Proof. intros H. rewrite <- (unmix_coeff_1 a H) at 5. unfold xor4. xor_bits. Qed.
Lemma unmix_coeff_12 a : byte_ok a ->
  xor4 (mul9 a) (mul13 a) (mul2 (mul11 a)) (mul3 (mul14 a)) = 0.
Proof. intros H. rewrite <- (unmix_coeff_2 a H). unfold xor4. xor_bits. Qed.
Lemma unmix_coeff_13 a : byte_ok a ->
  xor4 (mul3 (mul14 a)) (mul9 a) (mul13 a) (mul2 (mul11 a)) = 0.
Proof. intros H. rewrite <- (unmix_coeff_2 a H). unfold xor4. xor_bits. Qed.
Lemma unmix_coeff_14 a : byte_ok a ->
  xor4 (mul3 (mul11 a)) (mul14 a) (mul9 a) (mul2 (mul13 a)) = 0.
Proof. intros H. rewrite <- (unmix_coeff_3 a H). unfold xor4. xor_bits. Qed.
Lemma unmix_coeff_15 a : byte_ok a ->
  xor4 (mul3 (mul13 a)) (mul11 a) (mul14 a) (mul2 (mul9 a)) = 0.
Proof. intros H. rewrite <- (unmix_coeff_4 a H). unfold xor4. xor_bits. Qed.
Lemma unmix_coeff_16 a : byte_ok a ->
  xor4 (mul3 (mul9 a)) (mul13 a) (mul11 a) (mul2 (mul14 a)) = a.
Proof. intros H. rewrite <- (unmix_coeff_1 a H) at 5. unfold xor4. xor_bits. Qed.

Lemma mul2_xor4 a b c d : mul2 (xor4 a b c d) = xor4 (mul2 a) (mul2 b) (mul2 c) (mul2 d).
Proof. unfold xor4. now rewrite !mul2_lxor. Qed.
Lemma mul3_xor4 a b c d : mul3 (xor4 a b c d) = xor4 (mul3 a) (mul3 b) (mul3 c) (mul3 d).
Proof. unfold xor4. now rewrite !mul3_lxor. Qed.

Lemma MixColumn_InvMixColumn a0 a1 a2 a3 :
  byte_ok a0 -> byte_ok a1 -> byte_ok a2 -> byte_ok a3 ->
  MixColumns (InvMixColumns [a0; a1; a2; a3]) = [a0; a1; a2; a3].
Proof.
  intros H0 H1 H2 H3. cbn [MixColumns InvMixColumns].
  rewrite !mul2_xor4, !mul3_xor4.
  f_equal; [|f_equal; [|f_equal; [|f_equal]]]; rewrite xor4_transpose.
  - rewrite unmix_coeff_1, unmix_coeff_2, unmix_coeff_3, unmix_coeff_4 by assumption.
    apply xor4_a000.
  - rewrite unmix_coeff_5, unmix_coeff_6, unmix_coeff_7, unmix_coeff_8 by assumption.
    apply xor4_0a00.
  - rewrite unmix_coeff_9, unmix_coeff_10, unmix_coeff_11, unmix_coeff_12 by assumption.
    apply xor4_00a0.
  - rewrite unmix_coeff_13, unmix_coeff_14, unmix_coeff_15, unmix_coeff_16 by assumption.
    apply xor4_000a.
Qed.

Lemma MixColumns_InvMixColumns s : state_ok s -> MixColumns (InvMixColumns s) = s.
Proof.
  intros H. state_inv s H.
  match goal with
  | |- _ = [?a0; ?a1; ?a2; ?a3; ?a4; ?a5; ?a6; ?a7; ?a8; ?a9; ?a10; ?a11; ?a12; ?a13; ?a14; ?a15] =>
      change (MixColumns (InvMixColumns [a0; a1; a2; a3]) ++
              MixColumns (InvMixColumns [a4; a5; a6; a7]) ++
              MixColumns (InvMixColumns [a8; a9; a10; a11]) ++
              MixColumns (InvMixColumns [a12; a13; a14; a15])
              = [a0; a1; a2; a3] ++ [a4; a5; a6; a7] ++ [a8; a9; a10; a11] ++ [a12; a13; a14; a15])
  end.
  rewrite !MixColumn_InvMixColumn by assumption. reflexivity.
Qed.

Lemma inv_sub_shift_state s : state_ok (InvSubBytes (InvShiftRows (bytes_of s))).
Proof. auto using InvSubBytes_ok, InvShiftRows_ok, bytes_of_state. Qed.

Lemma bytes_of_inv_sub_shift s :
  bytes_of (inv_sub_shift s) = InvSubBytes (InvShiftRows (bytes_of s)).
Proof. unfold inv_sub_shift. apply bytes_of_of_bytes; apply inv_sub_shift_state. Qed.

Lemma vaesdeclast_inv_sub_shift k s : vaesdeclast k s = Z.lxor (inv_sub_shift s) k.
Proof. reflexivity. Qed.

(* One encryption round undoes one decryption round, one
   InvShiftRows/InvSubBytes layer later. *)
Lemma vaesenc_vaesdec k s :
  lane_ok k -> vaesenc k (inv_sub_shift (vaesdec (InvMixColumns_key k) s)) = inv_sub_shift s.
Proof.
  intros Hk. unfold vaesenc. rewrite bytes_of_inv_sub_shift.
  rewrite Sub_Shift_InvSub_InvShift by apply bytes_of_state.
  unfold vaesdec, InvMixColumns_key. rewrite bytes_of_lxor.
  rewrite !bytes_of_of_bytes by (apply InvMixColumns_ok; auto using inv_sub_shift_state, bytes_of_state).
  rewrite <- InvMixColumns_xor by (auto using inv_sub_shift_state, bytes_of_state).
  rewrite MixColumns_InvMixColumns
    by (apply xor_state_ok; auto using inv_sub_shift_state, bytes_of_state).
  rewrite of_bytes_xor by (auto using inv_sub_shift_state, bytes_of_state).
  rewrite (of_bytes_bytes_of k) by exact Hk.
  apply lxor_cancel_r.
Qed.

Lemma vaesenclast_inv_sub_shift k s : lane_ok s -> vaesenclast k (inv_sub_shift s) = Z.lxor s k.
Proof.
  intros Hs. unfold vaesenclast. rewrite bytes_of_inv_sub_shift.
  rewrite Sub_Shift_InvSub_InvShift by apply bytes_of_state.
  now rewrite of_bytes_bytes_of.
Qed.

Theorem Cipher_enc_dec ctx c :
  valid_key_schedule ctx -> lane_ok c -> Cipher true ctx (Cipher false ctx c) = c.
Proof.
  intros Hv Hc. destruct (valid_key_schedule_inv ctx Hv) as (Hk & [He Hd] & H0 & Hn & Hi).
  assert (Hl : forall i, lane_ok (nth i (key_enc ctx) 0)) by (intros; now apply nth_lane).
  unfold Cipher, Rounds.
  change 0 with (Z.of_nat 0) at 1 2.
  revert H0 Hn Hi.
  destruct Hk as [Hk|[Hk|Hk]]; rewrite Hk;
    cbn [Nr Z.eqb Pos.eqb Nat.sub seq map fold_left aes_round]; intros H0 Hn Hi;
    rewrite !round_key_enc, !round_key_dec by lia; rewrite H0, Hn;
    rewrite !Hi by lia; cbn [Nat.sub];
    rewrite vaesdeclast_inv_sub_shift, lxor_cancel_r;
    rewrite !vaesenc_vaesdec by apply Hl;
    (rewrite vaesenclast_inv_sub_shift by (apply lxor_lane; auto));
    apply lxor_cancel_r.
Qed.

(** ** The main loop *)

Lemma vaes_4x_spec VL avx ctx KEY enc last i (d : data_regs) (r : tweak_regs) :
  VL_ok VL -> 1 <= i <= 14 ->
  length (V0 d) = nlanes VL -> length (V1 d) = nlanes VL ->
  length (V2 d) = nlanes VL -> length (V3 d) = nlanes VL ->
  _vaes_4x VL avx ctx KEY (_load_round_keys VL avx ctx KEY) enc last i d r
  = ({| V0 := map (aes_round enc last (ctx_load128 ctx (KEY + i * 16))) (V0 d);
        V1 := map (aes_round enc last (ctx_load128 ctx (KEY + i * 16))) (V1 d);
        V2 := map (aes_round enc last (ctx_load128 ctx (KEY + i * 16))) (V2 d);
        V3 := map (aes_round enc last (ctx_load128 ctx (KEY + i * 16))) (V3 d) |},
     _tweak_step VL (2 * (i - 1) + 1) (_tweak_step VL (2 * (i - 1)) r)).
Proof.
  intros HVL Hi H0 H1 H2 H3. unfold _vaes_4x.
  destruct avx; cbv zeta; rewrite ?KEYi_loaded by auto; unfold _vbroadcast128;
    rewrite <- H0 at 1; rewrite <- H1 at 1; rewrite <- H2 at 1; rewrite <- H3 at 1;
    rewrite !vaes_lanes; reflexivity.
Qed.

Lemma tweak_step_TWEAK0 VL i r : i <> 1000 -> TWEAK0 (_tweak_step VL i r) = TWEAK0 r.
Proof. intros H. apply (tweak_step_keeps VL i r H). Qed.
Lemma tweak_step_TWEAK1 VL i r : i <> 1000 -> TWEAK1 (_tweak_step VL i r) = TWEAK1 r.
Proof. intros H. apply (tweak_step_keeps VL i r H). Qed.
Lemma tweak_step_TWEAK2 VL i r : i <> 1000 -> TWEAK2 (_tweak_step VL i r) = TWEAK2 r.
Proof. intros H. apply (tweak_step_keeps VL i r H). Qed.
Lemma tweak_step_TWEAK3 VL i r : i <> 1000 -> TWEAK3 (_tweak_step VL i r) = TWEAK3 r.
Proof. intros H. apply (tweak_step_keeps VL i r H). Qed.

(* The entry XOR of the main loop, in both codings. *)
Lemma main_entry VL (avx : bool) k (tw v : vec) :
  lane_ok k -> lanes_ok tw -> lanes_ok v -> length tw = length v -> length v = nlanes VL ->
  (if avx then vop3 (vpternlogd 0x96) tw (_vbroadcast128 VL k) v
   else vop2 vpxor tw (vop2 vpxor v (_vbroadcast128 VL k)))
  = map (fun p => Z.lxor (Z.lxor (snd p) (fst p)) k) (combine tw v).
Proof.
  intros Hk Ht Hv Hl Hlen.
  assert (E : _vbroadcast128 VL k = map (fun _ => k) (combine tw v)).
  { rewrite <- repeat_as_map, length_combine, Hl, Nat.min_id, Hlen. reflexivity. }
  assert (Et : tw = map fst (combine tw v)).
  { clear -Hl. revert v Hl. induction tw as [|x t IH]; intros [|y d] Hl; simpl in *;
      try reflexivity; try discriminate. f_equal. apply IH. lia. }
  assert (Ed : v = map snd (combine tw v)).
  { clear -Hl. revert v Hl. induction tw as [|x t IH]; intros [|y d] Hl; simpl in *;
      try reflexivity; try discriminate. f_equal. apply IH. lia. }
  assert (Hin : forall p, In p (combine tw v) -> lane_ok (fst p) /\ lane_ok (snd p)).
  { intros [x y] Hin. cbn [fst snd]. unfold lanes_ok in *. rewrite Forall_forall in Ht, Hv.
    split; [apply Ht; eapply in_combine_l; eauto|apply Hv; eapply in_combine_r; eauto]. }
  rewrite E. remember (combine tw v) as c eqn:Hc. clear Hc. rewrite Et, Ed.
  destruct avx.
  - rewrite vop3_map. apply map_ext_in. intros p Hp. destruct (Hin p Hp).
    rewrite vpternlogd_0x96 by auto. xor_ac.
  - rewrite !vop2_map. apply map_ext. intros p. unfold vpxor. xor_ac.
Qed.

Lemma nlanes_pos VL : VL_ok VL -> (1 <= nlanes VL)%nat /\ VL = 16 * Z.of_nat (nlanes VL).
Proof. intros [->|[->| ->]]; vm_compute; split; try lia; reflexivity. Qed.

Lemma Rounds_16 enc ctx s : key_length ctx = 16 ->
  aes_round enc true (ctx_load128 ctx (KEY_of enc + 10 * 16))
   (aes_round enc false (ctx_load128 ctx (KEY_of enc + 9 * 16))
   (aes_round enc false (ctx_load128 ctx (KEY_of enc + 8 * 16))
   (aes_round enc false (ctx_load128 ctx (KEY_of enc + 7 * 16))
   (aes_round enc false (ctx_load128 ctx (KEY_of enc + 6 * 16))
   (aes_round enc false (ctx_load128 ctx (KEY_of enc + 5 * 16))
   (aes_round enc false (ctx_load128 ctx (KEY_of enc + 4 * 16))
   (aes_round enc false (ctx_load128 ctx (KEY_of enc + 3 * 16))
   (aes_round enc false (ctx_load128 ctx (KEY_of enc + 2 * 16))
   (aes_round enc false (ctx_load128 ctx (KEY_of enc + 1 * 16)) s)))))))))
  = Rounds enc ctx s.
Proof.
  intros Hk. unfold Rounds. rewrite Hk. change (Nr 16) with 10%nat.
  cbn [Nat.sub seq map fold_left Z.of_nat Pos.of_succ_nat Pos.succ].
  unfold round_key, KEY_of. reflexivity.
Qed.

Lemma Rounds_24 enc ctx s : key_length ctx = 24 ->
  aes_round enc true (ctx_load128 ctx (KEY_of enc + 12 * 16))
   (aes_round enc false (ctx_load128 ctx (KEY_of enc + 11 * 16))
   (aes_round enc false (ctx_load128 ctx (KEY_of enc + 10 * 16))
   (aes_round enc false (ctx_load128 ctx (KEY_of enc + 9 * 16))
   (aes_round enc false (ctx_load128 ctx (KEY_of enc + 8 * 16))
   (aes_round enc false (ctx_load128 ctx (KEY_of enc + 7 * 16))
   (aes_round enc false (ctx_load128 ctx (KEY_of enc + 6 * 16))
   (aes_round enc false (ctx_load128 ctx (KEY_of enc + 5 * 16))
   (aes_round enc false (ctx_load128 ctx (KEY_of enc + 4 * 16))
   (aes_round enc false (ctx_load128 ctx (KEY_of enc + 3 * 16))
   (aes_round enc false (ctx_load128 ctx (KEY_of enc + 2 * 16))
   (aes_round enc false (ctx_load128 ctx (KEY_of enc + 1 * 16)) s)))))))))))
  = Rounds enc ctx s.
Proof.
  intros Hk. unfold Rounds. rewrite Hk. change (Nr 24) with 12%nat.
  cbn [Nat.sub seq map fold_left Z.of_nat Pos.of_succ_nat Pos.succ].
  unfold round_key, KEY_of. reflexivity.
Qed.

Lemma Rounds_32 enc ctx s : key_length ctx = 32 ->
  aes_round enc true (ctx_load128 ctx (KEY_of enc + 14 * 16))
   (aes_round enc false (ctx_load128 ctx (KEY_of enc + 13 * 16))
   (aes_round enc false (ctx_load128 ctx (KEY_of enc + 12 * 16))
   (aes_round enc false (ctx_load128 ctx (KEY_of enc + 11 * 16))
   (aes_round enc false (ctx_load128 ctx (KEY_of enc + 10 * 16))
   (aes_round enc false (ctx_load128 ctx (KEY_of enc + 9 * 16))
   (aes_round enc false (ctx_load128 ctx (KEY_of enc + 8 * 16))
   (aes_round enc false (ctx_load128 ctx (KEY_of enc + 7 * 16))
   (aes_round enc false (ctx_load128 ctx (KEY_of enc + 6 * 16))
   (aes_round enc false (ctx_load128 ctx (KEY_of enc + 5 * 16))
   (aes_round enc false (ctx_load128 ctx (KEY_of enc + 4 * 16))
   (aes_round enc false (ctx_load128 ctx (KEY_of enc + 3 * 16))
   (aes_round enc false (ctx_load128 ctx (KEY_of enc + 2 * 16))
   (aes_round enc false (ctx_load128 ctx (KEY_of enc + 1 * 16)) s)))))))))))))
  = Rounds enc ctx s.
Proof.
  intros Hk. unfold Rounds. rewrite Hk. change (Nr 32) with 14%nat.
  cbn [Nat.sub seq map fold_left Z.of_nat Pos.of_succ_nat Pos.succ].
  unfold round_key, KEY_of. reflexivity.
Qed.

Lemma map_Rounds_16 enc ctx (X : vec) : key_length ctx = 16 ->
  map (aes_round enc true (ctx_load128 ctx (KEY_of enc + 10 * 16)))
   (map (aes_round enc false (ctx_load128 ctx (KEY_of enc + 9 * 16)))
   (map (aes_round enc false (ctx_load128 ctx (KEY_of enc + 8 * 16)))
   (map (aes_round enc false (ctx_load128 ctx (KEY_of enc + 7 * 16)))
   (map (aes_round enc false (ctx_load128 ctx (KEY_of enc + 6 * 16)))
   (map (aes_round enc false (ctx_load128 ctx (KEY_of enc + 5 * 16)))
   (map (aes_round enc false (ctx_load128 ctx (KEY_of enc + 4 * 16)))
   (map (aes_round enc false (ctx_load128 ctx (KEY_of enc + 3 * 16)))
   (map (aes_round enc false (ctx_load128 ctx (KEY_of enc + 2 * 16)))
   (map (aes_round enc false (ctx_load128 ctx (KEY_of enc + 1 * 16))) X)))))))))
  = map (Rounds enc ctx) X.
Proof.
  intros Hk. rewrite !map_map. apply map_ext. intros s. now apply Rounds_16.
Qed.

Lemma map_Rounds_24 enc ctx (X : vec) : key_length ctx = 24 ->
  map (aes_round enc true (ctx_load128 ctx (KEY_of enc + 12 * 16)))
   (map (aes_round enc false (ctx_load128 ctx (KEY_of enc + 11 * 16)))
   (map (aes_round enc false (ctx_load128 ctx (KEY_of enc + 10 * 16)))
   (map (aes_round enc false (ctx_load128 ctx (KEY_of enc + 9 * 16)))
   (map (aes_round enc false (ctx_load128 ctx (KEY_of enc + 8 * 16)))
   (map (aes_round enc false (ctx_load128 ctx (KEY_of enc + 7 * 16)))
   (map (aes_round enc false (ctx_load128 ctx (KEY_of enc + 6 * 16)))
   (map (aes_round enc false (ctx_load128 ctx (KEY_of enc + 5 * 16)))
   (map (aes_round enc false (ctx_load128 ctx (KEY_of enc + 4 * 16)))
   (map (aes_round enc false (ctx_load128 ctx (KEY_of enc + 3 * 16)))
   (map (aes_round enc false (ctx_load128 ctx (KEY_of enc + 2 * 16)))
   (map (aes_round enc false (ctx_load128 ctx (KEY_of enc + 1 * 16))) X)))))))))))
  = map (Rounds enc ctx) X.
Proof.
  intros Hk. rewrite !map_map. apply map_ext. intros s. now apply Rounds_24.
Qed.

Lemma map_Rounds_32 enc ctx (X : vec) : key_length ctx = 32 ->
  map (aes_round enc true (ctx_load128 ctx (KEY_of enc + 14 * 16)))
   (map (aes_round enc false (ctx_load128 ctx (KEY_of enc + 13 * 16)))
   (map (aes_round enc false (ctx_load128 ctx (KEY_of enc + 12 * 16)))
   (map (aes_round enc false (ctx_load128 ctx (KEY_of enc + 11 * 16)))
   (map (aes_round enc false (ctx_load128 ctx (KEY_of enc + 10 * 16)))
   (map (aes_round enc false (ctx_load128 ctx (KEY_of enc + 9 * 16)))
   (map (aes_round enc false (ctx_load128 ctx (KEY_of enc + 8 * 16)))
   (map (aes_round enc false (ctx_load128 ctx (KEY_of enc + 7 * 16)))
   (map (aes_round enc false (ctx_load128 ctx (KEY_of enc + 6 * 16)))
   (map (aes_round enc false (ctx_load128 ctx (KEY_of enc + 5 * 16)))
   (map (aes_round enc false (ctx_load128 ctx (KEY_of enc + 4 * 16)))
   (map (aes_round enc false (ctx_load128 ctx (KEY_of enc + 3 * 16)))
   (map (aes_round enc false (ctx_load128 ctx (KEY_of enc + 2 * 16)))
   (map (aes_round enc false (ctx_load128 ctx (KEY_of enc + 1 * 16))) X)))))))))))))
  = map (Rounds enc ctx) X.
Proof.
  intros Hk. rewrite !map_map. apply map_ext. intros s. now apply Rounds_32.
Qed.

(* The exit XOR after the rounds gives the tweaked cipher. *)
Lemma crypt_lanes_rounds enc ctx (tw ld : vec) :
  length tw = length ld ->
  _vpxor tw (map (Rounds enc ctx)
                 (map (fun p => Z.lxor (Z.lxor (snd p) (fst p))
                                       (ctx_load128 ctx (KEY_of enc + 0 * 16)))
                      (combine tw ld)))
  = crypt_lanes enc ctx tw ld.
Proof.
  intros Hl. unfold _vpxor, crypt_lanes. rewrite map_map, vop2_combine_l by exact Hl.
  apply map_ext. intros [x d]. cbn [fst snd].
  unfold xts_block, Cipher, vpxor, round_key, KEY_of. apply Z.lxor_comm.
Qed.

Lemma seq_as_map j n : seq j n = map (fun i => (j + i)%nat) (seq 0 n).
Proof.
  induction j as [|j IH]; [now rewrite map_id|].
  rewrite <- seq_shift, IH, map_map. reflexivity.
Qed.

(** ** The length register *)

Lemma signed64_mod R : - 2 ^ 63 <= R < 2 ^ 63 -> signed 64 (R mod 2 ^ 64) = R.
Proof.
  intros HR. unfold signed. change (2 ^ (64 - 1)) with (2 ^ 63).
  destruct (Z.ltb_spec (R mod 2 ^ 64) (2 ^ 63)); Z.div_mod_to_equations; lia.
Qed.

Lemma signed64_small c : 0 <= c < 2 ^ 63 -> signed 64 c = c.
Proof.
  intros Hc. unfold signed. change (2 ^ (64 - 1)) with (2 ^ 63).
  destruct (Z.ltb_spec c (2 ^ 63)); lia.
Qed.

Lemma sub64_mod R c : sub64 (R mod 2 ^ 64) c = (R - c) mod 2 ^ 64.
Proof. unfold sub64. now rewrite Zminus_mod_idemp_l. Qed.

Lemma add64_mod R c : add64 (R mod 2 ^ 64) c = (R + c) mod 2 ^ 64.
Proof. unfold add64. now rewrite Zplus_mod_idemp_l. Qed.

Lemma jl_sub_mod R c : - 2 ^ 63 <= R < 2 ^ 63 -> 0 <= c < 2 ^ 63 ->
  jl_sub (R mod 2 ^ 64) c = (R <? c).
Proof. intros HR Hc. unfold jl_sub. now rewrite signed64_mod, signed64_small. Qed.

Lemma jl_add_mod R c : - 2 ^ 63 <= R < 2 ^ 63 -> 0 <= c < 2 ^ 63 ->
  jl_add (R mod 2 ^ 64) c = (R + c <? 0).
Proof. intros HR Hc. unfold jl_add. now rewrite signed64_mod, signed64_small. Qed.

Lemma main_loop_do_while VL avx ctx KEY keys enc fuel st :
  main_loop VL avx ctx KEY keys enc fuel st
  = do_while (4 * VL) (main_loop_body VL avx ctx KEY keys enc) fuel st.
Proof.
  revert st. induction fuel as [|fuel IH]; intros st; [reflexivity|].
  cbn [main_loop do_while]. cbv zeta. now rewrite IH.
Qed.

Lemma vec_at_a_time_do_while VL avx ctx KEY keys enc fuel st :
  vec_at_a_time VL avx ctx KEY keys enc fuel st
  = do_while VL (vec_at_a_time_body VL avx ctx KEY keys enc) fuel st.
Proof.
  revert st. induction fuel as [|fuel IH]; intros st; [reflexivity|].
  cbn [vec_at_a_time do_while]. cbv zeta. now rewrite IH.
Qed.

Lemma block_at_a_time_do_while VL avx ctx KEY keys enc fuel st :
  block_at_a_time VL avx ctx KEY keys enc fuel st
  = do_while 16 (block_at_a_time_body VL avx ctx KEY keys enc) fuel st.
Proof.
  revert st. induction fuel as [|fuel IH]; intros st; [reflexivity|].
  cbn [block_at_a_time do_while]. cbv zeta. now rewrite IH.
Qed.

(* A loop whose pass processes [bl] blocks and keeps P runs R / step
   passes on R remaining bytes and leaves R mod step - step in LEN. *)
Lemma do_while_spec (len : Z) (step : Z) (bl : nat) (body : state -> state)
    (P : nat -> state -> Prop) :
  len < 2 ^ 63 -> (0 < bl)%nat -> step = 16 * Z.of_nat bl ->
  (forall k st, P k st -> 16 * Z.of_nat (k + bl) <= len ->
                P (k + bl)%nat (body st) /\ LEN (body st) = LEN st) ->
  (forall k l st, P k st -> P k (set_LEN l st)) ->
  forall fuel k R st,
    P k st -> LEN st = (R - step) mod 2 ^ 64 -> step <= R ->
    16 * Z.of_nat k + R <= len -> (Z.to_nat (R / step) <= fuel)%nat ->
    exists st', do_while step body fuel st = Some st' /\
                P (k + bl * Z.to_nat (R / step))%nat st' /\
                LEN st' = (R mod step - step) mod 2 ^ 64.
Proof.
  intros Hlen Hbl Hstep Hbody Hset.
  induction fuel as [|fuel IH]; intros k R st HP HL HR Hroom Hfuel.
  - exfalso. assert (1 <= R / step) by (apply Z.div_le_lower_bound; lia). lia.
  - cbn [do_while]. cbv zeta.
    destruct (Hbody k st HP) as [HP' HL']; [nia|].
    rewrite HL', HL. rewrite jl_sub_mod by lia. rewrite sub64_mod.
    destruct (Z.ltb_spec (R - step) step) as [Hlt|Hge].
    + assert (E : R / step = 1) by (Z.div_mod_to_equations; nia).
      eexists. split; [reflexivity|]. rewrite E. change (Z.to_nat 1) with 1%nat.
      rewrite Nat.mul_1_r. split; [now apply Hset|].
      cbn [set_LEN LEN]. f_equal. Z.div_mod_to_equations; nia.
    + destruct (IH (k + bl)%nat (R - step) (set_LEN ((R - step - step) mod 2 ^ 64) (body st)))
        as (st' & Hrun & HP'' & HL''); auto; try lia.
      * assert (R / step = (R - step) / step + 1) by (Z.div_mod_to_equations; nia).
        assert (0 <= (R - step) / step) by (apply Z.div_pos; lia). lia.
      * exists st'. split; [exact Hrun|].
        assert (ER : R / step = (R - step) / step + 1) by (Z.div_mod_to_equations; nia).
        assert (0 <= (R - step) / step) by (apply Z.div_pos; lia).
        replace (k + bl * Z.to_nat (R / step))%nat
          with (k + bl + bl * Z.to_nat ((R - step) / step))%nat by nia.
        split; [exact HP''|]. rewrite HL''. f_equal.
        Z.div_mod_to_equations; nia.
Qed.

Section Routine.

Variables (VL : Z) (avx enc : bool) (ctx : crypto_aes_ctx).
Variables (m0 : mem) (src dst len t : Z).

Hypothesis HVL : VL_ok VL.
Hypothesis Hkl : keylen_ok ctx.
Hypothesis Hctx : ctx_ok ctx.
Hypothesis Ht : lane_ok t.
Hypothesis Hm0 : mem_ok m0.
Hypothesis Hbuf : buffers_ok src dst len.
Hypothesis Hsrc : 0 <= src /\ src + len < 2 ^ 64.
Hypothesis Hdst : 0 <= dst /\ dst + len < 2 ^ 64.

Abbreviation keys := (_load_round_keys VL avx ctx (KEY_of enc)).
Abbreviation nl := (nlanes VL).
Abbreviation inv := (processed enc ctx t m0 src dst).
Abbreviation blk := (xts_blk enc ctx t m0 src).

Lemma blk_lane j : lane_ok (blk j).
Proof.
  unfold xts_blk, xts_block. apply lxor_lane; [now apply Cipher_lane|].
  now apply iter_gf_mulx_lane.
Qed.

Lemma ea_small a d : 0 <= a + d < 2 ^ 64 -> ea a d = a + d.
Proof. intros H. unfold ea. now apply Z.mod_small. Qed.

Lemma add64_small a d : 0 <= a + d < 2 ^ 64 -> add64 a d = a + d.
Proof. intros H. unfold add64. now apply Z.mod_small. Qed.

(* A vector load of blocks not yet processed. *)
Lemma vec_load n k j st :
  inv k st -> (k <= j)%nat -> 16 * Z.of_nat (j + n) <= len ->
  map (fun i => load128 (MEM st) (src + 16 * Z.of_nat j + 16 * i)) (zseq n)
  = map (fun l => load128 m0 (src + 16 * Z.of_nat l)) (seq j n).
Proof.
  intros (_ & _ & Hm) Hkj Hlen. unfold zseq. rewrite map_map.
  rewrite (seq_as_map j n).
  rewrite map_map. apply map_ext_in. intros i Hi. apply in_seq in Hi.
  replace (src + 16 * Z.of_nat j + 16 * Z.of_nat i) with (src + 16 * Z.of_nat (j + i)) by lia.
  apply (blocks_mem_load enc ctx t m0 src dst (MEM st) k (j + i) len); auto; lia.
Qed.

(* The tweaked cipher of a vector of tweaks and a vector of source blocks. *)
Lemma crypt_vec n k :
  map (fun p => xts_block enc ctx (fst p) (snd p))
      (combine (tweak_vec n k t) (map (fun l => load128 m0 (src + 16 * Z.of_nat l)) (seq k n)))
  = map blk (seq k n).
Proof.
  unfold tweak_vec. rewrite (seq_as_map k n), !map_map.
  induction (seq 0 n) as [|i l IH]; [reflexivity|].
  cbn [map combine fst snd]. f_equal. exact IH.
Qed.

(* Storing a vector of images extends the processed prefix. *)
Lemma blocks_store_lanes n k m :
  mem_eq m (blocks_mem enc ctx t m0 src dst k) ->
  mem_eq (store_lanes m (dst + 16 * Z.of_nat k) (map blk (seq k n)))
         (blocks_mem enc ctx t m0 src dst (k + n)).
Proof.
  revert k m. induction n as [|n IH]; intros k m Hm.
  - cbn [seq map store_lanes]. now rewrite Nat.add_0_r.
  - cbn [seq map store_lanes].
    replace (dst + 16 * Z.of_nat k + 16) with (dst + 16 * Z.of_nat (S k)) by lia.
    replace (k + S n)%nat with (S k + n)%nat by lia.
    apply IH. now apply blocks_mem_store.
Qed.

(* One pass of the main loop, as a function of the four vectors loaded and
   of the tweak registers. *)
(* One round of the main loop: _vaes_4x on the four data registers. *)
Ltac round_step :=
  rewrite vaes_4x_spec by
    (auto; try lia; cbn [V0 V1 V2 V3]; rewrite ?length_map; assumption);
  cbv iota beta; cbn [V0 V1 V2 V3].

Lemma main_loop_body_eq st :
  length (TWEAK0 (TW st)) = nl -> length (TWEAK1 (TW st)) = nl ->
  length (TWEAK2 (TW st)) = nl -> length (TWEAK3 (TW st)) = nl ->
  lanes_ok (TWEAK0 (TW st)) -> lanes_ok (TWEAK1 (TW st)) ->
  lanes_ok (TWEAK2 (TW st)) -> lanes_ok (TWEAK3 (TW st)) ->
  mem_ok (MEM st) ->
  main_loop_body VL avx ctx (KEY_of enc) keys enc st
  = let ld j := _vmovdqu_load VL (MEM st) (ea (SRC st) (j * VL)) in
    let m := MEM st in
    let m := _vmovdqu_store m (ea (DST st) (0 * VL)) (crypt_lanes enc ctx (TWEAK0 (TW st)) (ld 0)) in
    let m := _vmovdqu_store m (ea (DST st) (1 * VL)) (crypt_lanes enc ctx (TWEAK1 (TW st)) (ld 1)) in
    let m := _vmovdqu_store m (ea (DST st) (2 * VL)) (crypt_lanes enc ctx (TWEAK2 (TW st)) (ld 2)) in
    let m := _vmovdqu_store m (ea (DST st) (3 * VL)) (crypt_lanes enc ctx (TWEAK3 (TW st)) (ld 3)) in
    {| MEM := m; SRC := add64 (SRC st) (4 * VL); DST := add64 (DST st) (4 * VL);
       LEN := LEN st; TW := _tweak_step VL 1000 (run_tweak_steps VL steps20 (TW st)) |}.
Proof.
  intros L0 L1 L2 L3 K0 K1 K2 K3 Hm.
  destruct st as [M S D L r]. cbn [MEM SRC DST LEN TW] in *.
  unfold main_loop_body. cbn [MEM SRC DST LEN TW]. cbv zeta.
  rewrite KEYi_loaded by auto.
  set (k0 := ctx_load128 ctx (KEY_of enc + 0 * 16)).
  assert (Hk0 : lane_ok k0) by now apply ctx_load128_lane.
  set (ld0 := _vmovdqu_load VL M (ea S (0 * VL))).
  set (ld1 := _vmovdqu_load VL M (ea S (1 * VL))).
  set (ld2 := _vmovdqu_load VL M (ea S (2 * VL))).
  set (ld3 := _vmovdqu_load VL M (ea S (3 * VL))).
  assert (Hld : forall a, length (_vmovdqu_load VL M a) = nl /\ lanes_ok (_vmovdqu_load VL M a)).
  { intros a. unfold _vmovdqu_load. split; [now rewrite length_map, zseq_length|].
    apply Forall_forall. intros x Hx. apply in_map_iff in Hx. destruct Hx as (j & <- & _).
    now apply load128_lane. }
  destruct (Hld (ea S (0 * VL))) as [N0 O0]. destruct (Hld (ea S (1 * VL))) as [N1 O1].
  destruct (Hld (ea S (2 * VL))) as [N2 O2]. destruct (Hld (ea S (3 * VL))) as [N3 O3].
  fold ld0 in N0, O0. fold ld1 in N1, O1. fold ld2 in N2, O2. fold ld3 in N3, O3.
  clearbody ld0 ld1 ld2 ld3. clear Hld.
  pose proof (main_entry VL avx k0 (TWEAK0 r) ld0 Hk0 K0 O0 ltac:(lia) N0) as E0.
  pose proof (main_entry VL avx k0 (TWEAK1 r) ld1 Hk0 K1 O1 ltac:(lia) N1) as E1.
  pose proof (main_entry VL avx k0 (TWEAK2 r) ld2 Hk0 K2 O2 ltac:(lia) N2) as E2.
  pose proof (main_entry VL avx k0 (TWEAK3 r) ld3 Hk0 K3 O3 ltac:(lia) N3) as E3.
  assert (C0 : length (combine (TWEAK0 r) ld0) = nl) by (rewrite length_combine; lia).
  assert (C1 : length (combine (TWEAK1 r) ld1) = nl) by (rewrite length_combine; lia).
  assert (C2 : length (combine (TWEAK2 r) ld2) = nl) by (rewrite length_combine; lia).
  assert (C3 : length (combine (TWEAK3 r) ld3) = nl) by (rewrite length_combine; lia).
  assert (Hd : (if avx
     then
      {| V0 := vop3 (vpternlogd 150) (TWEAK0 r) (_vbroadcast128 VL k0) ld0;
         V1 := vop3 (vpternlogd 150) (TWEAK1 r) (_vbroadcast128 VL k0) ld1;
         V2 := vop3 (vpternlogd 150) (TWEAK2 r) (_vbroadcast128 VL k0) ld2;
         V3 := vop3 (vpternlogd 150) (TWEAK3 r) (_vbroadcast128 VL k0) ld3 |}
     else
      {| V0 := vop2 vpxor (TWEAK0 r) (vop2 vpxor ld0 (_vbroadcast128 VL k0));
         V1 := vop2 vpxor (TWEAK1 r) (vop2 vpxor ld1 (_vbroadcast128 VL k0));
         V2 := vop2 vpxor (TWEAK2 r) (vop2 vpxor ld2 (_vbroadcast128 VL k0));
         V3 := vop2 vpxor (TWEAK3 r) (vop2 vpxor ld3 (_vbroadcast128 VL k0)) |})
     = {| V0 := map (fun p => Z.lxor (Z.lxor (snd p) (fst p)) k0) (combine (TWEAK0 r) ld0);
          V1 := map (fun p => Z.lxor (Z.lxor (snd p) (fst p)) k0) (combine (TWEAK1 r) ld1);
          V2 := map (fun p => Z.lxor (Z.lxor (snd p) (fst p)) k0) (combine (TWEAK2 r) ld2);
          V3 := map (fun p => Z.lxor (Z.lxor (snd p) (fst p)) k0) (combine (TWEAK3 r) ld3) |}).
  { destruct avx; now rewrite E0, E1, E2, E3. }
  rewrite Hd. clear Hd E0 E1 E2 E3.
  do 9 round_step.
  unfold KEYLEN.
  destruct Hkl as [Hk|[Hk|Hk]]; rewrite Hk;
    [ change (signed 32 16 <=? 24) with true; change (16 =? 24) with false
    | change (signed 32 24 <=? 24) with true; change (24 =? 24) with true
    | change (signed 32 32 <=? 24) with false ];
    cbv iota; repeat round_step;
    rewrite ?tweak_step_TWEAK0, ?tweak_step_TWEAK1, ?tweak_step_TWEAK2, ?tweak_step_TWEAK3 by lia;
    subst k0;
    rewrite ?map_Rounds_16, ?map_Rounds_24, ?map_Rounds_32 by exact Hk;
    rewrite !crypt_lanes_rounds by lia;
    rewrite ?(tweak_step_noop VL (2 * (14 - 1) + 1)), ?(tweak_step_noop VL (2 * (14 - 1))),
      ?(tweak_step_noop VL (2 * (13 - 1) + 1)), ?(tweak_step_noop VL (2 * (13 - 1))),
      ?(tweak_step_noop VL (2 * (12 - 1) + 1)), ?(tweak_step_noop VL (2 * (12 - 1))),
      ?(tweak_step_noop VL (2 * (11 - 1) + 1)), ?(tweak_step_noop VL (2 * (11 - 1))) by lia;
    reflexivity.
Qed.

Lemma vmovdqu_load_fresh k j st :
  inv k st -> (k <= j)%nat -> 16 * Z.of_nat (j + nl) <= len ->
  _vmovdqu_load VL (MEM st) (src + 16 * Z.of_nat j)
  = map (fun l => load128 m0 (src + 16 * Z.of_nat l)) (seq j nl).
Proof. intros. unfold _vmovdqu_load. now apply (vec_load nl k j st). Qed.

Lemma main_loop_body_spec k st :
  inv k st -> tweaks_at VL k t (TW st) -> mem_ok (MEM st) ->
  16 * Z.of_nat (k + 4 * nl) <= len ->
  let st' := main_loop_body VL avx ctx (KEY_of enc) keys enc st in
  inv (k + 4 * nl) st' /\ tweaks_at VL (k + 4 * nl) t (TW st') /\ mem_ok (MEM st') /\
  LEN st' = LEN st.
Proof.
  intros Hinv Htw Hmok Hlen. cbv zeta.
  destruct (nlanes_pos VL HVL) as [Hnl HVLnl].
  pose proof Htw as (E0 & E1 & E2 & E3).
  rewrite main_loop_body_eq by
    (auto; rewrite ?E0, ?E1, ?E2, ?E3; auto using tweak_vec_length, tweak_vec_ok).
  cbv zeta. cbn [MEM SRC DST LEN TW].
  pose proof Hinv as (HS & HD & HM).
  rewrite HS, HD, E0, E1, E2, E3.
  assert (A : forall j, 0 <= j <= 4 ->
            forall b, 0 <= b /\ b + len < 2 ^ 64 ->
            ea (b + 16 * Z.of_nat k) (j * VL) = b + 16 * Z.of_nat (k + Z.to_nat j * nl)).
  { intros j Hj b Hb. rewrite ea_small; nia. }
  rewrite !A by (auto; lia).
  change (Z.to_nat 4) with 4%nat.
  change (Z.to_nat 0) with 0%nat. change (Z.to_nat 1) with 1%nat.
  change (Z.to_nat 2) with 2%nat. change (Z.to_nat 3) with 3%nat.
  rewrite Nat.mul_0_l, Nat.add_0_r, Nat.mul_1_l.
  rewrite !(vmovdqu_load_fresh k _ st) by (auto; lia).
  unfold crypt_lanes. rewrite !crypt_vec. unfold _vmovdqu_store.
  pose proof (blocks_store_lanes nl k _ HM) as M1.
  pose proof (blocks_store_lanes nl (k + nl) _ M1) as M2.
  pose proof (blocks_store_lanes nl (k + nl + nl) _ M2) as M3.
  pose proof (blocks_store_lanes nl (k + nl + nl + nl) _ M3) as M4.
  replace (k + nl + nl)%nat with (k + 2 * nl)%nat in * by lia.
  replace (k + 2 * nl + nl)%nat with (k + 3 * nl)%nat in * by lia.
  replace (k + 3 * nl + nl)%nat with (k + 4 * nl)%nat in * by lia.
  split; [|split; [|split]].
  - split; [reflexivity|split; [reflexivity|exact M4]].
  - now apply tweak_steps_advance.
  - repeat apply store_lanes_ok. exact Hmok.
  - reflexivity.
Qed.

Hypothesis Hlen63 : len < 2 ^ 63.

Lemma main_loop_spec fuel k R st :
  inv k st -> tweaks_at VL k t (TW st) -> mem_ok (MEM st) ->
  LEN st = (R - 4 * VL) mod 2 ^ 64 -> 4 * VL <= R -> 16 * Z.of_nat k + R <= len ->
  (Z.to_nat (R / (4 * VL)) <= fuel)%nat ->
  exists st', main_loop VL avx ctx (KEY_of enc) keys enc fuel st = Some st' /\
    let k' := (k + 4 * nl * Z.to_nat (R / (4 * VL)))%nat in
    inv k' st' /\ tweaks_at VL k' t (TW st') /\ mem_ok (MEM st') /\
    LEN st' = (R mod (4 * VL) - 4 * VL) mod 2 ^ 64.
Proof.
  intros Hinv Htw Hmok HL HR Hroom Hfuel.
  destruct (nlanes_pos VL HVL) as [Hnl HVLnl].
  rewrite main_loop_do_while.
  destruct (do_while_spec len (4 * VL) (4 * nl)
              (main_loop_body VL avx ctx (KEY_of enc) keys enc)
              (fun k st => inv k st /\ tweaks_at VL k t (TW st) /\ mem_ok (MEM st)))
    with (fuel := fuel) (k := k) (R := R) (st := st)
    as (st' & Hrun & (H1 & H2 & H3) & H4); auto; try lia.
  - intros k1 st1 (I1 & I2 & I3) Hr.
    destruct (main_loop_body_spec k1 st1 I1 I2 I3 Hr) as (J1 & J2 & J3 & J4). auto.
  - exists st'. cbv zeta. auto.
Qed.

Lemma aes_crypt_xmm tw x :
  lane_ok tw -> lane_ok x ->
  xmm (_aes_crypt VL avx ctx (KEY_of enc) keys enc true (of_xmm tw) (of_xmm x))
  = xts_block enc ctx tw x.
Proof.
  intros Htw Hx. unfold of_xmm. rewrite aes_crypt_spec; auto;
    try reflexivity; apply Forall_cons; auto; apply Forall_nil.
Qed.

Lemma vec_body_spec k st :
  inv k st -> TWEAK0 (TW st) = tweak_vec nl k t -> mem_ok (MEM st) ->
  16 * Z.of_nat (k + nl) <= len ->
  let st' := vec_at_a_time_body VL avx ctx (KEY_of enc) keys enc st in
  inv (k + nl) st' /\ TWEAK0 (TW st') = tweak_vec nl (k + nl) t /\ mem_ok (MEM st') /\
  LEN st' = LEN st.
Proof.
  intros Hinv E0 Hmok Hroom. cbv zeta.
  destruct (nlanes_pos VL HVL) as [Hnl HVLnl].
  pose proof Hinv as (HS & HD & HM).
  unfold vec_at_a_time_body. cbv zeta. cbn [MEM SRC DST LEN TW set_TWEAKS TWEAK0].
  rewrite HS, HD, E0.
  rewrite (vmovdqu_load_fresh k k st) by (auto; lia).
  rewrite aes_crypt_spec; auto using tweak_vec_ok.
  - fold (crypt_lanes enc ctx (tweak_vec nl k t)
            (map (fun l => load128 m0 (src + 16 * Z.of_nat l)) (seq k nl))).
    unfold crypt_lanes. rewrite crypt_vec.
    rewrite next_tweakvec_spec by (auto using tweak_vec_length, tweak_vec_ok).
    rewrite tweak_vec_advance. rewrite !add64_small by nia.
    split; [|split; [|split]]; try reflexivity.
    + unfold processed. cbn [MEM SRC DST].
      split; [lia|split; [lia|]]. now apply blocks_store_lanes.
    + now apply store_lanes_ok.
  - apply Forall_forall. intros x Hx. apply in_map_iff in Hx. destruct Hx as (j & <- & _).
    now apply load128_lane.
  - now rewrite tweak_vec_length, length_map, length_seq.
  - now rewrite length_map, length_seq.
Qed.

Lemma block_body_spec k st :
  inv k st -> xmm (TWEAK0 (TW st)) = Nat.iter k gf_mulx t -> mem_ok (MEM st) ->
  16 * Z.of_nat (k + 1) <= len ->
  let st' := block_at_a_time_body VL avx ctx (KEY_of enc) keys enc st in
  inv (k + 1) st' /\ xmm (TWEAK0 (TW st')) = Nat.iter (k + 1) gf_mulx t /\ mem_ok (MEM st') /\
  LEN st' = LEN st.
Proof.
  intros Hinv E0 Hmok Hroom. cbv zeta.
  pose proof Hinv as (HS & HD & HM).
  unfold block_at_a_time_body. cbv zeta. cbn [MEM SRC DST LEN TW set_TWEAKS TWEAK0].
  rewrite HS, HD, E0.
  rewrite (blocks_mem_load enc ctx t m0 src dst (MEM st) k k len) by (auto; lia).
  rewrite aes_crypt_xmm by (auto using iter_gf_mulx_lane, load128_lane).
  fold (blk k). rewrite !add64_small by lia.
  rewrite next_tweak_mulx by (now apply iter_gf_mulx_lane).
  replace (k + 1)%nat with (S k) by lia.
  split; [|split; [|split]]; try reflexivity.
  - unfold processed. cbn [MEM SRC DST].
    split; [lia|split; [lia|]]. now apply blocks_mem_store.
  - now apply store128_ok.
Qed.

Lemma vec_loop_spec fuel k R st :
  inv k st -> TWEAK0 (TW st) = tweak_vec nl k t -> mem_ok (MEM st) ->
  LEN st = (R - VL) mod 2 ^ 64 -> VL <= R -> 16 * Z.of_nat k + R <= len ->
  (Z.to_nat (R / VL) <= fuel)%nat ->
  exists st', vec_at_a_time VL avx ctx (KEY_of enc) keys enc fuel st = Some st' /\
    let k' := (k + nl * Z.to_nat (R / VL))%nat in
    inv k' st' /\ TWEAK0 (TW st') = tweak_vec nl k' t /\ mem_ok (MEM st') /\
    LEN st' = (R mod VL - VL) mod 2 ^ 64.
Proof.
  intros Hinv Htw Hmok HL HR Hroom Hfuel.
  destruct (nlanes_pos VL HVL) as [Hnl HVLnl].
  rewrite vec_at_a_time_do_while.
  destruct (do_while_spec len VL nl
              (vec_at_a_time_body VL avx ctx (KEY_of enc) keys enc)
              (fun k st => inv k st /\ TWEAK0 (TW st) = tweak_vec nl k t /\ mem_ok (MEM st)))
    with (fuel := fuel) (k := k) (R := R) (st := st)
    as (st' & Hrun & (H1 & H2 & H3) & H4); auto; try lia.
  - intros k1 st1 (I1 & I2 & I3) Hr.
    destruct (vec_body_spec k1 st1 I1 I2 I3 Hr) as (J1 & J2 & J3 & J4). auto.
  - exists st'. cbv zeta. auto.
Qed.

Lemma block_loop_spec fuel k R st :
  inv k st -> xmm (TWEAK0 (TW st)) = Nat.iter k gf_mulx t -> mem_ok (MEM st) ->
  LEN st = (R - 16) mod 2 ^ 64 -> 16 <= R -> 16 * Z.of_nat k + R <= len ->
  (Z.to_nat (R / 16) <= fuel)%nat ->
  exists st', block_at_a_time VL avx ctx (KEY_of enc) keys enc fuel st = Some st' /\
    let k' := (k + Z.to_nat (R / 16))%nat in
    inv k' st' /\ xmm (TWEAK0 (TW st')) = Nat.iter k' gf_mulx t /\ mem_ok (MEM st') /\
    LEN st' = (R mod 16 - 16) mod 2 ^ 64.
Proof.
  intros Hinv Htw Hmok HL HR Hroom Hfuel.
  rewrite block_at_a_time_do_while.
  destruct (do_while_spec len 16 1
              (block_at_a_time_body VL avx ctx (KEY_of enc) keys enc)
              (fun k st => inv k st /\ xmm (TWEAK0 (TW st)) = Nat.iter k gf_mulx t /\
                           mem_ok (MEM st)))
    with (fuel := fuel) (k := k) (R := R) (st := st)
    as (st' & Hrun & (H1 & H2 & H3) & H4); auto; try lia.
  - intros k1 st1 (I1 & I2 & I3) Hr.
    destruct (block_body_spec k1 st1 I1 I2 I3 Hr) as (J1 & J2 & J3 & J4). auto.
  - exists st'. cbv zeta. rewrite Nat.mul_1_l in H1, H2. auto.
Qed.

Lemma jnz_test_self x : jnz_test x x = negb (x =? 0).
Proof. unfold jnz_test. now rewrite Z.land_diag. Qed.

Lemma tweak_vec_xmm n k : (1 <= n)%nat -> xmm (tweak_vec n k t) = Nat.iter k gf_mulx t.
Proof.
  intros Hn. destruct n as [|n]; [lia|]. rewrite tweak_vec_S. reflexivity.
Qed.

(* .Lhandle_remainder up to .Lfull_blocks_done: the remaining full blocks
   are processed, and LEN is left with the length of the partial block. *)
Lemma handle_remainder_spec fuel tweak k R st :
  inv k st -> TWEAK0 (TW st) = tweak_vec nl k t -> mem_ok (MEM st) ->
  LEN st = (R - 4 * VL) mod 2 ^ 64 -> 0 <= R < 4 * VL -> 16 * Z.of_nat k + R <= len ->
  (Z.to_nat (R / 16) <= fuel)%nat ->
  exists st',
    inv (k + Z.to_nat (R / 16)) st' /\
    xmm (TWEAK0 (TW st')) = Nat.iter (k + Z.to_nat (R / 16)) gf_mulx t /\
    mem_ok (MEM st') /\ LEN st' = R mod 16 /\
    handle_remainder VL avx ctx (KEY_of enc) keys enc fuel tweak st
    = Some (Ldone tweak (if R mod 16 =? 0 then st'
                         else cts VL avx ctx (KEY_of enc) keys enc st')).
Proof.
  intros Hinv Htw Hmok HL HR Hroom Hfuel.
  destruct (nlanes_pos VL HVL) as [Hnl HVLnl].
  assert (HVL63 : 16 <= VL <= 64) by (destruct HVL as [->|[->| ->]]; lia).
  unfold handle_remainder. cbv zeta. cbn [set_LEN LEN].
  rewrite HL, add64_mod. replace (R - 4 * VL + 4 * VL) with R by lia.
  (* the vector-at-a-time phase *)
  assert (Hvec : exists st2 lt k2 R',
    (if 16 <? VL
     then
      match
        (if jl_sub (R mod 2 ^ 64) VL
         then Some (set_LEN (sub64 (R mod 2 ^ 64) VL) (set_LEN (R mod 2 ^ 64) st))
         else vec_at_a_time VL avx ctx (KEY_of enc) keys enc fuel
                (set_LEN (sub64 (R mod 2 ^ 64) VL) (set_LEN (R mod 2 ^ 64) st)))
      with
      | Some st0 => Some (jl_add (LEN st0) (VL - 16), set_LEN (add64 (LEN st0) (VL - 16)) st0)
      | None => None
      end
     else Some (jl_sub (R mod 2 ^ 64) 16,
                set_LEN (sub64 (R mod 2 ^ 64) 16) (set_LEN (R mod 2 ^ 64) st)))
    = Some (lt, st2) /\
    0 <= R' <= R /\ 16 * Z.of_nat k2 + R' = 16 * Z.of_nat k + R /\
    lt = (R' <? 16) /\ inv k2 st2 /\
    xmm (TWEAK0 (TW st2)) = Nat.iter k2 gf_mulx t /\ mem_ok (MEM st2) /\
    LEN st2 = (R' - 16) mod 2 ^ 64).
  { destruct (Z.ltb_spec 16 VL) as [Hgt|Hle].
    - rewrite jl_sub_mod, sub64_mod by lia.
      destruct (Z.ltb_spec R VL) as [Hlt|Hge].
      + exists (set_LEN (add64 ((R - VL) mod 2 ^ 64) (VL - 16))
                 (set_LEN ((R - VL) mod 2 ^ 64) (set_LEN (R mod 2 ^ 64) st))),
               (jl_add ((R - VL) mod 2 ^ 64) (VL - 16)), k, R.
        split; [reflexivity|]. cbn [set_LEN LEN MEM TW].
        rewrite jl_add_mod, add64_mod by lia.
        split; [lia|]. split; [lia|]. split; [lia|]. split; [exact Hinv|].
        split; [rewrite Htw; now apply tweak_vec_xmm|]. split; [exact Hmok|]. f_equal. lia.
      + destruct (vec_loop_spec fuel k R
                    (set_LEN ((R - VL) mod 2 ^ 64) (set_LEN (R mod 2 ^ 64) st)))
          as (st2 & Hrun & H1 & H2 & H3 & H4); auto; try lia.
        { assert (R / VL <= R / 16) by (Z.div_mod_to_equations; nia).
          assert (0 <= R / VL) by (apply Z.div_pos; lia). lia. }
        rewrite Hrun.
        pose proof (Z.mod_pos_bound R VL ltac:(lia)).
        assert (0 <= R / VL) by (apply Z.div_pos; lia).
        exists (set_LEN (add64 (LEN st2) (VL - 16)) st2), (jl_add (LEN st2) (VL - 16)),
               (k + nl * Z.to_nat (R / VL))%nat, (R mod VL).
        split; [reflexivity|]. cbn [set_LEN LEN MEM TW]. rewrite H4.
        rewrite jl_add_mod, add64_mod by lia.
        split; [Z.div_mod_to_equations; nia|]. split; [Z.div_mod_to_equations; nia|].
        split; [lia|]. split; [exact H1|].
        split; [rewrite H2; now apply tweak_vec_xmm|]. split; [exact H3|]. f_equal. lia.
    - rewrite jl_sub_mod, sub64_mod by lia.
      exists (set_LEN ((R - 16) mod 2 ^ 64) (set_LEN (R mod 2 ^ 64) st)), (R <? 16), k, R.
      split; [reflexivity|]. cbn [set_LEN LEN MEM TW].
      split; [lia|]. split; [lia|]. split; [reflexivity|]. split; [exact Hinv|].
      split; [rewrite Htw; now apply tweak_vec_xmm|]. split; [exact Hmok|]. reflexivity. }
  destruct Hvec as (st2 & lt & k2 & R' & Hrun2 & HR' & Hk2 & Hlt & I2 & T2 & M2 & L2).
  rewrite Hrun2. clear Hrun2.
  (* the block-at-a-time phase *)
  assert (Hblk : exists st3,
    (if lt then Some st2
     else block_at_a_time VL avx ctx (KEY_of enc) keys enc fuel st2) = Some st3 /\
    inv (k + Z.to_nat (R / 16)) st3 /\
    xmm (TWEAK0 (TW st3)) = Nat.iter (k + Z.to_nat (R / 16)) gf_mulx t /\
    mem_ok (MEM st3) /\ LEN st3 = (R mod 16 - 16) mod 2 ^ 64).
  { subst lt. destruct (Z.ltb_spec R' 16) as [Hlt|Hge].
    - exists st2. split; [reflexivity|].
      assert (Ek : (k + Z.to_nat (R / 16))%nat = k2) by (Z.div_mod_to_equations; nia).
      rewrite Ek. split; [exact I2|]. split; [exact T2|]. split; [exact M2|].
      rewrite L2. f_equal. Z.div_mod_to_equations; nia.
    - destruct (block_loop_spec fuel k2 R' st2) as (st3 & Hrun & H1 & H2 & H3 & H4);
        auto; try lia.
      { assert (R' / 16 <= R / 16) by (Z.div_mod_to_equations; nia).
        assert (0 <= R' / 16) by (apply Z.div_pos; lia). lia. }
      exists st3. split; [exact Hrun|].
      assert (0 <= R' / 16) by (apply Z.div_pos; lia).
      assert (Ek : (k + Z.to_nat (R / 16))%nat = (k2 + Z.to_nat (R' / 16))%nat)
        by (Z.div_mod_to_equations; nia).
      rewrite Ek. split; [exact H1|]. split; [exact H2|]. split; [exact H3|].
      rewrite H4. f_equal. Z.div_mod_to_equations; nia. }
  destruct Hblk as (st3 & Hrun3 & I3 & T3 & M3 & L3).
  rewrite Hrun3. clear Hrun3.
  cbn [set_LEN LEN]. rewrite L3, add64_mod.
  replace (R mod 16 - 16 + 16) with (R mod 16) by lia.
  pose proof (Z.mod_pos_bound R 16 ltac:(lia)) as Hm16.
  rewrite (Z.mod_small (R mod 16) (2 ^ 64)) by lia.
  rewrite jnz_test_self.
  exists (set_LEN (R mod 16) st3).
  split; [exact I3|]. split; [exact T3|]. split; [exact M3|]. split; [reflexivity|].
  destruct (R mod 16 =? 0); reflexivity.
Qed.

End Routine.

(** ** Byte shuffles of the ciphertext-stealing step *)

Lemma byte_of_map (g : Z -> Z) i :
  (forall j, 0 <= j < 16 -> byte_ok (g j)) -> 0 <= i < 16 ->
  byte i (of_bytes (map g (zseq 16))) = g i.
Proof.
  intros Hg Hi. replace i with (Z.of_nat (Z.to_nat i)) at 1 by lia.
  rewrite byte_of_bytes.
  - rewrite (nth_indep _ 0 (g 0)) by (rewrite length_map, zseq_length; lia).
    rewrite (map_nth g (zseq 16) 0). rewrite nth_zseq by lia. f_equal. lia.
  - apply Forall_forall. intros b Hb. apply in_map_iff in Hb.
    destruct Hb as (j & <- & Hj). apply in_zseq in Hj. apply Hg. lia.
  - rewrite length_map, zseq_length. lia.
Qed.

Lemma bytes_of_as_map x : bytes_of x = map (fun i => byte i x) (zseq 16).
Proof. reflexivity. Qed.

Lemma byte_vpshufb ctrl src i : 0 <= i < 16 ->
  byte i (vpshufb ctrl src)
  = if Z.testbit (byte i ctrl) 7 then 0 else byte (Z.land (byte i ctrl) 15) src.
Proof.
  intros Hi. unfold vpshufb.
  change (bytes_of ctrl) with (map (fun i => byte i ctrl) (zseq 16)). rewrite map_map.
  assert (Hn : forall c, nth (Z.to_nat (Z.land c 15)) (bytes_of src) 0 = byte (Z.land c 15) src).
  { intros c. change 15 with (Z.ones 4). rewrite Z.land_ones by lia.
    pose proof (Z.mod_pos_bound c (2 ^ 4) ltac:(lia)) as Hc. change (2 ^ 4) with 16 in *.
    rewrite nth_bytes_of by lia. f_equal. lia. }
  rewrite byte_of_map; auto.
  - now rewrite Hn.
  - intros j Hj. destruct (Z.testbit (byte j ctrl) 7); [unfold byte_ok; lia|].
    rewrite Hn. apply byte_range.
Qed.

Lemma byte_vpblendvb sel s2 s1 i : 0 <= i < 16 ->
  byte i (vpblendvb sel s2 s1) = if Z.testbit (byte i sel) 7 then byte i s2 else byte i s1.
Proof.
  intros Hi. unfold vpblendvb. rewrite byte_of_map; auto.
  intros j Hj. destruct (Z.testbit (byte j sel) 7); apply byte_range.
Qed.

Lemma cts_permute_table_ok : Forall byte_ok cts_permute_table.
Proof. apply forallb_byte_ok. vm_compute. reflexivity. Qed.

Lemma byte_load_cts_table off i : 0 <= i < 16 ->
  byte i (load_cts_table off) = nth (Z.to_nat (off + i)) cts_permute_table 0.
Proof.
  intros Hi. unfold load_cts_table. rewrite byte_of_map; auto.
  intros j Hj. apply nth_table_ok, cts_permute_table_ok.
Qed.

(* The two windows of the table the routine loads, for a partial block of
   r bytes. *)
Lemma cts_table_low r i : 0 < r < 16 -> 0 <= i < 16 ->
  nth (Z.to_nat (r + i)) cts_permute_table 0 = if r + i <? 16 then 0x80 else r + i - 16.
Proof.
  intros Hr Hi.
  assert (H : forallb (fun r => forallb (fun i =>
             nth (Z.to_nat (r + i)) cts_permute_table 0
             =? (if r + i <? 16 then 0x80 else r + i - 16)) (zseq 16)) (zseq 16) = true)
    by (vm_compute; reflexivity).
  rewrite forallb_forall in H. specialize (H r). rewrite in_zseq in H.
  specialize (H ltac:(lia)). rewrite forallb_forall in H. specialize (H i).
  rewrite in_zseq in H. specialize (H ltac:(lia)). now apply Z.eqb_eq.
Qed.

Lemma cts_table_high r i : 0 < r < 16 -> 0 <= i < 16 ->
  nth (Z.to_nat (0 - r + 32 + i)) cts_permute_table 0 = if i <? r then 16 - r + i else 0x80.
Proof.
  intros Hr Hi.
  assert (H : forallb (fun r => forallb (fun i =>
             (r =? 0) || (nth (Z.to_nat (0 - r + 32 + i)) cts_permute_table 0
             =? (if i <? r then 16 - r + i else 0x80))) (zseq 16)) (zseq 16) = true)
    by (vm_compute; reflexivity).
  rewrite forallb_forall in H. specialize (H r). rewrite in_zseq in H.
  specialize (H ltac:(lia)). rewrite forallb_forall in H. specialize (H i).
  rewrite in_zseq in H. specialize (H ltac:(lia)).
  destruct (Z.eqb_spec r 0); [lia|]. cbn [orb] in H. now apply Z.eqb_eq.
Qed.

Lemma testbit7_small x : 0 <= x < 128 -> Z.testbit x 7 = false.
Proof. intros Hx. apply (testbit_high 7); lia. Qed.

Lemma land15_small x : 0 <= x < 16 -> Z.land x 15 = x.
Proof.
  intros Hx. change 15 with (Z.ones 4). rewrite Z.land_ones by lia. apply Z.mod_small. lia.
Qed.

Lemma testbit_bzhi_ones r i : 0 < r < 16 -> 0 <= i < 16 ->
  Z.testbit (bzhi r (mask 64 (-1))) i = (i <? r).
Proof.
  intros Hr Hi. unfold bzhi. rewrite (mask_id 8 r) by lia.
  destruct (Z.ltb_spec r 64); [|lia].
  change (mask 64 (-1)) with (Z.ones 64).
  rewrite Z.land_spec, !testbit_ones by lia.
  destruct (Z.leb_spec 0 i); [|lia]. destruct (Z.ltb_spec i 64); [|lia]. reflexivity.
Qed.

(* Byte i of the partial block shifted to the start of its register. *)
Lemma byte_shifted_partial (m : mem) a r i :
  mem_ok m -> 0 < r < 16 -> 0 <= i < r ->
  byte i (vpshufb (load_cts_table (0 - r + 32)) (load128 m (a + r))) = m (a + 16 + i).
Proof.
  intros Hm Hr Hi. rewrite byte_vpshufb, byte_load_cts_table, cts_table_high by lia.
  destruct (Z.ltb_spec i r); [|lia].
  rewrite testbit7_small, land15_small by lia.
  rewrite byte_load128 by (auto; lia). f_equal. lia.
Qed.

(* The merged block, as the vpshufb/vpblendvb sequence builds it. *)
Lemma merged_blend (m : mem) a r first :
  mem_ok m -> 0 < r < 16 ->
  let xmm3 := load_cts_table (0 - r + 32) in
  vpblendvb xmm3 first (vpshufb xmm3 (load128 m (a + r)))
  = of_bytes (map (fun i => if i <? r then m (a + 16 + i) else byte i first) (zseq 16)).
Proof.
  intros Hm Hr. cbv zeta. unfold vpblendvb. f_equal. apply map_ext_in.
  intros i Hi. apply in_zseq in Hi. change (Z.of_nat 16) with 16 in Hi.
  rewrite byte_load_cts_table, cts_table_high by lia.
  destruct (Z.ltb_spec i r).
  - rewrite testbit7_small by lia. now apply byte_shifted_partial.
  - reflexivity.
Qed.

(* The merged block, as the masked load builds it. *)
Lemma merged_masked (m : mem) a r first :
  0 < r < 16 ->
  vmovdqu8_load_k m a (bzhi r (mask 64 (-1))) first
  = of_bytes (map (fun i => if i <? r then m (a + i) else byte i first) (zseq 16)).
Proof.
  intros Hr. unfold vmovdqu8_load_k. f_equal. apply map_ext_in.
  intros i Hi. apply in_zseq in Hi. change (Z.of_nat 16) with 16 in Hi.
  now rewrite testbit_bzhi_ones by lia.
Qed.

(* The bytes the first store of the vpshufb path leaves in the partial
   block. *)
Lemma byte_stolen r first i : 0 < r < 16 -> 16 - r <= i < 16 ->
  byte i (vpshufb (load_cts_table (0 + r)) first) = byte (i - (16 - r)) first.
Proof.
  intros Hr Hi. rewrite byte_vpshufb, byte_load_cts_table by lia.
  replace (0 + r + i) with (r + i) by lia. rewrite cts_table_low by lia.
  destruct (Z.ltb_spec (r + i) 16); [lia|].
  rewrite testbit7_small, land15_small by lia. f_equal. lia.
Qed.

Lemma merged_lane (g : Z -> Z) :
  (forall j, 0 <= j < 16 -> byte_ok (g j)) -> lane_ok (of_bytes (map g (zseq 16))).
Proof.
  intros Hg. apply of_bytes_lane; [|now rewrite length_map, zseq_length].
  apply Forall_forall. intros b Hb. apply in_map_iff in Hb.
  destruct Hb as (j & <- & Hj). apply in_zseq in Hj. apply Hg. lia.
Qed.

(** ** The ciphertext-stealing step *)

Section Stealing.

Variables (VL : Z) (avx enc : bool) (ctx : crypto_aes_ctx).
Variables (m0 : mem) (src dst len t : Z).

Hypothesis HVL : VL_ok VL.
Hypothesis Hkl : keylen_ok ctx.
Hypothesis Hctx : ctx_ok ctx.
Hypothesis Ht : lane_ok t.
Hypothesis Hm0 : mem_ok m0.
Hypothesis Hbuf : buffers_ok src dst len.
Hypothesis Hsrc : 0 <= src /\ src + len < 2 ^ 64.
Hypothesis Hdst : 0 <= dst /\ dst + len < 2 ^ 64.

Abbreviation keys := (_load_round_keys VL avx ctx (KEY_of enc)).

Lemma cts_first_lane q : lane_ok (cts_first enc ctx t m0 src q).
Proof.
  unfold cts_first, xts_block. apply lxor_lane; [now apply Cipher_lane|].
  now apply iter_gf_mulx_lane.
Qed.

Lemma cts_merged_lane q r : lane_ok (cts_merged enc ctx t m0 src q r).
Proof.
  unfold cts_merged. apply merged_lane. intros j Hj.
  destruct (j <? r); [apply Hm0|apply byte_range].
Qed.

Lemma cts_spec q r st :
  processed enc ctx t m0 src dst q st ->
  xmm (TWEAK0 (TW st)) = Nat.iter q gf_mulx t -> mem_ok (MEM st) ->
  LEN st = r -> 0 < r < 16 -> 16 * Z.of_nat q + 16 + r <= len ->
  let st' := cts VL avx ctx (KEY_of enc) keys enc st in
  mem_eq (MEM st') (cts_mem enc ctx t m0 src dst q r) /\
  xmm (TWEAK0 (TW st')) = Nat.iter q gf_mulx t /\ mem_ok (MEM st').
Proof.
  intros (HS & HD & HM) E0 Hmok HL Hr Hroom. cbv zeta.
  unfold cts. cbv zeta. rewrite HS, HD, HL, E0.
  rewrite next_tweak_mulx by (now apply iter_gf_mulx_lane).
  rewrite <- Nat.iter_succ.
  assert (Hfresh : forall a, src + 16 * Z.of_nat q <= a < src + len -> MEM st a = m0 a).
  { intros a Ha. apply (blocks_mem_fresh enc ctx t m0 src dst (MEM st) q len); auto; lia. }
  assert (Eld : load128 (MEM st) (src + 16 * Z.of_nat q) = load128 m0 (src + 16 * Z.of_nat q)).
  { apply load128_ext. intros i Hi. apply Hfresh. lia. }
  rewrite Eld.
  assert (Efirst : xmm (_aes_crypt VL avx ctx (KEY_of enc) keys enc true
                     (of_xmm (if enc then Nat.iter q gf_mulx t else Nat.iter (S q) gf_mulx t))
                     (of_xmm (load128 m0 (src + 16 * Z.of_nat q))))
                   = cts_first enc ctx t m0 src q).
  { rewrite aes_crypt_xmm by
      (auto using load128_lane; destruct enc; now apply iter_gf_mulx_lane).
    unfold cts_first. now destruct enc. }
  rewrite Efirst. clear Efirst. set (first := cts_first enc ctx t m0 src q).
  rewrite !ea_small by lia.
  assert (Emerged :
    forall mm, (forall i, 0 <= i < r -> mm (src + 16 * Z.of_nat q + 16 + i)
                                        = m0 (src + 16 * Z.of_nat q + 16 + i)) ->
    of_bytes (map (fun i => if i <? r then mm (src + 16 * Z.of_nat q + 16 + i)
                            else byte i first) (zseq 16))
    = cts_merged enc ctx t m0 src q r).
  { intros mm Hmm. unfold cts_merged. f_equal. apply map_ext_in. intros i Hi.
    apply in_zseq in Hi. destruct (Z.ltb_spec i r); [apply Hmm; lia|reflexivity]. }
  assert (Elast : forall x, x = cts_merged enc ctx t m0 src q r ->
    xmm (_aes_crypt VL avx ctx (KEY_of enc) keys enc true
           (of_xmm (if enc then Nat.iter (S q) gf_mulx t else Nat.iter q gf_mulx t)) (of_xmm x))
    = cts_last enc ctx t m0 src q r).
  { intros x ->. rewrite aes_crypt_xmm by
      (auto using cts_merged_lane; destruct enc; now apply iter_gf_mulx_lane).
    unfold cts_last. now destruct enc. }
  destruct avx.
  - (* masked load and store *)
    cbn [MEM TW TWEAK0 set_TWEAKS].
    rewrite merged_masked by lia.
    rewrite Elast by (apply Emerged; intros i Hi; apply Hfresh; lia).
    split; [|split; [exact E0|]].
    + intros a. rewrite store128_spec. unfold cts_mem, vmovdqu8_store_k. cbv zeta.
      destruct ((dst + 16 * Z.of_nat q <=? a) && (a <? dst + 16 * Z.of_nat q + 16));
        [reflexivity|].
      destruct (Z.leb_spec (dst + 16 * Z.of_nat q + 16) a) as [H1|H1]; cbn [andb].
      * destruct (Z.ltb_spec a (dst + 16 * Z.of_nat q + 16 + 16)) as [H2|H2]; cbn [andb].
        -- rewrite testbit_bzhi_ones by lia.
           destruct (Z.ltb_spec (a - (dst + 16 * Z.of_nat q + 16)) r);
             destruct (Z.ltb_spec a (dst + 16 * Z.of_nat q + 16 + r)); try lia;
             [reflexivity|apply HM].
        -- destruct (Z.ltb_spec a (dst + 16 * Z.of_nat q + 16 + r)); [lia|apply HM].
      * apply HM.
    + apply store128_ok. intros a. unfold vmovdqu8_store_k.
      destruct (_ && _); [apply byte_range|apply Hmok].
  - (* vpshufb and vpblendvb *)
    cbn [MEM TW TWEAK0 set_TWEAKS].
    pose proof (merged_blend (MEM st) (src + 16 * Z.of_nat q) r first Hmok Hr) as Hb.
    cbv zeta in Hb. rewrite Hb. clear Hb.
    rewrite Elast by (apply Emerged; intros i Hi; apply Hfresh; lia).
    split; [|split; [exact E0|]].
    + intros a. rewrite !store128_spec. unfold cts_mem. cbv zeta.
      destruct ((dst + 16 * Z.of_nat q <=? a) && (a <? dst + 16 * Z.of_nat q + 16)) eqn:Ein;
        [reflexivity|].
      destruct (Z.leb_spec (dst + 16 * Z.of_nat q + 16) a) as [H1|H1]; cbn [andb].
      * destruct (Z.leb_spec (dst + 16 * Z.of_nat q + r) a); [|lia].
        replace (dst + 16 * Z.of_nat q + r + 16) with (dst + 16 * Z.of_nat q + 16 + r) by lia.
        destruct (Z.ltb_spec a (dst + 16 * Z.of_nat q + 16 + r)); cbn [andb]; [|apply HM].
        rewrite byte_stolen by lia. f_equal. lia.
      * destruct (Z.leb_spec (dst + 16 * Z.of_nat q + r) a); cbn [andb]; [|apply HM].
        exfalso. apply andb_false_iff in Ein. destruct Ein as [Ein|Ein]; lia.
    + now repeat apply store128_ok.
Qed.

End Stealing.

(** ** The routine *)

Lemma land_low_bits R VL : VL_ok VL -> 0 <= R < 4 * VL ->
  Z.land ((R - 4 * VL) mod 2 ^ 64) (4 * VL - 1) = R.
Proof.
  intros HVL HR.
  destruct HVL as [->|[->| ->]];
    [ change (4 * 16 - 1) with (Z.ones 6) | change (4 * 32 - 1) with (Z.ones 7)
    | change (4 * 64 - 1) with (Z.ones 8) ];
    rewrite Z.land_ones by lia; Z.div_mod_to_equations; lia.
Qed.

Lemma land15_mod len : 0 <= len -> Z.land len 15 = len mod 16.
Proof. intros H. change 15 with (Z.ones 4). now rewrite Z.land_ones by lia. Qed.

Section Top.

Variables (VL : Z) (avx enc : bool) (ctx : crypto_aes_ctx).
Variables (m : mem) (src dst len tweak : Z).

Hypothesis HVL : VL_ok VL.
Hypothesis Hkl : keylen_ok ctx.
Hypothesis Hctx : ctx_ok ctx.
Hypothesis Hm : mem_ok m.
Hypothesis Hlen : 16 <= len < 2 ^ 63.
Hypothesis Hbuf : buffers_ok src dst len.
Hypothesis Hsrc : 0 <= src /\ src + len < 2 ^ 64.
Hypothesis Hdst : 0 <= dst /\ dst + len < 2 ^ 64.

Abbreviation t := (load128 m tweak).
Abbreviation keys := (_load_round_keys VL avx ctx (KEY_of enc)).

(* From .Lhandle_remainder to the return. *)
Lemma remainder_to_done fuel k R st :
  processed enc ctx t m src dst k st -> TWEAK0 (TW st) = tweak_vec (nlanes VL) k t ->
  mem_ok (MEM st) ->
  LEN st = (R - 4 * VL) mod 2 ^ 64 -> 0 <= R < 4 * VL ->
  16 * Z.of_nat k + R = (if len mod 16 =? 0 then len else len - 16) ->
  (Z.to_nat (R / 16) <= fuel)%nat ->
  exists m', handle_remainder VL avx ctx (KEY_of enc) keys enc fuel tweak st = Some m' /\
             mem_eq m' (xts_result enc ctx src dst len tweak m).
Proof.
  intros Hinv Htw Hmok HL HR Hk Hfuel.
  assert (Ht : lane_ok t) by now apply load128_lane.
  pose proof (Z.mod_pos_bound len 16 ltac:(lia)) as Hm16.
  destruct (handle_remainder_spec VL avx enc ctx m src dst len t)
    with (fuel := fuel) (tweak := tweak) (k := k) (R := R) (st := st)
    as (st' & I & T & M & L & Hrun); auto; try lia.
  { destruct (len mod 16 =? 0); lia. }
  rewrite Hrun. eexists. split; [reflexivity|].
  unfold xts_result, xts_mem, xts_tweak_out, Ldone.
  assert (Emod : R mod 16 = len mod 16).
  { destruct (Z.eqb_spec (len mod 16) 0); Z.div_mod_to_equations; lia. }
  rewrite Emod.
  assert (0 <= R / 16) by (apply Z.div_pos; lia).
  destruct (Z.eqb_spec (len mod 16) 0) as [E|E].
  - assert (Ek : (k + Z.to_nat (R / 16))%nat = Z.to_nat (len / 16))
      by (Z.div_mod_to_equations; lia).
    rewrite Ek in *. rewrite T. destruct I as (_ & _ & HM).
    intros a. rewrite !store128_spec. destruct (_ && _); [reflexivity|apply HM].
  - assert (Ek : (k + Z.to_nat (R / 16))%nat = Z.to_nat (len / 16 - 1))
      by (Z.div_mod_to_equations; lia).
    rewrite Ek in *.
    destruct (cts_spec VL avx enc ctx m src dst len t)
      with (q := Z.to_nat (len / 16 - 1)) (r := len mod 16) (st := st')
      as (C1 & C2 & C3); auto; try lia.
    { Z.div_mod_to_equations; lia. }
    rewrite C2. intros a. rewrite !store128_spec. destruct (_ && _); [reflexivity|apply C1].
Qed.

Theorem aes_xts_crypt_correct :
  exists m', _aes_xts_crypt VL avx enc ctx src dst len tweak m = Some m' /\
             mem_eq m' (xts_result enc ctx src dst len tweak m).
Proof.
  assert (Ht : lane_ok t) by now apply load128_lane.
  destruct (nlanes_pos VL HVL) as [Hnl HVLnl].
  assert (HVL63 : 16 <= VL <= 64) by (destruct HVL as [->|[->| ->]]; lia).
  pose proof (Z.mod_pos_bound len 16 ltac:(lia)) as Hm16.
  unfold _aes_xts_crypt. cbv zeta.
  change (jnz_test len 15) with (negb (Z.land len 15 =? 0)). rewrite land15_mod by lia.
  change (if enc then 0 else 240) with (KEY_of enc).
  set (R0 := if len mod 16 =? 0 then len else len - 16).
  assert (HR0 : 0 <= R0 <= len) by (subst R0; destruct (len mod 16 =? 0); lia).
  assert (E0 : (if negb (len mod 16 =? 0) then sub64 len 16 else len) = R0 mod 2 ^ 64).
  { subst R0. destruct (len mod 16 =? 0); cbn [negb]; unfold sub64;
      rewrite ?Z.mod_small; lia. }
  rewrite E0. rewrite sub64_mod, jl_sub_mod by lia.
  set (st0 := {| MEM := m; SRC := src; DST := dst; LEN := (R0 - 4 * VL) mod 2 ^ 64;
                 TW := _compute_first_set_of_tweaks VL avx t |}).
  assert (I0 : processed enc ctx t m src dst 0 st0).
  { unfold processed. cbn [MEM SRC DST st0]. split; [lia|split; [lia|]].
    intros a. symmetry. apply blocks_mem_0. }
  pose proof (first_set_of_tweaks VL avx t HVL Ht) as T0.
  assert (0 <= R0 / 16 <= len / 16) by (split; [apply Z.div_pos|apply Z.div_le_mono]; lia).
  destruct (Z.ltb_spec R0 (4 * VL)) as [Hlt|Hge].
  - apply (remainder_to_done _ 0%nat R0 st0); auto; try lia.
    apply T0.
  - destruct (main_loop_spec VL avx enc ctx m src dst len t)
      with (fuel := S (Z.to_nat (len / 16))) (k := 0%nat) (R := R0) (st := st0)
      as (st1 & Hrun & I1 & T1 & M1 & L1); auto; try lia.
    { assert (R0 / (4 * VL) <= R0 / 16) by (Z.div_mod_to_equations; nia).
      assert (0 <= R0 / (4 * VL)) by (apply Z.div_pos; lia). lia. }
    rewrite Hrun. cbn [Nat.add] in I1, T1.
    pose proof (Z.mod_pos_bound R0 (4 * VL) ltac:(lia)) as HR1.
    assert (0 <= R0 / (4 * VL)) by (apply Z.div_pos; lia).
    unfold jnz_test. rewrite L1, land_low_bits by auto.
    destruct (Z.eqb_spec (R0 mod (4 * VL)) 0) as [Ez|Enz]; cbn [negb].
    + eexists. split; [reflexivity|].
      assert (E16 : len mod 16 = 0).
      { subst R0. destruct (Z.eqb_spec (len mod 16) 0); [assumption|].
        Z.div_mod_to_equations; nia. }
      unfold xts_result, xts_mem, xts_tweak_out, Ldone. rewrite E16.
      change (0 =? 0) with true. cbv iota.
      assert (Ek : (4 * nlanes VL * Z.to_nat (R0 / (4 * VL)))%nat = Z.to_nat (len / 16)).
      { subst R0. rewrite E16 in *. change (0 =? 0) with true in *. cbv iota in *.
        Z.div_mod_to_equations; nia. }
      rewrite Ek in *. destruct T1 as (T1 & _). rewrite T1, tweak_vec_xmm by lia.
      destruct I1 as (_ & _ & HM).
      intros a. rewrite !store128_spec. destruct (_ && _); [reflexivity|apply HM].
    + apply (remainder_to_done _ (4 * nlanes VL * Z.to_nat (R0 / (4 * VL)))%nat
               (R0 mod (4 * VL)) st1); auto; try lia.
      * apply T1.
      * fold R0. Z.div_mod_to_equations; nia.
      * assert (R0 mod (4 * VL) / 16 <= R0 / 16) by (Z.div_mod_to_equations; nia).
        assert (0 <= R0 mod (4 * VL) / 16) by (apply Z.div_pos; lia). lia.
Qed.

End Top.

(** ** The bytes a call leaves in the destination *)

Lemma div16_pos len : 16 <= len -> 1 <= len / 16.
Proof. intros H. pose proof (Z.div_mod len 16). pose proof (Z.mod_pos_bound len 16). lia. Qed.

Lemma xts_mem_at enc ctx t m src dst len i :
  16 <= len -> 0 <= i < len ->
  xts_mem enc ctx t m src dst len (dst + i) = xts_out_byte enc ctx t m src len i.
Proof.
  intros Hlen Hi. pose proof (div16_pos len Hlen) as Hq.
  pose proof (Z.div_mod len 16 ltac:(lia)) as Hdm.
  pose proof (Z.mod_pos_bound len 16 ltac:(lia)) as Hr.
  unfold xts_mem, xts_out_byte.
  destruct (Z.eqb_spec (len mod 16) 0) as [H0|H0]; cbn [orb].
  - unfold blocks_mem. rewrite Z2Nat.id by lia.
    replace (dst + i - dst) with i by lia.
    destruct (Z.leb_spec dst (dst + i)); [|lia].
    destruct (Z.ltb_spec (dst + i) (dst + 16 * (len / 16))); [reflexivity|lia].
  - unfold cts_mem. cbv zeta. rewrite Z2Nat.id by lia.
    destruct (Z.ltb_spec i (16 * (len / 16 - 1))) as [Hlt|Hge].
    + destruct (Z.leb_spec (dst + 16 * (len / 16 - 1)) (dst + i)); [lia|]. cbn [andb].
      destruct (Z.leb_spec (dst + 16 * (len / 16 - 1) + 16) (dst + i)); [lia|]. cbn [andb].
      unfold blocks_mem. rewrite Z2Nat.id by lia.
      replace (dst + i - dst) with i by lia.
      destruct (Z.leb_spec dst (dst + i)); [|lia].
      destruct (Z.ltb_spec (dst + i) (dst + 16 * (len / 16 - 1))); [reflexivity|lia].
    + destruct (Z.leb_spec (dst + 16 * (len / 16 - 1)) (dst + i)); [|lia]. cbn [andb].
      destruct (Z.ltb_spec i (16 * (len / 16 - 1) + 16)) as [Hl2|Hg2].
      * destruct (Z.ltb_spec (dst + i) (dst + 16 * (len / 16 - 1) + 16)); [|lia].
        f_equal. lia.
      * destruct (Z.ltb_spec (dst + i) (dst + 16 * (len / 16 - 1) + 16)); [lia|].
        destruct (Z.leb_spec (dst + 16 * (len / 16 - 1) + 16) (dst + i)); [|lia].
        destruct (Z.ltb_spec (dst + i) (dst + 16 * (len / 16 - 1) + 16 + len mod 16)); [|lia].
        cbn [andb]. f_equal. lia.
Qed.

Lemma xts_mem_frame enc ctx t m src dst len a :
  16 <= len -> a < dst \/ dst + len <= a ->
  xts_mem enc ctx t m src dst len a = m a.
Proof.
  intros Hlen Ha. pose proof (div16_pos len Hlen) as Hq.
  pose proof (Z.div_mod len 16 ltac:(lia)) as Hdm.
  pose proof (Z.mod_pos_bound len 16 ltac:(lia)) as Hr.
  unfold xts_mem.
  destruct (Z.eqb_spec (len mod 16) 0) as [H0|H0].
  - unfold blocks_mem. rewrite Z2Nat.id by lia.
    destruct (Z.leb_spec dst a); destruct (Z.ltb_spec a (dst + 16 * (len / 16)));
      try reflexivity; lia.
  - unfold cts_mem, blocks_mem. cbv zeta. rewrite Z2Nat.id by lia.
    destruct (Z.leb_spec (dst + 16 * (len / 16 - 1)) a);
      destruct (Z.ltb_spec a (dst + 16 * (len / 16 - 1) + 16));
      destruct (Z.leb_spec (dst + 16 * (len / 16 - 1) + 16) a);
      destruct (Z.ltb_spec a (dst + 16 * (len / 16 - 1) + 16 + len mod 16));
      destruct (Z.leb_spec dst a); destruct (Z.ltb_spec a (dst + 16 * (len / 16 - 1)));
      cbn [andb]; try reflexivity; lia.
Qed.

Lemma xts_out_byte_ok enc ctx t m src len i : byte_ok (xts_out_byte enc ctx t m src len i).
Proof.
  unfold xts_out_byte.
  destruct ((len mod 16 =? 0) || (i <? 16 * (len / 16 - 1))); [apply byte_range|].
  destruct (i <? 16 * (len / 16 - 1) + 16); apply byte_range.
Qed.

Lemma blocks_mem_ok enc ctx t m src dst k : mem_ok m -> mem_ok (blocks_mem enc ctx t m src dst k).
Proof.
  intros Hm a. unfold blocks_mem.
  destruct ((dst <=? a) && (a <? dst + 16 * Z.of_nat k)); [apply byte_range|apply Hm].
Qed.

Lemma xts_mem_ok enc ctx t m src dst len : mem_ok m -> mem_ok (xts_mem enc ctx t m src dst len).
Proof.
  intros Hm a. unfold xts_mem.
  destruct (len mod 16 =? 0); [now apply blocks_mem_ok|].
  unfold cts_mem. cbv zeta.
  repeat match goal with |- context [if ?c then _ else _] => destruct c end;
    try apply byte_range. now apply blocks_mem_ok.
Qed.

Lemma xts_result_ok enc ctx src dst len tweak m :
  mem_ok m -> mem_ok (xts_result enc ctx src dst len tweak m).
Proof. intros Hm. unfold xts_result. now apply store128_ok, xts_mem_ok. Qed.

Lemma mem_eq_ok m m' : mem_eq m' m -> mem_ok m -> mem_ok m'.
Proof. intros He Hm a. rewrite He. apply Hm. Qed.

Lemma load128_bytes m a v :
  lane_ok v -> (forall k, 0 <= k < 16 -> m (a + k) = byte k v) -> load128 m a = v.
Proof.
  intros Hv H. rewrite <- (of_bytes_bytes_of v Hv). unfold load128, load_bytes, bytes_of.
  f_equal. apply map_ext_in. intros k Hk. apply in_zseq in Hk. apply H. lia.
Qed.

(* The output depends on the len source bytes only. *)
Lemma xts_out_byte_ext enc ctx t m m' src src' len i :
  16 <= len -> 0 <= i < len ->
  (forall j, 0 <= j < len -> m (src + j) = m' (src' + j)) ->
  xts_out_byte enc ctx t m src len i = xts_out_byte enc ctx t m' src' len i.
Proof.
  intros Hlen Hi H. pose proof (div16_pos len Hlen) as Hq.
  pose proof (Z.div_mod len 16 ltac:(lia)) as Hdm.
  pose proof (Z.mod_pos_bound len 16 ltac:(lia)) as Hr.
  assert (Hblk : forall j, 0 <= j -> 16 * j + 16 <= len ->
            load128 m (src + 16 * j) = load128 m' (src' + 16 * j)).
  { intros j Hj Hj'. apply load128_ext. intros k Hk.
    rewrite <- !Z.add_assoc. apply H. lia. }
  assert (Hfirst : len mod 16 <> 0 ->
            cts_first enc ctx t m src (Z.to_nat (len / 16 - 1))
            = cts_first enc ctx t m' src' (Z.to_nat (len / 16 - 1))).
  { intros Hne. unfold cts_first. f_equal. rewrite Z2Nat.id by lia. apply Hblk; lia. }
  assert (Hlast : len mod 16 <> 0 ->
            cts_last enc ctx t m src (Z.to_nat (len / 16 - 1)) (len mod 16)
            = cts_last enc ctx t m' src' (Z.to_nat (len / 16 - 1)) (len mod 16)).
  { intros Hne. unfold cts_last. f_equal. unfold cts_merged. f_equal.
    apply map_ext_in. intros k Hk. apply in_zseq in Hk.
    rewrite Hfirst by exact Hne. rewrite Z2Nat.id by lia.
    destruct (Z.ltb_spec k (len mod 16)); [|reflexivity].
    rewrite <- !Z.add_assoc. apply H. lia. }
  unfold xts_out_byte.
  destruct (Z.eqb_spec (len mod 16) 0) as [H0|H0]; cbn [orb].
  - unfold xts_blk. do 2 f_equal.
    assert (0 <= i / 16) by (apply Z.div_pos; lia).
    rewrite Z2Nat.id by lia. apply Hblk; [lia|].
    pose proof (Z.div_mod i 16 ltac:(lia)). pose proof (Z.mod_pos_bound i 16 ltac:(lia)). lia.
  - destruct (Z.ltb_spec i (16 * (len / 16 - 1))).
    + unfold xts_blk. do 2 f_equal.
      assert (0 <= i / 16) by (apply Z.div_pos; lia).
      rewrite Z2Nat.id by lia. apply Hblk; [lia|].
      pose proof (Z.div_mod i 16 ltac:(lia)). pose proof (Z.mod_pos_bound i 16 ltac:(lia)). lia.
    + destruct (i <? 16 * (len / 16 - 1) + 16); f_equal; auto.
Qed.

(** ** Decrypting the output of an encryption *)

Lemma xts_block_lane enc ctx t b : ctx_ok ctx -> lane_ok t -> lane_ok (xts_block enc ctx t b).
Proof. intros Hc Ht. unfold xts_block. apply lxor_lane; [now apply Cipher_lane|exact Ht]. Qed.

Lemma xts_block_dec_enc ctx t b :
  valid_key_schedule ctx -> lane_ok t -> lane_ok b ->
  xts_block false ctx t (xts_block true ctx t b) = b.
Proof.
  intros Hv Ht Hb. unfold xts_block. rewrite lxor_cancel_r.
  rewrite Cipher_dec_enc by (auto using lxor_lane). apply lxor_cancel_r.
Qed.

Lemma xts_block_enc_dec ctx t b :
  valid_key_schedule ctx -> lane_ok t -> lane_ok b ->
  xts_block true ctx t (xts_block false ctx t b) = b.
Proof.
  intros Hv Ht Hb. unfold xts_block. rewrite lxor_cancel_r.
  rewrite Cipher_enc_dec by (auto using lxor_lane). apply lxor_cancel_r.
Qed.

Lemma xts_block_inv ctx (enc : bool) tw b :
  valid_key_schedule ctx -> lane_ok tw -> lane_ok b ->
  xts_block (negb enc) ctx tw (xts_block enc ctx tw b) = b.
Proof.
  intros Hv Htw Hb. destruct enc; [now apply xts_block_dec_enc|now apply xts_block_enc_dec].
Qed.

Lemma split16 i : 0 <= i -> i = 16 * (i / 16) + i mod 16 /\ 0 <= i mod 16 < 16 /\ 0 <= i / 16.
Proof.
  intros Hi. pose proof (Z.div_mod i 16 ltac:(lia)). pose proof (Z.mod_pos_bound i 16 ltac:(lia)).
  pose proof (Z.div_pos i 16 Hi ltac:(lia)). lia.
Qed.

Lemma div16_block j k : 0 <= k < 16 -> (16 * j + k) / 16 = j /\ (16 * j + k) mod 16 = k.
Proof.
  intros Hk. split.
  - rewrite Z.mul_comm, Z.div_add_l by lia. rewrite Z.div_small by lia. lia.
  - rewrite Z.add_comm, Z.mul_comm, Z.mod_add by lia. apply Z.mod_small. lia.
Qed.

Section RoundTrip.
Variable ctx : crypto_aes_ctx.
(* The direction of the first call; the second call goes the other way. *)
Variable enc : bool.
Variables (t : Z) (m m1 : mem) (src s1 len : Z).
Hypothesis Hv : valid_key_schedule ctx.
Hypothesis Ht : lane_ok t.
Hypothesis Hm : mem_ok m.
Hypothesis Hlen : 16 <= len.
Hypothesis H1 : forall j, 0 <= j < len -> m1 (s1 + j) = xts_out_byte enc ctx t m src len j.

(* The length of the part made of full blocks that are not touched by
   ciphertext stealing. *)
Let full : Z := if len mod 16 =? 0 then len else 16 * (len / 16 - 1).

Lemma rt_tweak_first q :
  (if negb enc then q else S q) = (if enc then S q else q).
Proof. now destruct enc. Qed.

Lemma rt_tweak_last q :
  (if negb enc then S q else q) = (if enc then q else S q).
Proof. now destruct enc. Qed.

Lemma rt_ctx_ok : ctx_ok ctx.
Proof. apply (valid_key_schedule_inv ctx Hv). Qed.

Lemma rt_full_cond i :
  0 <= i < full -> (len mod 16 =? 0) || (i <? 16 * (len / 16 - 1)) = true.
Proof.
  unfold full. intros Hi. destruct (Z.eqb_spec (len mod 16) 0); [reflexivity|].
  cbn [orb]. apply Z.ltb_lt. lia.
Qed.

Lemma rt_full_le : full <= len.
Proof.
  unfold full. pose proof (split16 len ltac:(lia)).
  destruct (len mod 16 =? 0); lia.
Qed.

Lemma rt_full_mult : exists f, full = 16 * f.
Proof.
  unfold full. destruct (Z.eqb_spec (len mod 16) 0) as [H0|H0].
  - exists (len / 16). pose proof (Z.div_mod len 16 ltac:(lia)). lia.
  - now exists (len / 16 - 1).
Qed.

Lemma rt_block j :
  0 <= j -> 16 * j + 16 <= full ->
  load128 m1 (s1 + 16 * j) = xts_blk enc ctx t m src (Z.to_nat j).
Proof.
  intros Hj Hjf. pose proof rt_full_le.
  apply load128_bytes; [apply xts_block_lane; auto using rt_ctx_ok, iter_gf_mulx_lane|].
  intros k Hk. rewrite <- Z.add_assoc, H1 by lia.
  unfold xts_out_byte. rewrite rt_full_cond by lia.
  destruct (div16_block j k Hk) as [-> ->]. reflexivity.
Qed.

Lemma rt_full i : 0 <= i < full -> xts_out_byte (negb enc) ctx t m1 s1 len i = m (src + i).
Proof.
  intros Hi. destruct (split16 i ltac:(lia)) as (Ei & Hr & Hq).
  destruct rt_full_mult as [f Ef].
  unfold xts_out_byte. rewrite rt_full_cond by lia.
  unfold xts_blk at 1. rewrite Z2Nat.id by lia.
  rewrite rt_block by lia. unfold xts_blk.
  rewrite xts_block_inv by (auto using iter_gf_mulx_lane, load128_lane).
  rewrite byte_load128 by auto. rewrite Z2Nat.id by lia. f_equal. lia.
Qed.

Section Stolen.
Hypothesis Hr : len mod 16 <> 0.
Let q : Z := len / 16 - 1.
Let r : Z := len mod 16.

Lemma rt_q : 0 <= q /\ 0 < r < 16 /\ len = 16 * q + 16 + r.
Proof. unfold q, r. pose proof (split16 len ltac:(lia)). pose proof (div16_pos len Hlen). lia. Qed.

Lemma rt_cond_false i :
  16 * q <= i -> (len mod 16 =? 0) || (i <? 16 * (len / 16 - 1)) = false.
Proof.
  intros Hi. destruct (Z.eqb_spec (len mod 16) 0); [contradiction|]. cbn [orb].
  apply Z.ltb_ge. exact Hi.
Qed.

Lemma rt_last_bytes k :
  0 <= k < 16 -> m1 (s1 + 16 * q + k) = byte k (cts_last enc ctx t m src (Z.to_nat q) r).
Proof.
  intros Hk. destruct rt_q as (Hq & Hr' & El).
  rewrite <- Z.add_assoc, H1 by lia. unfold xts_out_byte.
  rewrite rt_cond_false by lia. fold q r.
  destruct (Z.ltb_spec (16 * q + k) (16 * q + 16)); [|lia]. f_equal. lia.
Qed.

Lemma rt_first_bytes k :
  0 <= k < r -> m1 (s1 + 16 * q + 16 + k) = byte k (cts_first enc ctx t m src (Z.to_nat q)).
Proof.
  intros Hk. destruct rt_q as (Hq & Hr' & El).
  rewrite <- !Z.add_assoc, H1 by lia. unfold xts_out_byte.
  rewrite rt_cond_false by lia. fold q r.
  destruct (Z.ltb_spec (16 * q + (16 + k)) (16 * q + 16)); [lia|]. f_equal. lia.
Qed.

Lemma rt_merged_byte_ok k :
  byte_ok (if k <? r then m (src + 16 * Z.of_nat (Z.to_nat q) + 16 + k)
           else byte k (cts_first enc ctx t m src (Z.to_nat q))).
Proof. destruct (k <? r); [apply Hm|apply byte_range]. Qed.

Lemma rt_dec_first :
  cts_first (negb enc) ctx t m1 s1 (Z.to_nat q) = cts_merged enc ctx t m src (Z.to_nat q) r.
Proof.
  destruct rt_q as (Hq & Hr' & El). unfold cts_first at 1. rewrite Z2Nat.id by lia.
  rewrite rt_tweak_first.
  rewrite (load128_bytes m1 (s1 + 16 * q) (cts_last enc ctx t m src (Z.to_nat q) r)).
  - unfold cts_last. apply xts_block_inv; auto using iter_gf_mulx_lane.
    now apply cts_merged_lane.
  - unfold cts_last. apply xts_block_lane; auto using rt_ctx_ok, iter_gf_mulx_lane.
  - apply rt_last_bytes.
Qed.

Lemma rt_dec_merged :
  cts_merged (negb enc) ctx t m1 s1 (Z.to_nat q) r = cts_first enc ctx t m src (Z.to_nat q).
Proof.
  destruct rt_q as (Hq & Hr' & El).
  rewrite <- (of_bytes_bytes_of (cts_first enc ctx t m src (Z.to_nat q)))
    by (apply cts_first_lane; auto using rt_ctx_ok).
  unfold cts_merged at 1. rewrite bytes_of_as_map. f_equal.
  apply map_ext_in. intros k Hk. apply in_zseq in Hk.
  rewrite Z2Nat.id by lia.
  destruct (Z.ltb_spec k r) as [Hlt|Hge].
  - apply rt_first_bytes. lia.
  - rewrite rt_dec_first. unfold cts_merged.
    rewrite byte_of_map by (try (intros; apply rt_merged_byte_ok); lia).
    destruct (Z.ltb_spec k r); [lia|reflexivity].
Qed.

Lemma rt_dec_last :
  cts_last (negb enc) ctx t m1 s1 (Z.to_nat q) r = load128 m (src + 16 * q).
Proof.
  destruct rt_q as (Hq & Hr' & El).
  unfold cts_last. rewrite rt_dec_merged, rt_tweak_last. unfold cts_first.
  rewrite Z2Nat.id by lia.
  apply xts_block_inv; auto using iter_gf_mulx_lane, load128_lane.
Qed.

Lemma rt_stolen i : full <= i < len -> xts_out_byte (negb enc) ctx t m1 s1 len i = m (src + i).
Proof.
  destruct rt_q as (Hq & Hr' & El). intros Hi.
  assert (Ef : full = 16 * q).
  { unfold full, q. destruct (Z.eqb_spec (len mod 16) 0); [contradiction|reflexivity]. }
  unfold xts_out_byte. rewrite rt_cond_false by lia. fold q r.
  destruct (Z.ltb_spec i (16 * q + 16)).
  - rewrite rt_dec_last, byte_load128 by (auto; lia). f_equal. lia.
  - rewrite rt_dec_first. unfold cts_merged.
    rewrite byte_of_map by (try (intros; apply rt_merged_byte_ok); lia).
    destruct (Z.ltb_spec (i - 16 * q - 16) r); [|lia].
    rewrite Z2Nat.id by lia. f_equal. lia.
Qed.

End Stolen.

Lemma round_trip_bytes i :
  0 <= i < len -> xts_out_byte (negb enc) ctx t m1 s1 len i = m (src + i).
Proof.
  intros Hi. destruct (Z.lt_ge_cases i full) as [Hf|Hf].
  - apply rt_full. lia.
  - apply rt_stolen; [|lia]. intros H0.
    unfold full in Hf. rewrite H0 in Hf. cbn in Hf. lia.
Qed.

End RoundTrip.

(** ** A call on the tail of a buffer, under the tweak carried forward *)

Section Shift.
Variables (enc : bool) (ctx : crypto_aes_ctx) (t : Z) (m : mem) (src : Z) (k : nat).

Lemma iter_shift (j : nat) : Nat.iter j gf_mulx (Nat.iter k gf_mulx t) = Nat.iter (k + j) gf_mulx t.
Proof. rewrite iter_plus. f_equal. lia. Qed.

Lemma xts_blk_shift j :
  xts_blk enc ctx (Nat.iter k gf_mulx t) m (src + 16 * Z.of_nat k) j
  = xts_blk enc ctx t m src (k + j).
Proof. unfold xts_blk. rewrite iter_shift. do 2 f_equal. lia. Qed.

Lemma cts_first_shift q :
  cts_first enc ctx (Nat.iter k gf_mulx t) m (src + 16 * Z.of_nat k) q
  = cts_first enc ctx t m src (k + q).
Proof.
  unfold cts_first. rewrite iter_shift.
  replace (k + (if enc then q else S q))%nat with (if enc then (k + q)%nat else S (k + q))
    by (destruct enc; lia).
  do 2 f_equal. lia.
Qed.

Lemma cts_merged_shift q r :
  cts_merged enc ctx (Nat.iter k gf_mulx t) m (src + 16 * Z.of_nat k) q r
  = cts_merged enc ctx t m src (k + q) r.
Proof.
  unfold cts_merged. rewrite cts_first_shift. f_equal. apply map_ext. intros i.
  destruct (i <? r); [f_equal; lia|reflexivity].
Qed.

Lemma cts_last_shift q r :
  cts_last enc ctx (Nat.iter k gf_mulx t) m (src + 16 * Z.of_nat k) q r
  = cts_last enc ctx t m src (k + q) r.
Proof.
  unfold cts_last. rewrite cts_merged_shift, iter_shift.
  replace (k + (if enc then S q else q))%nat with (if enc then S (k + q) else (k + q)%nat)
    by (destruct enc; lia).
  reflexivity.
Qed.

End Shift.

Lemma add_mult16 len1 len2 :
  len1 mod 16 = 0 ->
  (len1 + len2) mod 16 = len2 mod 16 /\ (len1 + len2) / 16 = len1 / 16 + len2 / 16 /\
  len1 = 16 * (len1 / 16).
Proof.
  intros H1. pose proof (Z.div_mod len1 16 ltac:(lia)) as E1.
  assert (E : len1 = 16 * (len1 / 16)) by lia.
  split; [|split; [|exact E]].
  - rewrite E at 1. rewrite Z.add_comm, Z.mul_comm, Z.mod_add by lia. reflexivity.
  - rewrite E at 1. rewrite Z.mul_comm, Z.div_add_l by lia. reflexivity.
Qed.

Lemma xts_out_byte_head enc ctx t m src len1 len2 i :
  len1 mod 16 = 0 -> 16 <= len2 -> 0 <= i < len1 ->
  xts_out_byte enc ctx t m src (len1 + len2) i = xts_out_byte enc ctx t m src len1 i.
Proof.
  intros H1 H2 Hi. destruct (add_mult16 len1 len2 H1) as (Em & Ed & E1).
  pose proof (div16_pos len2 H2).
  unfold xts_out_byte. rewrite Em, Ed, H1. cbn [Z.eqb orb].
  destruct (Z.ltb_spec i (16 * (len1 / 16 + len2 / 16 - 1))); [|lia].
  now rewrite orb_true_r.
Qed.

Lemma xts_out_byte_tail enc ctx t m src len1 len2 i :
  len1 mod 16 = 0 -> 0 <= len1 -> 16 <= len2 -> 0 <= i < len2 ->
  xts_out_byte enc ctx t m src (len1 + len2) (len1 + i)
  = xts_out_byte enc ctx (Nat.iter (Z.to_nat (len1 / 16)) gf_mulx t) m (src + len1) len2 i.
Proof.
  intros H1 H0 H2 Hi. destruct (add_mult16 len1 len2 H1) as (Em & Ed & E1).
  pose proof (div16_pos len2 H2) as Hq2.
  assert (Hk : 0 <= len1 / 16) by (apply Z.div_pos; lia).
  destruct (split16 i ltac:(lia)) as (Ei & Hr & Hq).
  unfold xts_out_byte. rewrite Em, Ed.
  replace (src + len1) with (src + 16 * Z.of_nat (Z.to_nat (len1 / 16))) by lia.
  rewrite xts_blk_shift, cts_last_shift, cts_first_shift.
  replace (len1 + i) with (16 * (len1 / 16 + i / 16) + i mod 16) by lia.
  destruct (div16_block (len1 / 16 + i / 16) (i mod 16) Hr) as [-> ->].
  replace (Z.to_nat (len1 / 16 + i / 16)) with (Z.to_nat (len1 / 16) + Z.to_nat (i / 16))%nat by lia.
  replace (Z.to_nat (len1 / 16 + len2 / 16 - 1))
    with (Z.to_nat (len1 / 16) + Z.to_nat (len2 / 16 - 1))%nat by lia.
  replace (16 * (len1 / 16 + i / 16) + i mod 16 <? 16 * (len1 / 16 + len2 / 16 - 1))
    with (i <? 16 * (len2 / 16 - 1)) by (apply Bool.eq_true_iff_eq; rewrite !Z.ltb_lt; lia).
  replace (16 * (len1 / 16 + i / 16) + i mod 16 <? 16 * (len1 / 16 + len2 / 16 - 1) + 16)
    with (i <? 16 * (len2 / 16 - 1) + 16) by (apply Bool.eq_true_iff_eq; rewrite !Z.ltb_lt; lia).
  destruct ((len2 mod 16 =? 0) || (i <? 16 * (len2 / 16 - 1))); [reflexivity|].
  destruct (i <? 16 * (len2 / 16 - 1) + 16); f_equal; lia.
Qed.

Lemma xts_tweak_out_add t len1 len2 :
  len1 mod 16 = 0 -> 0 <= len1 -> 16 <= len2 ->
  xts_tweak_out (Nat.iter (Z.to_nat (len1 / 16)) gf_mulx t) len2 = xts_tweak_out t (len1 + len2).
Proof.
  intros H1 H0 H2. destruct (add_mult16 len1 len2 H1) as (Em & Ed & E1).
  pose proof (div16_pos len2 H2) as Hq2.
  assert (Hk : 0 <= len1 / 16) by (apply Z.div_pos; lia).
  unfold xts_tweak_out. rewrite Em, Ed, iter_plus. f_equal.
  destruct (len2 mod 16 =? 0); lia.
Qed.

Lemma xts_tweak_out_mult t len :
  len mod 16 = 0 -> xts_tweak_out t len = Nat.iter (Z.to_nat (len / 16)) gf_mulx t.
Proof. intros H. unfold xts_tweak_out. now rewrite H. Qed.

(** * The properties the specification states *)

(** ** The tweak computation *)

Lemma next_tweak_carry t :
  0 <= t < 2 ^ 128 -> Z.testbit (_next_tweak t) 64 = Z.testbit t 63.
Proof.
  intros Ht. rewrite next_tweak_gf_mulx by exact Ht. unfold gf_mulx.
  rewrite Z.lxor_spec. unfold mask.
  rewrite Z.land_spec, Z.shiftl_spec, Z.ones_spec_low by lia.
  change (64 - 1) with 63.
  destruct (Z.testbit t 127); [change (Z.testbit 135 64) with false|rewrite Z.bits_0];
    now rewrite andb_true_r, xorb_false_r.
Qed.

(** C2: for every 128-bit tweak T, the instruction sequence of _next_tweak
    (vpshufd, vpaddq on 64-bit lanes, vpsrad, vpand with the pair {0x87, 1},
    vpxor) computes T*x as the specification defines it: T shifted left by
    one bit across the 128 bits, with 0x87 XORed into the low byte when a 1
    was carried out of the top.  Bit 63 of T is carried into bit 64 of the
    result. *)
Theorem C2_next_tweak_is_mul_by_x (t : Z) :
  0 <= t < 2 ^ 128 ->
  _next_tweak t = gf_mulx t /\
  Z.testbit (_next_tweak t) 64 = Z.testbit t 63.
Proof.
  intros Ht. split; [now apply next_tweak_gf_mulx|now apply next_tweak_carry].
Qed.

Lemma C2_next_tweak_all_ones :
  _next_tweak (2 ^ 128 - 1) = gf_mulx (2 ^ 128 - 1) /\
  Z.testbit (_next_tweak (2 ^ 128 - 1)) 64 = Z.testbit (2 ^ 128 - 1) 63.
Proof. apply (C2_next_tweak_is_mul_by_x (2 ^ 128 - 1)). vm_compute. split; congruence. Defined.

Lemma next_tweak_iter_gf_mulxn n t :
  lane_ok t -> (n <= 121)%nat -> next_tweak_iter n t = gf_mulxn (Z.of_nat n) t.
Proof.
  intros Ht Hn. rewrite next_tweak_iter_gf by exact Ht. now apply iter_gf_mulx.
Qed.

(* _next_tweakvec for any vector length whose lanes stay within the reach
   of the 64-bit shifts. *)
Lemma next_tweakvec_iter VL avx (v : vec) :
  16 <= VL <= 16 * 57 -> VL mod 16 = 0 -> length v = nlanes VL -> lanes_ok v ->
  _next_tweakvec VL avx v = map (next_tweak_iter (nlanes VL)) v.
Proof.
  intros HVL Hmod Hlen Hv. unfold _next_tweakvec.
  assert (En : VL / 16 = Z.of_nat (nlanes VL)).
  { unfold nlanes. rewrite Z2Nat.id; [reflexivity|]. apply Z.div_pos; lia. }
  assert (Hn : 1 <= VL / 16 <= 57).
  { pose proof (Z.div_mod VL 16). lia. }
  destruct (Z.eqb_spec VL 16) as [->|Hne].
  - unfold vop1. apply map_ext. intros x. reflexivity.
  - unfold _vbroadcast128, vop1. rewrite <- Hlen, vop2_bcast, map_map.
    rewrite xor3_map.
    + apply map_ext_lanes; [exact Hv|]. intros x Hx.
      rewrite pclmul_advance_lane by (auto; apply Hx).
      rewrite En, Hlen. symmetry. apply next_tweak_iter_gf_mulxn; [exact Hx|lia].
    + intros x _. lanes.
Qed.

Lemma pclmul_steps_iter VL (r : tweak_regs) :
  VL = 32 \/ VL = 64 ->
  let r' := _tweak_step_pclmul VL 1000
              (fold_left (fun r i => _tweak_step_pclmul VL i r) steps20 r) in
  TWEAK0 r' = pclmul_vec VL (TWEAK0 r) /\ TWEAK1 r' = pclmul_vec VL (TWEAK1 r) /\
  TWEAK2 r' = pclmul_vec VL (TWEAK2 r) /\ TWEAK3 r' = pclmul_vec VL (TWEAK3 r).
Proof. intros [-> | ->]; destruct r; repeat split; reflexivity. Qed.

Lemma pclmul_vec_iter VL (v : vec) :
  VL = 32 \/ VL = 64 -> length v = nlanes VL -> lanes_ok v ->
  pclmul_vec VL v = map (next_tweak_iter (4 * nlanes VL)) v.
Proof.
  intros HVL Hlen Hv. rewrite pclmul_vec_spec by assumption.
  apply map_ext_lanes; [exact Hv|]. intros x Hx. symmetry. now apply next_tweak_iter_gf.
Qed.

(** C3: for n in {1, 2, 3, 4, 8, 16} and every vector of 128-bit tweaks
    (the all-ones tweak included), _next_tweakvec at the vector length of n
    blocks (the vpclmulqdq path when n > 1) gives in every lane the result
    of n sequential single-tweak steps _next_tweak.  And for the vector
    lengths 32 and 64, the completed sequence of _tweak_step_pclmul (steps 0
    to 19, then 1000) advances every lane of TWEAK0 to TWEAK3 as 8 and 16
    sequential single-tweak steps do. *)
Theorem C3_batched_advance_is_serial (n : Z) (avx : bool) (v : vec) :
  In n [1; 2; 3; 4; 8; 16] -> lanes_ok v -> length v = Z.to_nat n ->
  _next_tweakvec (16 * n) avx v = map (next_tweak_iter (Z.to_nat n)) v /\
  (n = 8 \/ n = 16 ->
   forall r : tweak_regs,
     length (TWEAK0 r) = nlanes (4 * n) -> length (TWEAK1 r) = nlanes (4 * n) ->
     length (TWEAK2 r) = nlanes (4 * n) -> length (TWEAK3 r) = nlanes (4 * n) ->
     lanes_ok (TWEAK0 r) -> lanes_ok (TWEAK1 r) -> lanes_ok (TWEAK2 r) -> lanes_ok (TWEAK3 r) ->
     let r' := _tweak_step_pclmul (4 * n) 1000
                 (fold_left (fun r i => _tweak_step_pclmul (4 * n) i r) steps20 r) in
     TWEAK0 r' = map (next_tweak_iter (Z.to_nat n)) (TWEAK0 r) /\
     TWEAK1 r' = map (next_tweak_iter (Z.to_nat n)) (TWEAK1 r) /\
     TWEAK2 r' = map (next_tweak_iter (Z.to_nat n)) (TWEAK2 r) /\
     TWEAK3 r' = map (next_tweak_iter (Z.to_nat n)) (TWEAK3 r)).
Proof.
  intros Hn Hv Hlen.
  assert (Hr : 1 <= n <= 16) by (cbn [In] in Hn; lia).
  assert (En : nlanes (16 * n) = Z.to_nat n).
  { unfold nlanes. f_equal. rewrite Z.mul_comm. apply Z.div_mul. lia. }
  split.
  - rewrite <- En. apply next_tweakvec_iter; try lia; try assumption.
    rewrite Z.mul_comm. apply Z.mod_mul. lia.
  - intros H816 r L0 L1 L2 L3 O0 O1 O2 O3 r'.
    assert (HVL : 4 * n = 32 \/ 4 * n = 64) by lia.
    assert (E4 : (4 * nlanes (4 * n))%nat = Z.to_nat n).
    { destruct H816 as [-> | ->]; reflexivity. }
    destruct (pclmul_steps_iter (4 * n) r HVL) as (P0 & P1 & P2 & P3).
    fold r' in P0, P1, P2, P3.
    rewrite P0, P1, P2, P3, <- E4. repeat split; now apply pclmul_vec_iter.
Qed.

Lemma all_ones_lanes n : lanes_ok (repeat (2 ^ 128 - 1) n).
Proof. apply Forall_forall. intros x Hx. apply repeat_spec in Hx. subst x. vm_compute. split; congruence. Qed.

Lemma C3_all_ones_16_blocks :
  _next_tweakvec (16 * 16) true (repeat (2 ^ 128 - 1) 16)
  = map (next_tweak_iter (Z.to_nat 16)) (repeat (2 ^ 128 - 1) 16) /\
  let r' := _tweak_step_pclmul (4 * 16) 1000
              (fold_left (fun r i => _tweak_step_pclmul (4 * 16) i r) steps20 all_ones_regs) in
  TWEAK0 r' = map (next_tweak_iter (Z.to_nat 16)) (TWEAK0 all_ones_regs) /\
  TWEAK1 r' = map (next_tweak_iter (Z.to_nat 16)) (TWEAK1 all_ones_regs) /\
  TWEAK2 r' = map (next_tweak_iter (Z.to_nat 16)) (TWEAK2 all_ones_regs) /\
  TWEAK3 r' = map (next_tweak_iter (Z.to_nat 16)) (TWEAK3 all_ones_regs).
Proof.
  destruct (C3_batched_advance_is_serial 16 true (repeat (2 ^ 128 - 1) 16)) as [H1 H2].
  - cbn [In]. lia.
  - apply all_ones_lanes.
  - reflexivity.
  - split; [exact H1|].
    apply H2; try reflexivity; try apply all_ones_lanes. right. reflexivity.
Defined.

(** ** The cipher core *)

Lemma aes_crypt_runs_rounds VL avx ctx KEY keys enc (sfx : bool) (tweak data : vec) :
  _aes_crypt VL avx ctx KEY keys enc sfx tweak data
  = aes_crypt_with_rounds VL avx ctx KEY keys (_aes_crypt_rounds ctx) enc sfx tweak data.
Proof.
  unfold _aes_crypt, aes_crypt_with_rounds, _aes_crypt_rounds.
  destruct (signed 32 (KEYLEN ctx) <=? 24); [destruct (KEYLEN ctx =? 24)|]; reflexivity.
Qed.

(* Names the result of a round of _vaes_4x whose operands are named. *)
Ltac name_round :=
  match goal with
  | |- context [_vaes_4x ?a ?b ?c ?d ?e ?f ?g ?h ?x ?y] =>
      is_var x; is_var y;
      destruct (_vaes_4x a b c d e f g h x y) as [? ?]; cbn [fst snd]
  end.

(* The branches of .Lmain_loop on the key length select the rounds that
   those of _aes_crypt select. *)
Lemma main_loop_runs_rounds VL avx ctx KEY keys enc (st : state) :
  main_loop_body VL avx ctx KEY keys enc st
  = main_loop_body_with_rounds VL avx ctx KEY keys enc (_aes_crypt_rounds ctx) st.
Proof.
  unfold main_loop_body, main_loop_body_with_rounds, _aes_crypt_rounds. cbv zeta.
  match goal with
  | |- context [_vaes_4x _ _ _ _ _ _ false 1 ?x ?y] =>
      generalize x; intros d0; generalize y; intros r0
  end.
  destruct (signed 32 (KEYLEN ctx) <=? 24); [destruct (KEYLEN ctx =? 24)|];
    cbn [app fold_left fst snd]; repeat name_round; reflexivity.
Qed.

Lemma aes_crypt_rounds_eq ctx :
  keylen_ok ctx ->
  _aes_crypt_rounds ctx
  = map (fun i => (false, Z.of_nat i)) (seq 1 9) ++
    map (fun i => (false, Z.of_nat i)) (seq 10 (Nr (key_length ctx) - 10)) ++
    [(true, Z.of_nat (Nr (key_length ctx)))].
Proof.
  unfold _aes_crypt_rounds, KEYLEN. intros [H|[H|H]]; rewrite H; reflexivity.
Qed.

(** C4 (as the code has it): for a key length of 16, 24 or 32 bytes the
    cipher core goes through exactly 10, 12 or 14 rounds: the rounds 1 to 9,
    then 0, 2 or 4 further non-final rounds (10 .. Nr-1), then the
    direction's last round Nr.  The rounds are a function of the key length
    alone.  Both places that branch on the key length run them: what
    _aes_crypt computes is these rounds of _vaes_1x, in order, between its
    entry XOR and its exit XOR, and what one pass of .Lmain_loop computes is
    these rounds of _vaes_4x, in order, between its entry XOR and its exit
    XOR. *)
Theorem C4_round_count (ctx : crypto_aes_ctx) :
  keylen_ok ctx ->
  let nr := Nr (key_length ctx) in
  _aes_crypt_rounds ctx
  = map (fun i => (false, Z.of_nat i)) (seq 1 9) ++
    map (fun i => (false, Z.of_nat i)) (seq 10 (nr - 10)) ++ [(true, Z.of_nat nr)] /\
  length (_aes_crypt_rounds ctx) = nr /\
  nr = (if key_length ctx =? 16 then 10%nat else if key_length ctx =? 24 then 12%nat else 14%nat) /\
  length (extra_rounds (_aes_crypt_rounds ctx))
  = (if key_length ctx =? 16 then 0%nat else if key_length ctx =? 24 then 2%nat else 4%nat) /\
  (forall ctx', key_length ctx' = key_length ctx -> _aes_crypt_rounds ctx' = _aes_crypt_rounds ctx) /\
  (forall VL avx KEY keys enc (sfx : bool) tweak data,
     _aes_crypt VL avx ctx KEY keys enc sfx tweak data
     = aes_crypt_with_rounds VL avx ctx KEY keys (_aes_crypt_rounds ctx) enc sfx tweak data) /\
  (forall VL avx KEY keys enc st,
     main_loop_body VL avx ctx KEY keys enc st
     = main_loop_body_with_rounds VL avx ctx KEY keys enc (_aes_crypt_rounds ctx) st).
Proof.
  intros Hk nr. split; [now apply aes_crypt_rounds_eq|].
  split; [|split; [|split; [|split; [|split]]]].
  - unfold _aes_crypt_rounds, KEYLEN, nr. destruct Hk as [H|[H|H]]; rewrite H; reflexivity.
  - reflexivity.
  - unfold _aes_crypt_rounds, KEYLEN. destruct Hk as [H|[H|H]]; rewrite H; reflexivity.
  - intros ctx' H. unfold _aes_crypt_rounds, KEYLEN. now rewrite H.
  - intros. apply aes_crypt_runs_rounds.
  - intros. apply main_loop_runs_rounds.
Qed.

Lemma C4_round_count_192 :
  let nr := Nr (key_length fips197_ctx192) in
  _aes_crypt_rounds fips197_ctx192
  = map (fun i => (false, Z.of_nat i)) (seq 1 9) ++
    map (fun i => (false, Z.of_nat i)) (seq 10 (nr - 10)) ++ [(true, Z.of_nat nr)] /\
  length (_aes_crypt_rounds fips197_ctx192) = nr /\
  nr = (if key_length fips197_ctx192 =? 16 then 10%nat
        else if key_length fips197_ctx192 =? 24 then 12%nat else 14%nat) /\
  length (extra_rounds (_aes_crypt_rounds fips197_ctx192))
  = (if key_length fips197_ctx192 =? 16 then 0%nat
     else if key_length fips197_ctx192 =? 24 then 2%nat else 4%nat) /\
  (forall ctx', key_length ctx' = key_length fips197_ctx192 ->
     _aes_crypt_rounds ctx' = _aes_crypt_rounds fips197_ctx192) /\
  (forall VL avx KEY keys enc (sfx : bool) tweak data,
     _aes_crypt VL avx fips197_ctx192 KEY keys enc sfx tweak data
     = aes_crypt_with_rounds VL avx fips197_ctx192 KEY keys (_aes_crypt_rounds fips197_ctx192)
         enc sfx tweak data) /\
  (forall VL avx KEY keys enc st,
     main_loop_body VL avx fips197_ctx192 KEY keys enc st
     = main_loop_body_with_rounds VL avx fips197_ctx192 KEY keys enc
         (_aes_crypt_rounds fips197_ctx192) st).
Proof.
  apply (C4_round_count fips197_ctx192). right. left. reflexivity.
Defined.

(* The statement of the claim fails.  With a 24-byte key two non-final
   rounds follow round 9, not one, and with a 32-byte key four, not three:
   on the example block of FIPS 197 (appendix C.2 and C.3, tweak 0)
   _aes_crypt returns the ciphertext of the standard, which the rounds as
   the specification counts them do not give; and the first block a pass of
   .Lmain_loop stores is the one _aes_crypt gives, not the one they give. *)
Lemma C4_not_one_or_three_extra_rounds :
  extra_rounds (_aes_crypt_rounds fips197_ctx192) = [(false, 10); (false, 11)] /\
  extra_rounds (spec_rounds 24) = [(false, 10)] /\
  extra_rounds (_aes_crypt_rounds fips197_ctx256)
  = [(false, 10); (false, 11); (false, 12); (false, 13)] /\
  extra_rounds (spec_rounds 32) = [(false, 10); (false, 11); (false, 12)] /\
  _aes_crypt 16 false fips197_ctx192 0 (_load_round_keys 16 false fips197_ctx192 0)
    true true [0] [0xffeeddccbbaa99887766554433221100]
  = [0x91710deca070af6ee0df4c86a47ca9dd] /\
  aes_crypt_with_rounds 16 false fips197_ctx192 0 (_load_round_keys 16 false fips197_ctx192 0)
    (spec_rounds 24) true true [0] [0xffeeddccbbaa99887766554433221100]
  <> [0x91710deca070af6ee0df4c86a47ca9dd] /\
  _aes_crypt 16 false fips197_ctx256 0 (_load_round_keys 16 false fips197_ctx256 0)
    true true [0] [0xffeeddccbbaa99887766554433221100]
  = [0x8960494b9049fceabf456751cab7a28e] /\
  aes_crypt_with_rounds 16 false fips197_ctx256 0 (_load_round_keys 16 false fips197_ctx256 0)
    (spec_rounds 32) true true [0] [0xffeeddccbbaa99887766554433221100]
  <> [0x8960494b9049fceabf456751cab7a28e] /\
  [load128 (MEM (main_loop_body 16 false fips197_ctx192 0
                   (_load_round_keys 16 false fips197_ctx192 0) true (sample_state 16 false))) 1024]
  = _aes_crypt 16 false fips197_ctx192 0 (_load_round_keys 16 false fips197_ctx192 0)
      true true [load128 counting_mem 4096] [load128 counting_mem 0] /\
  [load128 (MEM (main_loop_body 16 false fips197_ctx256 0
                   (_load_round_keys 16 false fips197_ctx256 0) true (sample_state 16 false))) 1024]
  = _aes_crypt 16 false fips197_ctx256 0 (_load_round_keys 16 false fips197_ctx256 0)
      true true [load128 counting_mem 4096] [load128 counting_mem 0] /\
  load128 (MEM (main_loop_body 16 false fips197_ctx192 0
                  (_load_round_keys 16 false fips197_ctx192 0) true (sample_state 16 false))) 1024
  <> load128 (MEM (main_loop_body_with_rounds 16 false fips197_ctx192 0
                     (_load_round_keys 16 false fips197_ctx192 0) true (spec_rounds 24)
                     (sample_state 16 false))) 1024 /\
  load128 (MEM (main_loop_body 16 false fips197_ctx256 0
                  (_load_round_keys 16 false fips197_ctx256 0) true (sample_state 16 false))) 1024
  <> load128 (MEM (main_loop_body_with_rounds 16 false fips197_ctx256 0
                     (_load_round_keys 16 false fips197_ctx256 0) true (spec_rounds 32)
                     (sample_state 16 false))) 1024.
Proof.
  split; [reflexivity|]. split; [reflexivity|]. split; [reflexivity|]. split; [reflexivity|].
  split; [vm_compute; reflexivity|]. split; [intros H; vm_compute in H; discriminate H|].
  split; [vm_compute; reflexivity|]. split; [intros H; vm_compute in H; discriminate H|].
  split; [vm_compute; reflexivity|]. split; [vm_compute; reflexivity|].
  split; intros H; vm_compute in H; discriminate H.
Qed.

(** C5: for vectors of blocks B and tweaks T, _aes_crypt returns in every
    lane Cipher(B xor T) xor T, with the lane's own block and tweak, where
    Cipher is the plain AES encryption or decryption under the round keys
    of the context; and the three-way XOR of round key 0, the tweak and the
    data at entry (_xor3) gives in every lane (B xor T) xor round key 0, the
    tweak XOR followed by the first round-key addition. *)
Theorem C5_tweaked_block_cipher (VL : Z) (avx : bool) (ctx : crypto_aes_ctx)
    (enc sfx : bool) (tweak data : vec) :
  VL_ok VL -> keylen_ok ctx -> ctx_ok ctx ->
  lanes_ok tweak -> lanes_ok data ->
  length tweak = length data -> length data = (if sfx then 1%nat else nlanes VL) ->
  let keys := _load_round_keys VL avx ctx (KEY_of enc) in
  _aes_crypt VL avx ctx (KEY_of enc) keys enc sfx tweak data
  = map (fun p => Z.lxor (Cipher enc ctx (Z.lxor (snd p) (fst p))) (fst p)) (combine tweak data) /\
  _xor3 avx (if sfx then of_xmm (xmm (KEYi keys 0)) else KEYi keys 0) tweak data
  = map (fun p => Z.lxor (Z.lxor (snd p) (fst p)) (round_key ctx enc 0)) (combine tweak data).
Proof.
  intros HVL Hk Hc Ht Hd Hl Hn keys. split.
  - unfold keys. rewrite aes_crypt_spec by assumption. reflexivity.
  - unfold keys. rewrite KEYi_loaded by (auto; lia).
    unfold round_key. change (if enc then 0 else 240) with (KEY_of enc).
    apply xor3_key_entry; auto. apply ctx_load128_lane, Hc.
Qed.

Lemma fips197_ctx128_valid : valid_key_schedule fips197_ctx128.
Proof. vm_compute. reflexivity. Qed.

Lemma fips197_ctx192_valid : valid_key_schedule fips197_ctx192.
Proof. vm_compute. reflexivity. Qed.

Lemma fips197_ctx256_valid : valid_key_schedule fips197_ctx256.
Proof. vm_compute. reflexivity. Qed.

Lemma valid_keylen_ok ctx : valid_key_schedule ctx -> keylen_ok ctx.
Proof. intros H. apply (valid_key_schedule_inv ctx H). Qed.

Lemma valid_ctx_ok ctx : valid_key_schedule ctx -> ctx_ok ctx.
Proof. intros H. apply (valid_key_schedule_inv ctx H). Qed.

Lemma lanes_ok_1 x : 0 <= x < 2 ^ 128 -> lanes_ok [x].
Proof. intros H. apply Forall_cons; [exact H|apply Forall_nil]. Qed.

Lemma C5_one_block_aes128 :
  let keys := _load_round_keys 16 false fips197_ctx128 (KEY_of true) in
  _aes_crypt 16 false fips197_ctx128 (KEY_of true) keys true true [1]
    [0xffeeddccbbaa99887766554433221100]
  = map (fun p => Z.lxor (Cipher true fips197_ctx128 (Z.lxor (snd p) (fst p))) (fst p))
        (combine [1] [0xffeeddccbbaa99887766554433221100]) /\
  _xor3 false (if true then of_xmm (xmm (KEYi keys 0)) else KEYi keys 0) [1]
    [0xffeeddccbbaa99887766554433221100]
  = map (fun p => Z.lxor (Z.lxor (snd p) (fst p)) (round_key fips197_ctx128 true 0))
        (combine [1] [0xffeeddccbbaa99887766554433221100]).
Proof.
  apply (C5_tweaked_block_cipher 16 false fips197_ctx128 true true [1]
           [0xffeeddccbbaa99887766554433221100]).
  - left. reflexivity.
  - apply valid_keylen_ok, fips197_ctx128_valid.
  - apply valid_ctx_ok, fips197_ctx128_valid.
  - apply lanes_ok_1. lia.
  - apply lanes_ok_1. lia.
  - reflexivity.
  - reflexivity.
Defined.

(** ** The routine on a buffer *)

(* What a call returns: the output bytes in the destination, the tweak of
   .Ldone in the tweak location, and every other byte as it was. *)
Lemma aes_xts_crypt_returns VL avx enc ctx m src dst len tweak :
  VL_ok VL -> keylen_ok ctx -> ctx_ok ctx -> call_ok m src dst len ->
  exists m',
    _aes_xts_crypt VL avx enc ctx src dst len tweak m = Some m' /\
    mem_ok m' /\
    load128 m' tweak = xts_tweak_out (load128 m tweak) len /\
    (forall k, 0 <= k < 16 -> m' (tweak + k) = byte k (xts_tweak_out (load128 m tweak) len)) /\
    (forall i, 0 <= i < len -> apart tweak 16 dst len ->
       m' (dst + i) = xts_out_byte enc ctx (load128 m tweak) m src len i) /\
    (forall a, a < dst \/ dst + len <= a -> a < tweak \/ tweak + 16 <= a -> m' a = m a).
Proof.
  intros HVL Hk Hc (Hm & Hlen & Hb & Hs & Hd).
  destruct (aes_xts_crypt_correct VL avx enc ctx m src dst len tweak) as (m' & Hrun & Heq);
    auto.
  assert (Hout : lane_ok (xts_tweak_out (load128 m tweak) len)).
  { unfold xts_tweak_out. apply iter_gf_mulx_lane. now apply load128_lane. }
  exists m'. split; [exact Hrun|].
  split; [|split; [|split; [|split]]].
  - apply (mem_eq_ok _ _ Heq). now apply xts_result_ok.
  - rewrite (load128_ext m' (xts_result enc ctx src dst len tweak m) tweak tweak)
      by (intros; apply Heq).
    unfold xts_result. now apply load128_store128.
  - intros k Hk'. rewrite Heq. unfold xts_result. rewrite store128_spec.
    destruct (Z.leb_spec tweak (tweak + k)); [|lia].
    destruct (Z.ltb_spec (tweak + k) (tweak + 16)); [|lia]. cbn [andb]. f_equal. lia.
  - intros i Hi Ha. rewrite Heq. unfold xts_result. rewrite store128_spec.
    unfold apart in Ha.
    destruct (Z.leb_spec tweak (dst + i)); destruct (Z.ltb_spec (dst + i) (tweak + 16));
      cbn [andb]; try lia; apply xts_mem_at; lia.
  - intros a Ha Ht. rewrite Heq. unfold xts_result. rewrite store128_spec.
    destruct (Z.leb_spec tweak a); destruct (Z.ltb_spec a (tweak + 16));
      cbn [andb]; try lia; apply xts_mem_frame; lia.
Qed.

Lemma call_ok_store m src dst len a v :
  call_ok m src dst len -> call_ok (store128 m a v) src dst len.
Proof. intros (Hm & H). split; [now apply store128_ok|exact H]. Qed.

(** C1: for every valid key schedule (key length 16, 24 or 32 bytes), every
    tweak T and every plaintext of len >= 16 bytes, decrypting the output of
    the encryption, with the tweak location holding T again, returns the
    plaintext.  The two calls may be any of the variants of the routine,
    aes_xts_encrypt_aesni_avx and aes_xts_decrypt_aesni_avx among them; each
    works in place or between disjoint buffers, and the tweak location lies
    apart from the two destinations. *)
Theorem C1_decrypt_encrypt_round_trip (VL VL' : Z) (avx avx' : bool) (ctx : crypto_aes_ctx)
    (m : mem) (src dst dst' len tweak : Z) :
  VL_ok VL -> VL_ok VL' -> valid_key_schedule ctx ->
  call_ok m src dst len -> apart tweak 16 dst len ->
  buffers_ok dst dst' len -> 0 <= dst' /\ dst' + len < 2 ^ 64 -> apart tweak 16 dst' len ->
  exists m1 m2,
    _aes_xts_crypt VL avx true ctx src dst len tweak m = Some m1 /\
    _aes_xts_crypt VL' avx' false ctx dst dst' len tweak (store128 m1 tweak (load128 m tweak))
      = Some m2 /\
    forall i, 0 <= i < len -> m2 (dst' + i) = m (src + i).
Proof.
  intros HVL HVL' Hv Hc Ha Hb' Hd' Ha'.
  pose proof (valid_keylen_ok ctx Hv) as Hk. pose proof (valid_ctx_ok ctx Hv) as Hx.
  destruct (aes_xts_crypt_returns VL avx true ctx m src dst len tweak HVL Hk Hx Hc)
    as (m1 & Hrun1 & Hm1 & _ & _ & Hout1 & _).
  pose proof Hc as (Hm & Hlen & Hb & Hs & Hd).
  assert (Ht : lane_ok (load128 m tweak)) by now apply load128_lane.
  set (m1' := store128 m1 tweak (load128 m tweak)).
  assert (Hc' : call_ok m1' dst dst' len).
  { split; [now apply store128_ok|]. repeat split; auto; lia. }

  destruct (aes_xts_crypt_returns VL' avx' false ctx m1' dst dst' len tweak HVL' Hk Hx Hc')
    as (m2 & Hrun2 & _ & _ & _ & Hout2 & _).
  exists m1, m2. split; [exact Hrun1|]. split; [exact Hrun2|].
  intros i Hi. rewrite Hout2 by assumption.
  unfold m1' at 1. rewrite load128_store128 by exact Ht.
  apply (round_trip_bytes ctx true); auto; [lia|].
  intros j Hj. unfold m1'. rewrite store128_spec.
  unfold apart in Ha.
  destruct (Z.leb_spec tweak (dst + j)); destruct (Z.ltb_spec (dst + j) (tweak + 16));
    cbn [andb]; try lia; now apply Hout1.
Qed.

Lemma call_ok_head m src dst len1 len2 :
  16 <= len1 -> 0 <= len2 -> call_ok m src dst (len1 + len2) -> call_ok m src dst len1.
Proof.
  intros H1 H2 (Hm & Hlen & Hb & Hs & Hd). unfold call_ok, buffers_ok in *.
  split; [exact Hm|]. repeat split; lia.
Qed.

Lemma call_ok_tail m m1 src dst len1 len2 :
  0 <= len1 -> 16 <= len2 -> mem_ok m1 -> call_ok m src dst (len1 + len2) ->
  call_ok m1 (src + len1) (dst + len1) len2.
Proof.
  intros H1 H2 Hm1 (Hm & Hlen & Hb & Hs & Hd). unfold call_ok, buffers_ok in *.
  split; [exact Hm1|]. repeat split; lia.
Qed.

(** C6: after a call whose length len1 is a multiple of 16 the tweak
    location holds the input tweak times x^(len1/16), the tweak of the next
    contiguous chunk: a second call on the len2 bytes that follow, reading
    the tweak the first call left, gives the same memory as one call on the
    len1 + len2 bytes (1024 bytes as 512 and 512, for one).  The tweak
    location lies apart from the buffers. *)
Theorem C6_tweak_write_back (VL : Z) (avx enc : bool) (ctx : crypto_aes_ctx)
    (m : mem) (src dst len1 len2 tweak : Z) :
  VL_ok VL -> keylen_ok ctx -> ctx_ok ctx ->
  len1 mod 16 = 0 -> 16 <= len1 -> 16 <= len2 ->
  call_ok m src dst (len1 + len2) ->
  apart tweak 16 src (len1 + len2) -> apart tweak 16 dst (len1 + len2) ->
  exists m1 m2 m12,
    _aes_xts_crypt VL avx enc ctx src dst len1 tweak m = Some m1 /\
    load128 m1 tweak = Nat.iter (Z.to_nat (len1 / 16)) gf_mulx (load128 m tweak) /\
    _aes_xts_crypt VL avx enc ctx (src + len1) (dst + len1) len2 tweak m1 = Some m2 /\
    _aes_xts_crypt VL avx enc ctx src dst (len1 + len2) tweak m = Some m12 /\
    mem_eq m2 m12.
Proof.
  intros HVL Hk Hx H1 Hl1 Hl2 Hc Has Had.
  pose proof (call_ok_head m src dst len1 len2 Hl1 ltac:(lia) Hc) as Hc1.
  destruct (aes_xts_crypt_returns VL avx enc ctx m src dst len1 tweak HVL Hk Hx Hc1)
    as (m1 & Hrun1 & Hm1 & Htw1 & _ & Hout1 & Hfr1).
  pose proof (call_ok_tail m m1 src dst len1 len2 ltac:(lia) Hl2 Hm1 Hc) as Hc2.
  destruct (aes_xts_crypt_returns VL avx enc ctx m1 (src + len1) (dst + len1) len2 tweak
              HVL Hk Hx Hc2) as (m2 & Hrun2 & Hm2 & _ & Htw2 & Hout2 & Hfr2).
  destruct (aes_xts_crypt_returns VL avx enc ctx m src dst (len1 + len2) tweak HVL Hk Hx Hc)
    as (m12 & Hrun12 & Hm12 & _ & Htw12 & Hout12 & Hfr12).
  rewrite xts_tweak_out_mult in Htw1 by exact H1.
  exists m1, m2, m12. repeat (split; [assumption|]).
  destruct Hc as (Hm & Hlen & Hb & Hs & Hd). unfold apart, buffers_ok in *.
  intros a.
  destruct (Z.lt_ge_cases a tweak) as [Ht|Ht]; [|destruct (Z.lt_ge_cases a (tweak + 16)) as [Ht'|Ht']].
  2: { (* the tweak location *)
    replace a with (tweak + (a - tweak)) by lia.
    rewrite Htw2, Htw12 by lia. rewrite Htw1, xts_tweak_out_add by (auto; lia). reflexivity. }
  all: destruct (Z.lt_ge_cases a dst) as [Hd0|Hd0];
    [rewrite Hfr2, Hfr1, Hfr12 by lia; reflexivity|];
    destruct (Z.lt_ge_cases a (dst + len1)) as [Hd1|Hd1];
    [rewrite Hfr2 by lia; replace a with (dst + (a - dst)) by lia;
     rewrite Hout1, Hout12 by lia; symmetry; apply xts_out_byte_head; lia|];
    destruct (Z.lt_ge_cases a (dst + (len1 + len2))) as [Hd2|Hd2];
    [|rewrite Hfr2, Hfr1, Hfr12 by lia; reflexivity].
  all: replace a with (dst + len1 + (a - dst - len1)) at 1 by lia;
    replace a with (dst + (len1 + (a - dst - len1))) at 2 by lia;
    rewrite Hout2, Hout12 by lia; rewrite Htw1;
    rewrite xts_out_byte_tail by lia;
    apply xts_out_byte_ext; try lia;
    intros j Hj; apply Hfr1; lia.
Qed.

Lemma xts_out_byte_last enc ctx t m src len k :
  16 <= len -> len mod 16 <> 0 -> 0 <= k < 16 ->
  xts_out_byte enc ctx t m src len (16 * (len / 16 - 1) + k)
  = byte k (cts_last enc ctx t m src (Z.to_nat (len / 16 - 1)) (len mod 16)).
Proof.
  intros Hlen Hr Hk. unfold xts_out_byte.
  destruct (Z.eqb_spec (len mod 16) 0); [contradiction|]. cbn [orb].
  destruct (Z.ltb_spec (16 * (len / 16 - 1) + k) (16 * (len / 16 - 1))); [lia|].
  destruct (Z.ltb_spec (16 * (len / 16 - 1) + k) (16 * (len / 16 - 1) + 16)); [|lia].
  f_equal. lia.
Qed.

Lemma xts_out_byte_stolen enc ctx t m src len k :
  16 <= len -> len mod 16 <> 0 -> 0 <= k < len mod 16 ->
  xts_out_byte enc ctx t m src len (16 * (len / 16 - 1) + 16 + k)
  = byte k (cts_first enc ctx t m src (Z.to_nat (len / 16 - 1))).
Proof.
  intros Hlen Hr Hk. unfold xts_out_byte.
  destruct (Z.eqb_spec (len mod 16) 0); [contradiction|]. cbn [orb].
  destruct (Z.ltb_spec (16 * (len / 16 - 1) + 16 + k) (16 * (len / 16 - 1))); [lia|].
  destruct (Z.ltb_spec (16 * (len / 16 - 1) + 16 + k) (16 * (len / 16 - 1) + 16)); [lia|].
  f_equal. lia.
Qed.

(** C7: a call whose length is not a multiple of 16 handles the last full
    block (block q) and the r = len mod 16 bytes after it with two tweaks:
    T_a, the tweak of block q, and T_b = T_a*x, one _next_tweak step later.
    Encryption puts the last full block through the cipher under T_a and
    the merged block (the r trailing bytes followed by the bytes r..15 of
    that first result) under T_b; decryption uses T_b for the last full
    block and T_a for the merged block.  The second result goes to block q
    of the destination and the first r bytes of the first result follow
    it. *)
Theorem C7_ciphertext_stealing_tweaks (VL : Z) (avx enc : bool) (ctx : crypto_aes_ctx)
    (m : mem) (src dst len tweak : Z) :
  VL_ok VL -> keylen_ok ctx -> ctx_ok ctx ->
  call_ok m src dst len -> apart tweak 16 dst len -> len mod 16 <> 0 ->
  let q := len / 16 - 1 in
  let r := len mod 16 in
  let T_a := Nat.iter (Z.to_nat q) gf_mulx (load128 m tweak) in
  let T_b := _next_tweak T_a in
  let first := xts_block enc ctx (if enc then T_a else T_b) (load128 m (src + 16 * q)) in
  let merged := of_bytes (map (fun i => if i <? r then m (src + 16 * q + 16 + i)
                                        else byte i first) (zseq 16)) in
  let second := xts_block enc ctx (if enc then T_b else T_a) merged in
  T_b = gf_mulx T_a /\
  exists m',
    _aes_xts_crypt VL avx enc ctx src dst len tweak m = Some m' /\
    (forall i, 0 <= i < 16 -> m' (dst + 16 * q + i) = byte i second) /\
    (forall i, 0 <= i < r -> m' (dst + 16 * q + 16 + i) = byte i first).
Proof.
  intros HVL Hk Hx Hc Ha Hr q r T_a T_b first merged second.
  pose proof Hc as (Hm & Hlen & Hb & Hs & Hd).
  pose proof (div16_pos len ltac:(lia)) as Hq.
  destruct (split16 len ltac:(lia)) as (El & Hr' & _).
  assert (HTa : lane_ok T_a) by (apply iter_gf_mulx_lane; now apply load128_lane).
  assert (ETb : T_b = gf_mulx T_a) by (apply next_tweak_gf_mulx, HTa).
  assert (Efirst : cts_first enc ctx (load128 m tweak) m src (Z.to_nat q) = first).
  { unfold cts_first, first. rewrite Z2Nat.id by (unfold q; lia).
    f_equal. destruct enc; [reflexivity|]. rewrite ETb. reflexivity. }
  assert (Esecond : cts_last enc ctx (load128 m tweak) m src (Z.to_nat q) r = second).
  { unfold cts_last, second. f_equal.
    - destruct enc; [|reflexivity]. rewrite ETb. reflexivity.
    - unfold cts_merged, merged. rewrite Efirst. rewrite Z2Nat.id by (unfold q; lia).
      reflexivity. }
  split; [exact ETb|].
  destruct (aes_xts_crypt_returns VL avx enc ctx m src dst len tweak HVL Hk Hx Hc)
    as (m' & Hrun & _ & _ & _ & Hout & _).
  exists m'. split; [exact Hrun|]. split.
  - intros i Hi. rewrite <- Z.add_assoc, Hout by (auto; unfold q; lia).
    unfold q. rewrite xts_out_byte_last by lia. fold q r. now rewrite Esecond.
  - intros i Hi. rewrite <- !Z.add_assoc, Hout by (auto; unfold q, r in *; lia).
    unfold q. rewrite Z.add_assoc, xts_out_byte_stolen by (unfold r in Hi; lia).
    fold q. now rewrite Efirst.
Qed.

(** C8: for every key, tweak and length of at least 16 bytes (multiples of
    16 and lengths that need ciphertext stealing alike), the call with the
    destination equal to the source leaves in it the bytes the call with a
    destination apart from the source leaves there; both are the output computed from
    the source bytes as they were before the call, so no source byte is
    overwritten before it is read. *)
Theorem C8_in_place_equals_disjoint (VL : Z) (avx enc : bool) (ctx : crypto_aes_ctx)
    (m : mem) (src dst len tweak : Z) :
  VL_ok VL -> keylen_ok ctx -> ctx_ok ctx ->
  call_ok m src dst len -> apart tweak 16 src len -> apart tweak 16 dst len ->
  exists m1 m2,
    _aes_xts_crypt VL avx enc ctx src src len tweak m = Some m1 /\
    _aes_xts_crypt VL avx enc ctx src dst len tweak m = Some m2 /\
    forall i, 0 <= i < len ->
      m1 (src + i) = m2 (dst + i) /\
      m1 (src + i) = xts_out_byte enc ctx (load128 m tweak) m src len i.
Proof.
  intros HVL Hk Hx Hc2 Has Had.
  assert (Hc1 : call_ok m src src len).
  { destruct Hc2 as (Hm & Hlen & Hb & Hs & Hd). split; [exact Hm|].
    unfold buffers_ok. repeat split; lia. }
  destruct (aes_xts_crypt_returns VL avx enc ctx m src src len tweak HVL Hk Hx Hc1)
    as (m1 & Hrun1 & _ & _ & _ & Hout1 & _).
  destruct (aes_xts_crypt_returns VL avx enc ctx m src dst len tweak HVL Hk Hx Hc2)
    as (m2 & Hrun2 & _ & _ & _ & Hout2 & _).
  exists m1, m2. split; [exact Hrun1|]. split; [exact Hrun2|].
  intros i Hi. rewrite Hout1, Hout2 by assumption. split; reflexivity.
Qed.

(** C9 (as the code has it): every call ends in .Ldone, which stores
    TWEAK0_XMM to the tweak location, the calls that go through ciphertext
    stealing included (.Lcts ends in jmp .Ldone).  After a call of a length
    that is a multiple of 16 the location holds T*x^(len/16), the tweak of
    the next chunk; after a call that stole ciphertext it holds
    T*x^(len/16 - 1), the tweak of the last full block. *)
Theorem C9_done_stores_the_tweak (VL : Z) (avx enc : bool) (ctx : crypto_aes_ctx)
    (m : mem) (src dst len tweak : Z) :
  VL_ok VL -> keylen_ok ctx -> ctx_ok ctx -> call_ok m src dst len ->
  exists m',
    _aes_xts_crypt VL avx enc ctx src dst len tweak m = Some m' /\
    load128 m' tweak
    = Nat.iter (Z.to_nat (if len mod 16 =? 0 then len / 16 else len / 16 - 1)) gf_mulx
        (load128 m tweak).
Proof.
  intros HVL Hk Hx Hc.
  destruct (aes_xts_crypt_returns VL avx enc ctx m src dst len tweak HVL Hk Hx Hc)
    as (m' & Hrun & _ & Htw & _).
  exists m'. split; [exact Hrun|exact Htw].
Qed.

(* The statement of the claim fails: a 33-byte encryption steals
   ciphertext, and the tweak location, which held T, holds T*x after it. *)
Lemma C9_tweak_stored_after_stealing :
  jnz_test 33 15 = true /\
  load128 counting_mem 256 = 0x0f0e0d0c0b0a09080706050403020100 /\
  option_map (fun m' => load128 m' 256)
    (aes_xts_encrypt_aesni_avx fips197_ctx128 0 64 33 256 counting_mem)
  = Some 0x1e1c1a18161412100e0c0a0806040200.
Proof. vm_compute. repeat split. Qed.

(** ** Round-key slots after the last round *)

Lemma fold_left_ext_in {A B} (f g : A -> B -> A) (l : list B) (a : A) :
  (forall x, In x l -> forall s, f s x = g s x) -> fold_left f l a = fold_left g l a.
Proof.
  revert a. induction l as [|x l IH]; intros a H; [reflexivity|].
  cbn [fold_left]. rewrite (H x (or_introl eq_refl)). apply IH.
  intros y Hy. apply H. now right.
Qed.

Lemma Nr_le_14 kl : (Nr kl <= 14)%nat.
Proof. unfold Nr. destruct (kl =? 16); [lia|]. destruct (kl =? 24); lia. Qed.

Lemma round_key_nth ctx (enc : bool) i :
  (i < 15)%nat ->
  round_key ctx enc (Z.of_nat i) = nth i (if enc then key_enc ctx else key_dec ctx) 0.
Proof. intros Hi. destruct enc; [now apply round_key_enc|apply round_key_dec]. Qed.

Section Agree.
Variables ctx ctx' : crypto_aes_ctx.
Hypothesis Hagree : keys_agree ctx ctx'.
Variable enc : bool.

Lemma round_key_agree i :
  (i <= Nr (key_length ctx))%nat -> round_key ctx' enc (Z.of_nat i) = round_key ctx enc (Z.of_nat i).
Proof.
  intros Hi. pose proof (Nr_le_14 (key_length ctx)).
  rewrite !round_key_nth by lia. destruct Hagree as [_ Hn]. destruct (Hn i Hi) as [He Hd].
  now destruct enc.
Qed.

Lemma Cipher_agree b : Cipher enc ctx' b = Cipher enc ctx b.
Proof.
  unfold Cipher, Rounds. destruct Hagree as [Hkl _]. rewrite Hkl.
  pose proof (round_key_agree 0 ltac:(lia)) as H0. change (Z.of_nat 0) with 0 in H0.
  rewrite H0, (round_key_agree (Nr (key_length ctx))) by lia.
  apply f_equal. apply fold_left_ext_in. intros x Hx s.
  apply in_map_iff in Hx. destruct Hx as (i & <- & Hi). apply in_seq in Hi.
  rewrite round_key_agree by lia. reflexivity.
Qed.

Lemma xts_block_agree t b : xts_block enc ctx' t b = xts_block enc ctx t b.
Proof. unfold xts_block. now rewrite Cipher_agree. Qed.

Lemma xts_mem_agree t m src dst len a :
  xts_mem enc ctx' t m src dst len a = xts_mem enc ctx t m src dst len a.
Proof.
  assert (Hfirst : forall q, cts_first enc ctx' t m src q = cts_first enc ctx t m src q).
  { intros q. unfold cts_first. apply xts_block_agree. }
  assert (Hlast : forall q r, cts_last enc ctx' t m src q r = cts_last enc ctx t m src q r).
  { intros q r. unfold cts_last, cts_merged. rewrite xts_block_agree. do 2 f_equal.
    apply map_ext. intros i. now rewrite Hfirst. }
  assert (Hblocks : forall k, blocks_mem enc ctx' t m src dst k a = blocks_mem enc ctx t m src dst k a).
  { intros k. unfold blocks_mem, xts_blk. now rewrite xts_block_agree. }
  unfold xts_mem. destruct (len mod 16 =? 0); [apply Hblocks|].
  unfold cts_mem. cbv zeta. now rewrite Hlast, Hfirst, Hblocks.
Qed.

Lemma xts_result_agree src dst len tweak m :
  mem_eq (xts_result enc ctx' src dst len tweak m) (xts_result enc ctx src dst len tweak m).
Proof.
  intros a. unfold xts_result. rewrite !store128_spec.
  destruct ((tweak <=? a) && (a <? tweak + 16)); [reflexivity|apply xts_mem_agree].
Qed.

End Agree.

(** C10: for the variants that keep the round keys in registers
    (USE_AVX10, vector length 32 or 64) and a key of 16 or 24 bytes, the
    result does not depend on the round-key slots after the last round:
    two contexts with the same key length and the same round keys 0 to Nr
    (10 or 12), whatever their slots Nr+1 to 14 hold, give the same memory
    on return, destination and tweak location included, though
    _load_round_keys loads all of the slots 0 to 14. *)
Theorem C10_unused_round_key_slots (VL : Z) (enc : bool) (ctx ctx' : crypto_aes_ctx)
    (m : mem) (src dst len tweak : Z) :
  VL = 32 \/ VL = 64 ->
  key_length ctx = 16 \/ key_length ctx = 24 ->
  ctx_ok ctx -> ctx_ok ctx' -> keys_agree ctx ctx' ->
  call_ok m src dst len ->
  length (_load_round_keys VL true ctx (KEY_of enc)) = 15%nat /\
  exists m1 m2,
    _aes_xts_crypt VL true enc ctx src dst len tweak m = Some m1 /\
    _aes_xts_crypt VL true enc ctx' src dst len tweak m = Some m2 /\
    mem_eq m1 m2.
Proof.
  intros HVL Hkl Hx Hx' Hag (Hm & Hlen & Hb & Hs & Hd).
  split; [reflexivity|].
  assert (HVL' : VL_ok VL) by (unfold VL_ok; tauto).
  assert (Hk : keylen_ok ctx) by (unfold keylen_ok; tauto).
  assert (Hk' : keylen_ok ctx') by (destruct Hag as [E _]; unfold keylen_ok; rewrite E; tauto).
  destruct (aes_xts_crypt_correct VL true enc ctx m src dst len tweak) as (m1 & Hrun1 & He1); auto.
  destruct (aes_xts_crypt_correct VL true enc ctx' m src dst len tweak) as (m2 & Hrun2 & He2); auto.
  exists m1, m2. split; [exact Hrun1|]. split; [exact Hrun2|].
  intros a. rewrite He1, He2. symmetry. now apply xts_result_agree.
Qed.

(** ** The properties on sample inputs *)

Lemma counting_mem_ok : mem_ok counting_mem.
Proof. intros a. unfold byte_ok, counting_mem. apply Z.mod_pos_bound. lia. Qed.

Lemma counting_call_ok src dst len :
  16 <= len < 2 ^ 63 -> buffers_ok src dst len ->
  0 <= src /\ src + len < 2 ^ 64 -> 0 <= dst /\ dst + len < 2 ^ 64 ->
  call_ok counting_mem src dst len.
Proof. intros H1 H2 H3 H4. split; [apply counting_mem_ok|]. now repeat split. Qed.

Lemma ctx_ok_lanes ctx :
  forallb lane_okb (key_enc ctx) = true -> forallb lane_okb (key_dec ctx) = true -> ctx_ok ctx.
Proof. intros He Hd. split; now apply forallb_lane_okb. Qed.

Lemma C1_round_trip_40_bytes :
  exists m1 m2,
    _aes_xts_crypt 16 false true fips197_ctx128 0 64 40 256 counting_mem = Some m1 /\
    _aes_xts_crypt 16 false false fips197_ctx128 64 128 40 256
      (store128 m1 256 (load128 counting_mem 256)) = Some m2 /\
    forall i, 0 <= i < 40 -> m2 (128 + i) = counting_mem (0 + i).
Proof.
  apply (C1_decrypt_encrypt_round_trip 16 16 false false fips197_ctx128 counting_mem 0 64 128 40 256).
  - left. reflexivity.
  - left. reflexivity.
  - apply fips197_ctx128_valid.
  - apply counting_call_ok; unfold buffers_ok; lia.
  - unfold apart. lia.
  - unfold buffers_ok. lia.
  - lia.
  - unfold apart. lia.
Defined.

Lemma C6_1024_as_512_and_512 :
  exists m1 m2 m12,
    _aes_xts_crypt 16 false true fips197_ctx128 0 2048 512 4096 counting_mem = Some m1 /\
    load128 m1 4096 = Nat.iter (Z.to_nat (512 / 16)) gf_mulx (load128 counting_mem 4096) /\
    _aes_xts_crypt 16 false true fips197_ctx128 (0 + 512) (2048 + 512) 512 4096 m1 = Some m2 /\
    _aes_xts_crypt 16 false true fips197_ctx128 0 2048 (512 + 512) 4096 counting_mem = Some m12 /\
    mem_eq m2 m12.
Proof.
  apply (C6_tweak_write_back 16 false true fips197_ctx128 counting_mem 0 2048 512 512 4096).
  - left. reflexivity.
  - apply valid_keylen_ok, fips197_ctx128_valid.
  - apply valid_ctx_ok, fips197_ctx128_valid.
  - reflexivity.
  - lia.
  - lia.
  - apply counting_call_ok; unfold buffers_ok; lia.
  - unfold apart. lia.
  - unfold apart. lia.
Defined.

Lemma C7_stealing_40_bytes :
  let q := 40 / 16 - 1 in
  let r := 40 mod 16 in
  let T_a := Nat.iter (Z.to_nat q) gf_mulx (load128 counting_mem 256) in
  let T_b := _next_tweak T_a in
  let first := xts_block false fips197_ctx128 (if false then T_a else T_b)
                 (load128 counting_mem (0 + 16 * q)) in
  let merged := of_bytes (map (fun i => if i <? r then counting_mem (0 + 16 * q + 16 + i)
                                        else byte i first) (zseq 16)) in
  let second := xts_block false fips197_ctx128 (if false then T_b else T_a) merged in
  T_b = gf_mulx T_a /\
  exists m',
    _aes_xts_crypt 16 false false fips197_ctx128 0 64 40 256 counting_mem = Some m' /\
    (forall i, 0 <= i < 16 -> m' (64 + 16 * q + i) = byte i second) /\
    (forall i, 0 <= i < r -> m' (64 + 16 * q + 16 + i) = byte i first).
Proof.
  apply (C7_ciphertext_stealing_tweaks 16 false false fips197_ctx128 counting_mem 0 64 40 256).
  - left. reflexivity.
  - apply valid_keylen_ok, fips197_ctx128_valid.
  - apply valid_ctx_ok, fips197_ctx128_valid.
  - apply counting_call_ok; unfold buffers_ok; lia.
  - unfold apart. lia.
  - discriminate.
Defined.

Lemma C8_in_place_40_bytes :
  exists m1 m2,
    _aes_xts_crypt 32 false true fips197_ctx128 0 0 40 256 counting_mem = Some m1 /\
    _aes_xts_crypt 32 false true fips197_ctx128 0 64 40 256 counting_mem = Some m2 /\
    forall i, 0 <= i < 40 ->
      m1 (0 + i) = m2 (64 + i) /\
      m1 (0 + i) = xts_out_byte true fips197_ctx128 (load128 counting_mem 256) counting_mem 0 40 i.
Proof.
  apply (C8_in_place_equals_disjoint 32 false true fips197_ctx128 counting_mem 0 64 40 256).
  - right. left. reflexivity.
  - apply valid_keylen_ok, fips197_ctx128_valid.
  - apply valid_ctx_ok, fips197_ctx128_valid.
  - apply counting_call_ok; unfold buffers_ok; lia.
  - unfold apart. lia.
  - unfold apart. lia.
Defined.

Lemma C9_tweak_after_33_bytes :
  exists m',
    _aes_xts_crypt 16 false true fips197_ctx128 0 64 33 256 counting_mem = Some m' /\
    load128 m' 256
    = Nat.iter (Z.to_nat (if 33 mod 16 =? 0 then 33 / 16 else 33 / 16 - 1)) gf_mulx
        (load128 counting_mem 256).
Proof.
  apply (C9_done_stores_the_tweak 16 false true fips197_ctx128 counting_mem 0 64 33 256).
  - left. reflexivity.
  - apply valid_keylen_ok, fips197_ctx128_valid.
  - apply valid_ctx_ok, fips197_ctx128_valid.
  - apply counting_call_ok; unfold buffers_ok; lia.
Defined.

Lemma fips197_ctx128_filled_agrees : keys_agree fips197_ctx128 fips197_ctx128_filled.
Proof.
  split; [reflexivity|]. intros i Hi.
  do 11 (destruct i as [|i]; [split; reflexivity|]). cbn in Hi. lia.
Qed.

Lemma C10_filled_slots :
  length (_load_round_keys 64 true fips197_ctx128 (KEY_of true)) = 15%nat /\
  exists m1 m2,
    _aes_xts_crypt 64 true true fips197_ctx128 0 64 40 256 counting_mem = Some m1 /\
    _aes_xts_crypt 64 true true fips197_ctx128_filled 0 64 40 256 counting_mem = Some m2 /\
    mem_eq m1 m2.
Proof.
  apply (C10_unused_round_key_slots 64 true fips197_ctx128 fips197_ctx128_filled
           counting_mem 0 64 40 256).
  - right. reflexivity.
  - left. reflexivity.
  - apply valid_ctx_ok, fips197_ctx128_valid.
  - apply ctx_ok_lanes; vm_compute; reflexivity.
  - apply fips197_ctx128_filled_agrees.
  - apply counting_call_ok; unfold buffers_ok; lia.
Defined.

(** * Further properties of the routine *)

(** ** The routine as a whole *)

(** X1: every variant of _aes_xts_crypt, in both directions and for the
    three key lengths, returns, and the memory it returns is the one XTS
    defines: block j of the destination is Cipher(B_j xor T*x^j) xor T*x^j,
    the last full block and the partial block are exchanged by ciphertext
    stealing when the length is not a multiple of 16, and the tweak location
    holds the tweak of .Ldone.  The memory still holds bytes. *)
Theorem xts_crypt_functional_correctness (VL : Z) (avx enc : bool) (ctx : crypto_aes_ctx)
    (m : mem) (src dst len tweak : Z) :
  VL_ok VL -> keylen_ok ctx -> ctx_ok ctx -> call_ok m src dst len ->
  exists m',
    _aes_xts_crypt VL avx enc ctx src dst len tweak m = Some m' /\
    mem_eq m' (xts_result enc ctx src dst len tweak m) /\
    mem_ok m'.
Proof.
  intros HVL Hk Hx (Hm & Hlen & Hb & Hs & Hd).
  destruct (aes_xts_crypt_correct VL avx enc ctx m src dst len tweak) as (m' & Hrun & Heq); auto.
  exists m'. split; [exact Hrun|]. split; [exact Heq|].
  apply (mem_eq_ok _ _ Heq). now apply xts_result_ok.
Qed.

Lemma xts_crypt_functional_correctness_avx512_256 :
  exists m',
    _aes_xts_crypt 64 true false fips197_ctx256 1000 0 1000 5000 counting_mem = Some m' /\
    mem_eq m' (xts_result false fips197_ctx256 1000 0 1000 5000 counting_mem) /\
    mem_ok m'.
Proof.
  apply (xts_crypt_functional_correctness 64 true false fips197_ctx256 counting_mem 1000 0 1000 5000).
  - right. right. reflexivity.
  - apply valid_keylen_ok, fips197_ctx256_valid.
  - apply valid_ctx_ok, fips197_ctx256_valid.
  - apply counting_call_ok; unfold buffers_ok; lia.
Defined.

(** X2: a call writes the len bytes of the destination and the 16 bytes of
    the tweak location, and nothing else. *)
Theorem xts_crypt_frame (VL : Z) (avx enc : bool) (ctx : crypto_aes_ctx)
    (m : mem) (src dst len tweak : Z) :
  VL_ok VL -> keylen_ok ctx -> ctx_ok ctx -> call_ok m src dst len ->
  exists m',
    _aes_xts_crypt VL avx enc ctx src dst len tweak m = Some m' /\
    forall a, a < dst \/ dst + len <= a -> a < tweak \/ tweak + 16 <= a -> m' a = m a.
Proof.
  intros HVL Hk Hx Hc.
  destruct (aes_xts_crypt_returns VL avx enc ctx m src dst len tweak HVL Hk Hx Hc)
    as (m' & Hrun & _ & _ & _ & _ & Hfr).
  exists m'. split; [exact Hrun|exact Hfr].
Qed.

Lemma xts_crypt_frame_17_bytes :
  exists m',
    _aes_xts_crypt 32 true true fips197_ctx192 0 100 17 300 counting_mem = Some m' /\
    forall a, a < 100 \/ 100 + 17 <= a -> a < 300 \/ 300 + 16 <= a -> m' a = counting_mem a.
Proof.
  apply (xts_crypt_frame 32 true true fips197_ctx192 counting_mem 0 100 17 300).
  - right. left. reflexivity.
  - apply valid_keylen_ok, fips197_ctx192_valid.
  - apply valid_ctx_ok, fips197_ctx192_valid.
  - apply counting_call_ok; unfold buffers_ok; lia.
Defined.

(** X3: the variants of the routine (vector length 16, 32 or 64, round keys
    in registers or in memory) return the same memory: the entry points
    aes_xts_{en,de}crypt_aesni_avx, _vaes_avx2, _vaes_avx10_256 and
    _vaes_avx10_512 are interchangeable. *)
Theorem xts_variants_agree (VL VL' : Z) (avx avx' enc : bool) (ctx : crypto_aes_ctx)
    (m : mem) (src dst len tweak : Z) :
  VL_ok VL -> VL_ok VL' -> keylen_ok ctx -> ctx_ok ctx -> call_ok m src dst len ->
  exists m1 m2,
    _aes_xts_crypt VL avx enc ctx src dst len tweak m = Some m1 /\
    _aes_xts_crypt VL' avx' enc ctx src dst len tweak m = Some m2 /\
    mem_eq m1 m2.
Proof.
  intros HVL HVL' Hk Hx (Hm & Hlen & Hb & Hs & Hd).
  destruct (aes_xts_crypt_correct VL avx enc ctx m src dst len tweak) as (m1 & Hrun1 & He1); auto.
  destruct (aes_xts_crypt_correct VL' avx' enc ctx m src dst len tweak) as (m2 & Hrun2 & He2); auto.
  exists m1, m2. split; [exact Hrun1|]. split; [exact Hrun2|].
  intros a. now rewrite He1, He2.
Qed.

Lemma xts_variants_agree_aesni_avx512 :
  exists m1 m2,
    aes_xts_encrypt_aesni_avx fips197_ctx128 0 0 333 512 counting_mem = Some m1 /\
    aes_xts_encrypt_vaes_avx10_512 fips197_ctx128 0 0 333 512 counting_mem = Some m2 /\
    mem_eq m1 m2.
Proof.
  apply (xts_variants_agree 16 64 false true true fips197_ctx128 counting_mem 0 0 333 512).
  - left. reflexivity.
  - right. right. reflexivity.
  - apply valid_keylen_ok, fips197_ctx128_valid.
  - apply valid_ctx_ok, fips197_ctx128_valid.
  - apply counting_call_ok; unfold buffers_ok; lia.
Defined.

(** X4: the output and the tweak written back depend on the len source
    bytes and the 16 tweak bytes only: two memories that agree there give
    the same destination bytes and the same tweak. *)
Theorem xts_crypt_reads_source_and_tweak (VL : Z) (avx enc : bool) (ctx : crypto_aes_ctx)
    (m m' : mem) (src dst len tweak : Z) :
  VL_ok VL -> keylen_ok ctx -> ctx_ok ctx ->
  call_ok m src dst len -> mem_ok m' -> apart tweak 16 dst len ->
  (forall j, 0 <= j < len -> m (src + j) = m' (src + j)) ->
  (forall j, 0 <= j < 16 -> m (tweak + j) = m' (tweak + j)) ->
  exists m1 m2,
    _aes_xts_crypt VL avx enc ctx src dst len tweak m = Some m1 /\
    _aes_xts_crypt VL avx enc ctx src dst len tweak m' = Some m2 /\
    (forall i, 0 <= i < len -> m1 (dst + i) = m2 (dst + i)) /\
    load128 m1 tweak = load128 m2 tweak.
Proof.
  intros HVL Hk Hx Hc Hm' Ha Hsrc Htw.
  assert (Hc' : call_ok m' src dst len).
  { destruct Hc as (_ & H). split; [exact Hm'|exact H]. }
  destruct (aes_xts_crypt_returns VL avx enc ctx m src dst len tweak HVL Hk Hx Hc)
    as (m1 & Hrun1 & _ & Ht1 & _ & Hout1 & _).
  destruct (aes_xts_crypt_returns VL avx enc ctx m' src dst len tweak HVL Hk Hx Hc')
    as (m2 & Hrun2 & _ & Ht2 & _ & Hout2 & _).
  assert (ET : load128 m tweak = load128 m' tweak) by now apply load128_ext.
  exists m1, m2. split; [exact Hrun1|]. split; [exact Hrun2|]. split.
  - intros i Hi. rewrite Hout1, Hout2, ET by assumption.
    destruct Hc as (_ & Hlen & _). apply xts_out_byte_ext; auto; lia.
  - now rewrite Ht1, Ht2, ET.
Qed.

Lemma xts_crypt_reads_source_and_tweak_64_bytes :
  exists m1 m2,
    _aes_xts_crypt 16 false true fips197_ctx128 0 64 64 256 counting_mem = Some m1 /\
    _aes_xts_crypt 16 false true fips197_ctx128 0 64 64 256 (store128 counting_mem 512 0) = Some m2 /\
    (forall i, 0 <= i < 64 -> m1 (64 + i) = m2 (64 + i)) /\
    load128 m1 256 = load128 m2 256.
Proof.
  apply (xts_crypt_reads_source_and_tweak 16 false true fips197_ctx128 counting_mem
           (store128 counting_mem 512 0) 0 64 64 256).
  - left. reflexivity.
  - apply valid_keylen_ok, fips197_ctx128_valid.
  - apply valid_ctx_ok, fips197_ctx128_valid.
  - apply counting_call_ok; unfold buffers_ok; lia.
  - apply store128_ok, counting_mem_ok.
  - unfold apart. lia.
  - intros j Hj. rewrite store128_spec.
    destruct (Z.leb_spec 512 (0 + j)); [lia|reflexivity].
  - intros j Hj. rewrite store128_spec.
    destruct (Z.leb_spec 512 (256 + j)); [lia|reflexivity].
Defined.

Lemma store128_load128 m a : mem_ok m -> mem_eq (store128 m a (load128 m a)) m.
Proof.
  intros Hm x. rewrite store128_spec.
  destruct (Z.leb_spec a x); destruct (Z.ltb_spec x (a + 16)); cbn [andb]; try reflexivity.
  rewrite byte_load128 by (auto; lia). f_equal. lia.
Qed.

Lemma first_tweak_xmm VL avx t :
  VL_ok VL -> xmm (TWEAK0 (_compute_first_set_of_tweaks VL avx t)) = t.
Proof. intros [->|[->| ->]]; destruct avx; reflexivity. Qed.

(** X5: a call of length 0 goes from the entry through .Lhandle_remainder
    straight to .Ldone: no block is processed, and the tweak is stored back
    as it was read, so the memory is unchanged. *)
Theorem xts_crypt_empty (VL : Z) (avx enc : bool) (ctx : crypto_aes_ctx)
    (m : mem) (src dst tweak : Z) :
  VL_ok VL -> mem_ok m ->
  exists m', _aes_xts_crypt VL avx enc ctx src dst 0 tweak m = Some m' /\ mem_eq m' m.
Proof.
  intros HVL Hm.
  exists (store128 m tweak (xmm (TWEAK0 (_compute_first_set_of_tweaks VL avx (load128 m tweak))))).
  split; [|rewrite first_tweak_xmm by exact HVL; now apply store128_load128].
  unfold _aes_xts_crypt. change (jnz_test 0 15) with false. cbv iota.
  generalize (_compute_first_set_of_tweaks VL avx (load128 m tweak)). intros r.
  generalize (_load_round_keys VL avx ctx (if enc then 0 else 240)). intros keys.
  destruct HVL as [->|[->| ->]]; reflexivity.
Qed.

Lemma xts_crypt_empty_avx2 :
  exists m',
    _aes_xts_crypt 32 false true fips197_ctx128 0 64 0 256 counting_mem = Some m' /\
    mem_eq m' counting_mem.
Proof.
  apply (xts_crypt_empty 32 false true fips197_ctx128 counting_mem 0 64 256).
  - right. left. reflexivity.
  - apply counting_mem_ok.
Defined.

(** X6: the round trip in the other order: encrypting the output of a
    decryption, with the tweak location holding T again, returns the
    ciphertext, for every valid key schedule and every length of at least
    16 bytes, ciphertext stealing included. *)
Theorem encrypt_decrypt_round_trip (VL VL' : Z) (avx avx' : bool) (ctx : crypto_aes_ctx)
    (m : mem) (src dst dst' len tweak : Z) :
  VL_ok VL -> VL_ok VL' -> valid_key_schedule ctx ->
  call_ok m src dst len -> apart tweak 16 dst len ->
  buffers_ok dst dst' len -> 0 <= dst' /\ dst' + len < 2 ^ 64 -> apart tweak 16 dst' len ->
  exists m1 m2,
    _aes_xts_crypt VL avx false ctx src dst len tweak m = Some m1 /\
    _aes_xts_crypt VL' avx' true ctx dst dst' len tweak (store128 m1 tweak (load128 m tweak))
      = Some m2 /\
    forall i, 0 <= i < len -> m2 (dst' + i) = m (src + i).
Proof.
  intros HVL HVL' Hv Hc Ha Hb' Hd' Ha'.
  pose proof (valid_keylen_ok ctx Hv) as Hk. pose proof (valid_ctx_ok ctx Hv) as Hx.
  destruct (aes_xts_crypt_returns VL avx false ctx m src dst len tweak HVL Hk Hx Hc)
    as (m1 & Hrun1 & Hm1 & _ & _ & Hout1 & _).
  pose proof Hc as (Hm & Hlen & Hb & Hs & Hd).
  assert (Ht : lane_ok (load128 m tweak)) by now apply load128_lane.
  set (m1' := store128 m1 tweak (load128 m tweak)).
  assert (Hc' : call_ok m1' dst dst' len).
  { split; [now apply store128_ok|]. repeat split; auto; lia. }
  destruct (aes_xts_crypt_returns VL' avx' true ctx m1' dst dst' len tweak HVL' Hk Hx Hc')
    as (m2 & Hrun2 & _ & _ & _ & Hout2 & _).
  exists m1, m2. split; [exact Hrun1|]. split; [exact Hrun2|].
  intros i Hi. rewrite Hout2 by assumption.
  unfold m1' at 1. rewrite load128_store128 by exact Ht.
  apply (round_trip_bytes ctx false); auto; [lia|].
  intros j Hj. unfold m1'. rewrite store128_spec.
  unfold apart in Ha.
  destruct (Z.leb_spec tweak (dst + j)); destruct (Z.ltb_spec (dst + j) (tweak + 16));
    cbn [andb]; try lia; now apply Hout1.
Qed.

Lemma encrypt_decrypt_round_trip_in_place :
  exists m1 m2,
    _aes_xts_crypt 64 true false fips197_ctx256 0 0 100 256 counting_mem = Some m1 /\
    _aes_xts_crypt 16 false true fips197_ctx256 0 0 100 256
      (store128 m1 256 (load128 counting_mem 256)) = Some m2 /\
    forall i, 0 <= i < 100 -> m2 (0 + i) = counting_mem (0 + i).
Proof.
  apply (encrypt_decrypt_round_trip 64 16 true false fips197_ctx256 counting_mem 0 0 0 100 256).
  - right. right. reflexivity.
  - left. reflexivity.
  - apply fips197_ctx256_valid.
  - apply counting_call_ok; unfold buffers_ok; lia.
  - unfold apart. lia.
  - unfold buffers_ok. lia.
  - lia.
  - unfold apart. lia.
Defined.

(** ** The tweak registers *)

(** X7: _compute_first_set_of_tweaks fills TWEAK0 to TWEAK3 with the tweaks
    of the first 4*VL/16 blocks: lane l of TWEAKj holds T*x^(j*VL/16 + l),
    and the xmm view of TWEAK0 is T itself. *)
Theorem first_set_of_tweaks_spec (VL : Z) (avx : bool) (t : Z) :
  VL_ok VL -> lane_ok t ->
  let r := _compute_first_set_of_tweaks VL avx t in
  tweaks_at VL 0 t r /\ xmm (TWEAK0 r) = t /\
  forall l, (l < nlanes VL)%nat ->
    nth l (TWEAK0 r) 0 = Nat.iter l gf_mulx t /\
    nth l (TWEAK1 r) 0 = Nat.iter (nlanes VL + l) gf_mulx t /\
    nth l (TWEAK2 r) 0 = Nat.iter (2 * nlanes VL + l) gf_mulx t /\
    nth l (TWEAK3 r) 0 = Nat.iter (3 * nlanes VL + l) gf_mulx t.
Proof.
  intros HVL Ht r.
  pose proof (first_set_of_tweaks VL avx t HVL Ht) as H. fold r in H.
  split; [exact H|]. split; [now apply first_tweak_xmm|].
  intros l Hl. destruct H as (H0 & H1 & H2 & H3). rewrite H0, H1, H2, H3.
  unfold tweak_vec.
  assert (E : forall k, nth l (map (fun l0 => Nat.iter (k + l0) gf_mulx t) (seq 0 (nlanes VL))) 0
                        = Nat.iter (k + l) gf_mulx t).
  { intros k. rewrite (nth_indep _ 0 ((fun l0 => Nat.iter (k + l0) gf_mulx t) 0%nat))
      by (now rewrite length_map, length_seq).
    rewrite (map_nth (fun l0 => Nat.iter (k + l0) gf_mulx t)), seq_nth by exact Hl.
    reflexivity. }
  rewrite !E. repeat split; f_equal; lia.
Qed.

Lemma first_set_of_tweaks_all_ones :
  let r := _compute_first_set_of_tweaks 64 true (2 ^ 128 - 1) in
  tweaks_at 64 0 (2 ^ 128 - 1) r /\ xmm (TWEAK0 r) = 2 ^ 128 - 1 /\
  forall l, (l < nlanes 64)%nat ->
    nth l (TWEAK0 r) 0 = Nat.iter l gf_mulx (2 ^ 128 - 1) /\
    nth l (TWEAK1 r) 0 = Nat.iter (nlanes 64 + l) gf_mulx (2 ^ 128 - 1) /\
    nth l (TWEAK2 r) 0 = Nat.iter (2 * nlanes 64 + l) gf_mulx (2 ^ 128 - 1) /\
    nth l (TWEAK3 r) 0 = Nat.iter (3 * nlanes 64 + l) gf_mulx (2 ^ 128 - 1).
Proof.
  apply (first_set_of_tweaks_spec 64 true (2 ^ 128 - 1)).
  - right. right. reflexivity.
  - vm_compute. split; congruence.
Defined.

(** X8: the steps 0 to 19 and then 1000 of _tweak_step, issued between the
    AES rounds of the main loop, move TWEAK0 to TWEAK3 from the tweaks of
    the blocks k .. k + 4*VL/16 - 1 to those of the next 4*VL/16 blocks, by
    repeated doubling (_tweak_step_mulx, VL = 16) as by carry-less
    multiplication (_tweak_step_pclmul, VL = 32 and 64). *)
Theorem tweak_schedule_advances (VL : Z) (k : nat) (t : Z) (r : tweak_regs) :
  VL_ok VL -> lane_ok t -> tweaks_at VL k t r ->
  tweaks_at VL (k + 4 * nlanes VL) t (_tweak_step VL 1000 (run_tweak_steps VL steps20 r)).
Proof. apply tweak_steps_advance. Qed.

Lemma tweak_schedule_advances_mulx :
  tweaks_at 16 (0 + 4 * nlanes 16) 1
    (_tweak_step 16 1000 (run_tweak_steps 16 steps20 (_compute_first_set_of_tweaks 16 false 1))).
Proof.
  apply (tweak_schedule_advances 16 0 1 (_compute_first_set_of_tweaks 16 false 1)).
  - left. reflexivity.
  - unfold lane_ok. lia.
  - apply first_set_of_tweaks; [left; reflexivity|unfold lane_ok; lia].
Defined.

(** X9: no step of _tweak_step other than the last (1000) writes TWEAK0 to
    TWEAK3, so the tweaks the rounds in flight still need stay intact; and
    the steps 20 to 999, which the rounds 11 to 14 of the longer keys issue,
    do nothing at all. *)
Theorem tweak_steps_keep_current_tweaks (VL i : Z) (r : tweak_regs) :
  i <> 1000 ->
  TWEAK0 (_tweak_step VL i r) = TWEAK0 r /\ TWEAK1 (_tweak_step VL i r) = TWEAK1 r /\
  TWEAK2 (_tweak_step VL i r) = TWEAK2 r /\ TWEAK3 (_tweak_step VL i r) = TWEAK3 r /\
  (20 <= i < 1000 -> _tweak_step VL i r = r).
Proof.
  intros Hi. destruct (tweak_step_keeps VL i r Hi) as (H0 & H1 & H2 & H3).
  repeat (split; [assumption|]). apply tweak_step_noop.
Qed.

Lemma tweak_steps_keep_current_tweaks_step_26 :
  TWEAK0 (_tweak_step 64 26 all_ones_regs) = TWEAK0 all_ones_regs /\
  TWEAK1 (_tweak_step 64 26 all_ones_regs) = TWEAK1 all_ones_regs /\
  TWEAK2 (_tweak_step 64 26 all_ones_regs) = TWEAK2 all_ones_regs /\
  TWEAK3 (_tweak_step 64 26 all_ones_regs) = TWEAK3 all_ones_regs /\
  (20 <= 26 < 1000 -> _tweak_step 64 26 all_ones_regs = all_ones_regs).
Proof. apply (tweak_steps_keep_current_tweaks 64 26 all_ones_regs). lia. Defined.

(** ** The cipher core *)

(** X10: the two expansions of _xor3, one vpternlogd with the truth table
    0x96 (USE_AVX10) and two vpxor, give the same lanes on 128-bit
    operands: the XOR of the three. *)
Theorem xor3_paths_agree (a b c : vec) :
  lanes_ok a -> lanes_ok b -> lanes_ok c ->
  _xor3 true a b c = _xor3 false a b c /\
  _xor3 true a b c
  = map (fun p => Z.lxor (fst (fst p)) (Z.lxor (snd (fst p)) (snd p))) (combine (combine a b) c).
Proof.
  intros Ha. revert b c. induction Ha as [|x a Hx Ha IH]; intros b c Hb Hc.
  - destruct b; split; reflexivity.
  - destruct Hb as [|y b Hy Hb]; [split; reflexivity|].
    destruct Hc as [|z c Hz Hc]; [split; reflexivity|].
    destruct (IH b c Hb Hc) as [E1 E2]. unfold _xor3, vop3, vop2 in *.
    cbn [combine map fst snd]. split.
    + rewrite vpternlogd_0x96 by assumption. f_equal; [|exact E1].
      unfold vpxor. xor_bits.
    + rewrite vpternlogd_0x96 by assumption. f_equal. exact E2.
Qed.

Lemma xor3_paths_agree_all_ones :
  _xor3 true [2 ^ 128 - 1; 1] [5; 2 ^ 127] [7; 0] = _xor3 false [2 ^ 128 - 1; 1] [5; 2 ^ 127] [7; 0] /\
  _xor3 true [2 ^ 128 - 1; 1] [5; 2 ^ 127] [7; 0]
  = map (fun p => Z.lxor (fst (fst p)) (Z.lxor (snd (fst p)) (snd p)))
        (combine (combine [2 ^ 128 - 1; 1] [5; 2 ^ 127]) [7; 0]).
Proof.
  apply (xor3_paths_agree [2 ^ 128 - 1; 1] [5; 2 ^ 127] [7; 0]);
    repeat (apply Forall_cons; [vm_compute; split; congruence|]); apply Forall_nil.
Defined.

(** X11: a round of _vaes_1x gives the same result whether the round key
    comes from the register KEYi that _load_round_keys filled (USE_AVX10) or
    from the key schedule in memory, as an operand of the instruction or
    broadcast to V4: in every lane, the AES round under round key i. *)
Theorem vaes_1x_key_sources_agree (VL : Z) (ctx : crypto_aes_ctx) (KEY : Z)
    (enc last : bool) (i : Z) (sfx : bool) (data : vec) :
  VL_ok VL -> 1 <= i <= 14 -> length data = (if sfx then 1%nat else nlanes VL) ->
  _vaes_1x VL true ctx KEY (_load_round_keys VL true ctx KEY) enc last i sfx data
  = _vaes_1x VL false ctx KEY (_load_round_keys VL false ctx KEY) enc last i sfx data /\
  _vaes_1x VL true ctx KEY (_load_round_keys VL true ctx KEY) enc last i sfx data
  = map (aes_round enc last (ctx_load128 ctx (KEY + i * 16))) data.
Proof.
  intros HVL Hi Hl. rewrite !vaes_1x_spec by assumption. split; reflexivity.
Qed.

Lemma vaes_1x_key_sources_agree_round_14 :
  _vaes_1x 32 true fips197_ctx256 240 (_load_round_keys 32 true fips197_ctx256 240)
    false true 14 false [1; 2]
  = _vaes_1x 32 false fips197_ctx256 240 (_load_round_keys 32 false fips197_ctx256 240)
      false true 14 false [1; 2] /\
  _vaes_1x 32 true fips197_ctx256 240 (_load_round_keys 32 true fips197_ctx256 240)
    false true 14 false [1; 2]
  = map (aes_round false true (ctx_load128 fips197_ctx256 (240 + 14 * 16))) [1; 2].
Proof.
  apply (vaes_1x_key_sources_agree 32 fips197_ctx256 240 false true 14 false [1; 2]).
  - right. left. reflexivity.
  - lia.
  - reflexivity.
Defined.

Lemma map_combine_inverse (f g : Z * Z -> Z) (tweak data : vec) :
  length tweak = length data ->
  (forall t b, In t tweak -> In b data -> g (t, f (t, b)) = b) ->
  map g (combine tweak (map f (combine tweak data))) = data.
Proof.
  revert data. induction tweak as [|t tweak IH]; intros [|b data] Hl H; try discriminate.
  - reflexivity.
  - cbn [combine map]. f_equal.
    + apply H; now left.
    + apply IH; [now injection Hl|]. intros t' b' Ht Hb. apply H; now right.
Qed.

(** X12: _aes_crypt in one direction undoes _aes_crypt in the other under
    the same tweaks, lane by lane, for a valid key schedule; the two
    invocations may differ in where they take the round keys from. *)
Theorem aes_crypt_round_trip (VL : Z) (avx avx' : bool) (ctx : crypto_aes_ctx)
    (enc sfx : bool) (tweak data : vec) :
  VL_ok VL -> valid_key_schedule ctx ->
  lanes_ok tweak -> lanes_ok data ->
  length tweak = length data -> length data = (if sfx then 1%nat else nlanes VL) ->
  _aes_crypt VL avx' ctx (KEY_of (negb enc)) (_load_round_keys VL avx' ctx (KEY_of (negb enc)))
    (negb enc) sfx tweak
    (_aes_crypt VL avx ctx (KEY_of enc) (_load_round_keys VL avx ctx (KEY_of enc))
       enc sfx tweak data)
  = data.
Proof.
  intros HVL Hv Ht Hd Hl Hn.
  pose proof (valid_keylen_ok ctx Hv) as Hk. pose proof (valid_ctx_ok ctx Hv) as Hx.
  rewrite (aes_crypt_spec VL avx ctx enc sfx tweak data) by assumption.
  assert (Hlen : length (map (fun p => xts_block enc ctx (fst p) (snd p)) (combine tweak data))
                 = length data).
  { rewrite length_map, length_combine. lia. }
  rewrite aes_crypt_spec; auto; try congruence.
  - apply (map_combine_inverse (fun p => xts_block enc ctx (fst p) (snd p))
             (fun p => xts_block (negb enc) ctx (fst p) (snd p))); [exact Hl|].
    intros t b Hit Hib. cbn [fst snd].
    unfold lanes_ok in Ht, Hd. rewrite Forall_forall in Ht, Hd.
    apply xts_block_inv; auto.
  - apply Forall_forall. intros y Hy. apply in_map_iff in Hy.
    destruct Hy as ([t b] & <- & Hin). apply in_combine_l in Hin.
    unfold lanes_ok in Ht. rewrite Forall_forall in Ht.
    apply xts_block_lane; auto.
Qed.

Lemma aes_crypt_round_trip_two_lanes :
  _aes_crypt 32 false fips197_ctx192 (KEY_of (negb true))
    (_load_round_keys 32 false fips197_ctx192 (KEY_of (negb true))) (negb true) false [1; 2]
    (_aes_crypt 32 true fips197_ctx192 (KEY_of true)
       (_load_round_keys 32 true fips197_ctx192 (KEY_of true)) true false [1; 2] [3; 4])
  = [3; 4].
Proof.
  apply (aes_crypt_round_trip 32 true false fips197_ctx192 true false [1; 2] [3; 4]).
  - right. left. reflexivity.
  - apply fips197_ctx192_valid.
  - repeat (apply Forall_cons; [unfold lane_ok; lia|]); apply Forall_nil.
  - repeat (apply Forall_cons; [unfold lane_ok; lia|]); apply Forall_nil.
  - reflexivity.
  - reflexivity.
Defined.

Lemma round_key_true ctx i : round_key ctx true i = ctx_load128 ctx (i * 16).
Proof. unfold round_key. now rewrite Z.add_0_l. Qed.

(** X13: aes_xts_encrypt_iv replaces the 16 bytes at iv by their plain AES
    encryption under the tweak key, with the round count the key length
    selects (10, 12 or 14), and leaves the rest of the memory alone. *)
Theorem aes_xts_encrypt_iv_spec (tweak_key : crypto_aes_ctx) (iv : Z) (m : mem) :
  keylen_ok tweak_key ->
  aes_xts_encrypt_iv tweak_key iv m = store128 m iv (Cipher true tweak_key (load128 m iv)) /\
  forall a, a < iv \/ iv + 16 <= a -> aes_xts_encrypt_iv tweak_key iv m a = m a.
Proof.
  intros Hk.
  assert (E : aes_xts_encrypt_iv tweak_key iv m
              = store128 m iv (Cipher true tweak_key (load128 m iv))).
  { unfold aes_xts_encrypt_iv, Cipher, Rounds, vpxor.
    rewrite (Z.lxor_comm (ctx_load128 tweak_key (0 * 16))).
    destruct Hk as [Hk|[Hk|Hk]]; rewrite Hk;
      [ change (signed 32 16 <=? 24) with true; change (16 =? 24) with false
      | change (signed 32 24 <=? 24) with true; change (24 =? 24) with true
      | change (signed 32 32 <=? 24) with false ];
      cbv iota;
      cbn [Nr Z.eqb Pos.eqb Nat.sub seq map fold_left aes_round Z.of_nat Pos.of_succ_nat Pos.succ];
      rewrite !round_key_true; reflexivity. }
  split; [exact E|].
  intros a Ha. rewrite E, store128_spec.
  destruct (Z.leb_spec iv a); destruct (Z.ltb_spec a (iv + 16)); cbn [andb]; try reflexivity; lia.
Qed.

Lemma aes_xts_encrypt_iv_spec_aes192 :
  aes_xts_encrypt_iv fips197_ctx192 4096 counting_mem
  = store128 counting_mem 4096 (Cipher true fips197_ctx192 (load128 counting_mem 4096)) /\
  forall a, a < 4096 \/ 4096 + 16 <= a ->
    aes_xts_encrypt_iv fips197_ctx192 4096 counting_mem a = counting_mem a.
Proof.
  apply (aes_xts_encrypt_iv_spec fips197_ctx192 4096 counting_mem).
  right. left. reflexivity.
Defined.

(** ** Ciphertext stealing *)

(** X14: the two ways .Lcts merges the partial block with the first result
    build the same block: the load of len bytes under the mask of bzhi
    (USE_AVX10), and the vpshufb and vpblendvb with the mask read from
    .Lcts_permute_table at 32 - len.  Its bytes 0 .. len-1 are the partial
    block, the others are those of the first result. *)
Theorem cts_merge_paths_agree (m : mem) (a r first : Z) :
  mem_ok m -> 0 < r < 16 ->
  let xmm3 := load_cts_table (0 - r + 32) in
  vpblendvb xmm3 first (vpshufb xmm3 (load128 m (a + r)))
  = vmovdqu8_load_k m (a + 16) (bzhi r (mask 64 (-1))) first /\
  forall i, 0 <= i < 16 ->
    byte i (vmovdqu8_load_k m (a + 16) (bzhi r (mask 64 (-1))) first)
    = if i <? r then m (a + 16 + i) else byte i first.
Proof.
  intros Hm Hr xmm3. unfold xmm3. rewrite merged_blend, merged_masked by assumption.
  split; [reflexivity|].
  intros i Hi. rewrite byte_of_map; [reflexivity| |lia].
  intros j _. destruct (j <? r); [apply Hm|apply byte_range].
Qed.

Lemma cts_merge_paths_agree_5_bytes :
  let xmm3 := load_cts_table (0 - 5 + 32) in
  vpblendvb xmm3 (2 ^ 128 - 1) (vpshufb xmm3 (load128 counting_mem (32 + 5)))
  = vmovdqu8_load_k counting_mem (32 + 16) (bzhi 5 (mask 64 (-1))) (2 ^ 128 - 1) /\
  forall i, 0 <= i < 16 ->
    byte i (vmovdqu8_load_k counting_mem (32 + 16) (bzhi 5 (mask 64 (-1))) (2 ^ 128 - 1))
    = if i <? 5 then counting_mem (32 + 16 + i) else byte i (2 ^ 128 - 1).
Proof.
  apply (cts_merge_paths_agree counting_mem 32 5 (2 ^ 128 - 1)).
  - apply counting_mem_ok.
  - lia.
Defined.

(** ** The loops *)

(** X15: one pass of .Lmain_loop takes a state in which the first k blocks
    are done and TWEAK0 to TWEAK3 hold the tweaks of the blocks k ..
    k + 4*VL/16 - 1 to the state in which 4*VL/16 more blocks are done and
    the registers hold the tweaks of the blocks after them; the next tweaks
    are computed while the rounds run, and the pass leaves LEN alone. *)
Theorem main_loop_pass (VL : Z) (avx enc : bool) (ctx : crypto_aes_ctx)
    (m0 : mem) (src dst len t : Z) (k : nat) (st : state) :
  VL_ok VL -> keylen_ok ctx -> ctx_ok ctx -> lane_ok t -> call_ok m0 src dst len ->
  processed enc ctx t m0 src dst k st -> tweaks_at VL k t (TW st) -> mem_ok (MEM st) ->
  16 * Z.of_nat (k + 4 * nlanes VL) <= len ->
  let st' := main_loop_body VL avx ctx (KEY_of enc) (_load_round_keys VL avx ctx (KEY_of enc))
               enc st in
  processed enc ctx t m0 src dst (k + 4 * nlanes VL) st' /\
  tweaks_at VL (k + 4 * nlanes VL) t (TW st') /\
  mem_ok (MEM st') /\ LEN st' = LEN st.
Proof.
  intros HVL Hk Hx Ht (Hm & Hlen & Hb & Hs & Hd) Hp Htw Hmo Hle.
  now apply (main_loop_body_spec VL avx enc ctx m0 src dst len t).
Qed.

Lemma sample_state_processed VL avx enc ctx t :
  processed enc ctx t counting_mem 0 1024 0 (sample_state VL avx).
Proof.
  repeat split. intros a. symmetry. apply blocks_mem_0.
Qed.

Lemma main_loop_pass_first :
  let t := load128 counting_mem 4096 in
  let st' := main_loop_body 32 true fips197_ctx128 (KEY_of true)
               (_load_round_keys 32 true fips197_ctx128 (KEY_of true)) true (sample_state 32 true) in
  processed true fips197_ctx128 t counting_mem 0 1024 (0 + 4 * nlanes 32) st' /\
  tweaks_at 32 (0 + 4 * nlanes 32) t (TW st') /\
  mem_ok (MEM st') /\ LEN st' = LEN (sample_state 32 true).
Proof.
  apply (main_loop_pass 32 true true fips197_ctx128 counting_mem 0 1024 512
           (load128 counting_mem 4096) 0 (sample_state 32 true)).
  - right. left. reflexivity.
  - apply valid_keylen_ok, fips197_ctx128_valid.
  - apply valid_ctx_ok, fips197_ctx128_valid.
  - apply load128_lane, counting_mem_ok.
  - apply counting_call_ok; unfold buffers_ok; lia.
  - apply sample_state_processed.
  - apply first_set_of_tweaks; [right; left; reflexivity|apply load128_lane, counting_mem_ok].
  - apply counting_mem_ok.
  - vm_compute. congruence.
Defined.

(** X16: one pass of .Lblock_at_a_time does one more block under the tweak
    in TWEAK0_XMM and advances that tweak by one _next_tweak step. *)
Theorem block_at_a_time_pass (VL : Z) (avx enc : bool) (ctx : crypto_aes_ctx)
    (m0 : mem) (src dst len t : Z) (k : nat) (st : state) :
  VL_ok VL -> keylen_ok ctx -> ctx_ok ctx -> lane_ok t -> call_ok m0 src dst len ->
  processed enc ctx t m0 src dst k st -> xmm (TWEAK0 (TW st)) = Nat.iter k gf_mulx t ->
  mem_ok (MEM st) -> 16 * Z.of_nat (k + 1) <= len ->
  let st' := block_at_a_time_body VL avx ctx (KEY_of enc)
               (_load_round_keys VL avx ctx (KEY_of enc)) enc st in
  processed enc ctx t m0 src dst (k + 1) st' /\
  xmm (TWEAK0 (TW st')) = Nat.iter (k + 1) gf_mulx t /\
  mem_ok (MEM st') /\ LEN st' = LEN st.
Proof.
  intros HVL Hk Hx Ht (Hm & Hlen & Hb & Hs & Hd) Hp Htw Hmo Hle.
  now apply (block_body_spec VL avx enc ctx m0 src dst len t).
Qed.

Lemma block_at_a_time_pass_first :
  let t := load128 counting_mem 4096 in
  let st' := block_at_a_time_body 16 false fips197_ctx256 (KEY_of false)
               (_load_round_keys 16 false fips197_ctx256 (KEY_of false)) false
               (sample_state 16 false) in
  processed false fips197_ctx256 t counting_mem 0 1024 (0 + 1) st' /\
  xmm (TWEAK0 (TW st')) = Nat.iter (0 + 1) gf_mulx t /\
  mem_ok (MEM st') /\ LEN st' = LEN (sample_state 16 false).
Proof.
  apply (block_at_a_time_pass 16 false false fips197_ctx256 counting_mem 0 1024 512
           (load128 counting_mem 4096) 0 (sample_state 16 false)).
  - left. reflexivity.
  - apply valid_keylen_ok, fips197_ctx256_valid.
  - apply valid_ctx_ok, fips197_ctx256_valid.
  - apply load128_lane, counting_mem_ok.
  - apply counting_call_ok; unfold buffers_ok; lia.
  - apply sample_state_processed.
  - reflexivity.
  - apply counting_mem_ok.
  - vm_compute. congruence.
Defined.

(** ** Serial tweak steps in closed form *)

(** X17: n steps of _next_tweak, for any n up to 121, amount to one shift
    of the tweak by n bits with the n bits shifted out folded back through
    x^7 + x^2 + x + 1 (0x87): the closed form behind the carry-less
    multiplications of _next_tweakvec and _tweak_step_pclmul. *)
Theorem serial_steps_closed_form (n : nat) (t : Z) :
  lane_ok t -> (n <= 121)%nat ->
  next_tweak_iter n t = gf_mulxn (Z.of_nat n) t /\ lane_ok (next_tweak_iter n t).
Proof.
  intros Ht Hn. split; [now apply next_tweak_iter_gf_mulxn|].
  rewrite next_tweak_iter_gf by exact Ht. now apply iter_gf_mulx_lane.
Qed.

Lemma serial_steps_closed_form_121 :
  next_tweak_iter 121 (2 ^ 128 - 1) = gf_mulxn (Z.of_nat 121) (2 ^ 128 - 1) /\
  lane_ok (next_tweak_iter 121 (2 ^ 128 - 1)).
Proof.
  apply (serial_steps_closed_form 121 (2 ^ 128 - 1)).
  - vm_compute. split; congruence.
  - apply le_n.
Defined.

(** ** The key-length field *)

Lemma effective_key_length_tests kl :
  (signed 32 (effective_key_length kl) <=? 24) = (signed 32 kl <=? 24) /\
  (effective_key_length kl =? 24) = (kl =? 24).
Proof.
  unfold effective_key_length.
  destruct (Z.leb_spec (signed 32 kl) 24) as [Hle|Hgt].
  - destruct (Z.eqb_spec kl 24); split; reflexivity.
  - split; [reflexivity|]. destruct (Z.eqb_spec kl 24) as [->|]; [|reflexivity].
    vm_compute in Hgt. discriminate Hgt.
Qed.

Section KeyLengthField.
Variables (VL : Z) (avx : bool) (ctx : crypto_aes_ctx).
Let ctx' : crypto_aes_ctx := set_key_length (effective_key_length (key_length ctx)) ctx.

Lemma aes_crypt_rounds_field : _aes_crypt_rounds ctx' = _aes_crypt_rounds ctx.
Proof.
  unfold _aes_crypt_rounds, KEYLEN, ctx'. cbn [key_length set_key_length].
  destruct (effective_key_length_tests (key_length ctx)) as [-> ->]. reflexivity.
Qed.

Lemma vaes_1x_field KEY keys enc last i (sfx : bool) d :
  _vaes_1x VL avx ctx' KEY keys enc last i sfx d = _vaes_1x VL avx ctx KEY keys enc last i sfx d.
Proof. reflexivity. Qed.

Lemma vaes_4x_field KEY keys enc last i d r :
  _vaes_4x VL avx ctx' KEY keys enc last i d r = _vaes_4x VL avx ctx KEY keys enc last i d r.
Proof. reflexivity. Qed.

Lemma aes_crypt_field KEY keys enc (sfx : bool) tw d :
  _aes_crypt VL avx ctx' KEY keys enc sfx tw d = _aes_crypt VL avx ctx KEY keys enc sfx tw d.
Proof.
  rewrite !aes_crypt_runs_rounds, aes_crypt_rounds_field.
  reflexivity.
Qed.

Lemma main_loop_body_field KEY keys enc st :
  main_loop_body VL avx ctx' KEY keys enc st = main_loop_body VL avx ctx KEY keys enc st.
Proof.
  rewrite !main_loop_runs_rounds, aes_crypt_rounds_field.
  unfold main_loop_body_with_rounds. cbv zeta.
  rewrite (fold_left_ext_in
             (fun dr p => _vaes_4x VL avx ctx' KEY keys enc (fst p) (snd p) (fst dr) (snd dr))
             (fun dr p => _vaes_4x VL avx ctx KEY keys enc (fst p) (snd p) (fst dr) (snd dr)))
    by (intros p _ x; apply vaes_4x_field).
  reflexivity.
Qed.

Lemma main_loop_field KEY keys enc fuel st :
  main_loop VL avx ctx' KEY keys enc fuel st = main_loop VL avx ctx KEY keys enc fuel st.
Proof.
  revert st. induction fuel as [|fuel IH]; intros st; [reflexivity|].
  cbn [main_loop]. rewrite main_loop_body_field.
  destruct (jl_sub _ _); [reflexivity|apply IH].
Qed.

Lemma vec_at_a_time_field KEY keys enc fuel st :
  vec_at_a_time VL avx ctx' KEY keys enc fuel st = vec_at_a_time VL avx ctx KEY keys enc fuel st.
Proof.
  revert st. induction fuel as [|fuel IH]; intros st; [reflexivity|].
  cbn [vec_at_a_time]. unfold vec_at_a_time_body. rewrite aes_crypt_field.
  destruct (jl_sub _ _); [reflexivity|apply IH].
Qed.

Lemma block_at_a_time_field KEY keys enc fuel st :
  block_at_a_time VL avx ctx' KEY keys enc fuel st
  = block_at_a_time VL avx ctx KEY keys enc fuel st.
Proof.
  revert st. induction fuel as [|fuel IH]; intros st; [reflexivity|].
  cbn [block_at_a_time]. unfold block_at_a_time_body. rewrite aes_crypt_field.
  destruct (jl_sub _ _); [reflexivity|apply IH].
Qed.

Lemma cts_field KEY keys enc st :
  cts VL avx ctx' KEY keys enc st = cts VL avx ctx KEY keys enc st.
Proof.
  unfold cts. cbv zeta. rewrite aes_crypt_field.
  destruct (if avx then _ else _) as [xmm0 m0].
  rewrite aes_crypt_field. reflexivity.
Qed.

Lemma handle_remainder_field KEY keys enc fuel TWEAK st :
  handle_remainder VL avx ctx' KEY keys enc fuel TWEAK st
  = handle_remainder VL avx ctx KEY keys enc fuel TWEAK st.
Proof.
  unfold handle_remainder. cbv zeta. rewrite vec_at_a_time_field.
  destruct (if 16 <? VL then _ else _) as [[lt st1]|]; [|reflexivity].
  rewrite block_at_a_time_field.
  destruct (if lt then _ else _) as [st2|]; [|reflexivity].
  now rewrite cts_field.
Qed.

Lemma aes_xts_crypt_field enc src dst len tweak m :
  _aes_xts_crypt VL avx enc ctx' src dst len tweak m
  = _aes_xts_crypt VL avx enc ctx src dst len tweak m.
Proof.
  unfold _aes_xts_crypt. cbv zeta.
  change (_load_round_keys VL avx ctx' (if enc then 0 else 240))
    with (_load_round_keys VL avx ctx (if enc then 0 else 240)).
  rewrite handle_remainder_field, main_loop_field.
  destruct (jl_sub _ _); [reflexivity|].
  destruct (main_loop _ _ _ _ _ _ _ _) as [st|]; [|reflexivity].
  now rewrite handle_remainder_field.
Qed.

Lemma aes_xts_encrypt_iv_field iv m :
  aes_xts_encrypt_iv ctx' iv m = aes_xts_encrypt_iv ctx iv m.
Proof.
  unfold aes_xts_encrypt_iv, ctx'. cbn [key_length set_key_length].
  destruct (effective_key_length_tests (key_length ctx)) as [-> ->]. reflexivity.
Qed.

End KeyLengthField.

(** X19: the routine looks at the key-length field through two
    comparisons only, so whatever the field holds it behaves as for a key
    of 16, 24 or 32 bytes: a field of 24 as 24, any other value up to 24 (as
    a signed 32-bit number) as 16, a larger one as 32.  This holds of
    _aes_xts_crypt in every variant and direction, on every input, of
    _aes_crypt, of a pass of .Lmain_loop and of aes_xts_encrypt_iv. *)
Theorem key_length_field_cases (VL : Z) (avx enc : bool) (ctx : crypto_aes_ctx)
    (src dst len tweak : Z) (m : mem) :
  let ctx' := set_key_length (effective_key_length (key_length ctx)) ctx in
  _aes_xts_crypt VL avx enc ctx src dst len tweak m
  = _aes_xts_crypt VL avx enc ctx' src dst len tweak m /\
  (forall KEY keys (sfx : bool) tw d,
     _aes_crypt VL avx ctx KEY keys enc sfx tw d = _aes_crypt VL avx ctx' KEY keys enc sfx tw d) /\
  (forall KEY keys st,
     main_loop_body VL avx ctx KEY keys enc st = main_loop_body VL avx ctx' KEY keys enc st) /\
  (forall iv, aes_xts_encrypt_iv ctx iv m = aes_xts_encrypt_iv ctx' iv m).
Proof.
  intros ctx'. unfold ctx'. split; [|split; [|split]].
  - symmetry. apply aes_xts_crypt_field.
  - intros. symmetry. apply aes_crypt_field.
  - intros. symmetry. apply main_loop_body_field.
  - intros. symmetry. apply aes_xts_encrypt_iv_field.
Qed.

Lemma key_length_field_17_as_16 :
  let ctx := set_key_length 17 fips197_ctx128 in
  let ctx' := set_key_length (effective_key_length (key_length ctx)) ctx in
  _aes_xts_crypt 32 true false ctx 0 64 40 256 counting_mem
  = _aes_xts_crypt 32 true false ctx' 0 64 40 256 counting_mem /\
  (forall KEY keys (sfx : bool) tw d,
     _aes_crypt 32 true ctx KEY keys false sfx tw d
     = _aes_crypt 32 true ctx' KEY keys false sfx tw d) /\
  (forall KEY keys st,
     main_loop_body 32 true ctx KEY keys false st = main_loop_body 32 true ctx' KEY keys false st) /\
  (forall iv, aes_xts_encrypt_iv ctx iv counting_mem = aes_xts_encrypt_iv ctx' iv counting_mem).
Proof.
  apply (key_length_field_cases 32 true false (set_key_length 17 fips197_ctx128) 0 64 40 256
           counting_mem).
Defined.
